(** * PrMers: checkpoint schedule, Mersenne arithmetic, residue codec,
      proof snapshots, proof builder and backup manager

    A shallow embedding of [src/core/ProofSet.cpp] and
    [src/core/BackupManager.cpp].

    Conventions.
    - A [uint32_t] / [uint64_t] value is a [Z]; every C++ operation that can
      wrap is written with [u32] / [u64].
    - A [std::vector] is a [list]; an [mpz_class] is an unbounded [Z].
    - A file is a [list byte]; a directory is a finite map.
    - A C++ exception is a [Throw]; a write outside a buffer is [Undefined].
    - Text sent to [std::cout] / [std::cerr] is kept only where a statement
      below talks about it (the backup manager), as a list of log events. *)

From Stdlib Require Import ZArith List Bool Lia Ascii String Sorting.Sorted
  Permutation DecimalString Strings.Byte.
From Stdlib Require DecimalPos DecimalN.
From stdpp Require Import base list sorting gmap strings.

Local Open Scope Z_scope.

(** ** Machine integers *)

Definition u32 (z : Z) : Z := z mod 2 ^ 32.
Definition u64 (z : Z) : Z := z mod 2 ^ 64.

Definition UINT32_MAX : Z := 4294967295.

(** ** Checkpoint schedule: [ProofSet::ProofSet] and [ProofSet::isInPoints] *)

Module Schedule.

(** [span = (span + 1) / 2], the loop increment of both loops over spans. *)
Definition next_span (span : Z) : Z := u32 (span + 1) / 2.

(** [(E + 1) / 2], the initial span; [E + 1] is computed in [uint32_t]. *)
Definition first_span (E : Z) : Z := u32 (E + 1) / 2.

(** The inner loop at one level:
    [for (i = 0, end = points.size(); i < end; ++i)
       points.push_back(points[i] + span);] *)
Definition push_level (span : Z) (points : list Z) : list Z :=
  points ++ map (fun p => u32 (p + span)) points.

(** The outer loop [for (p = 0, span = ...; p < power; ++p, span = ...)],
    with [n] the number of iterations still to run. *)
Fixpoint grow (n : nat) (span : Z) (points : list Z) : list Z :=
  match n with
  | O => points
  | S n' => grow n' (next_span span) (push_level span points)
  end.

(** [points.front() = E]. *)
Definition set_front (E : Z) (points : list Z) : list Z :=
  match points with
  | [] => []
  | _ :: rest => E :: rest
  end.

(** The points before the guard element is pushed: built, front replaced,
    sorted with [std::sort]. *)
Definition sorted_points (E power : Z) : list Z :=
  merge_sort Z.le (set_front E (grow (Z.to_nat power) (first_span E) [0])).

(** The [points] member left by the constructor.  For an even exponent the
    constructor body is skipped and [points] stays empty.  The [assert]s of
    the constructor are [ctor_asserts] below: where one fails, a build that
    keeps assertions aborts, and this is what a build without them
    leaves. *)
Definition ProofSet (E power : Z) : list Z :=
  if negb (E mod 2 =? 0) then sorted_points E power ++ [UINT32_MAX] else [].

(** The loop of [isInPoints]; [n] iterations remain. *)
Fixpoint walk (n : nat) (span start k : Z) : bool :=
  match n with
  | O => false
  | S n' =>
      if k >? u32 (start + span) then walk n' (next_span span) (u32 (start + span)) k
      else if k =? u32 (start + span) then true
      else walk n' (next_span span) start k
  end.

Definition isInPoints (E power k : Z) : bool :=
  if k =? E then true
  else walk (Z.to_nat power) (first_span E) 0 k.

(** The three [assert]s of the constructor that follow the sort. *)
Definition ctor_asserts (E power : Z) : bool :=
  (Z.of_nat (length (sorted_points E power)) =? u32 (Z.shiftl 1 power))
  && match last (sorted_points E power) with
     | Some b => b =? E
     | None => false
     end
  && forallb (fun p => (p >? E) || isInPoints E power p) (ProofSet E power).

(** The [spans] vector filled by the first loop of the constructor. *)
Fixpoint spans_from (n : nat) (span : Z) : list Z :=
  match n with
  | O => []
  | S n' => span :: spans_from n' (next_span span)
  end.

Definition spans (E power : Z) : list Z :=
  spans_from (Z.to_nat power) (first_span E).

Fixpoint sumZ (l : list Z) : Z :=
  match l with
  | [] => 0
  | x :: rest => x + sumZ rest
  end.

(** [hit n span d]: [d] is the sum of a non-empty selection of the [n] spans
    that start at [span] (a selection is by position, so equal spans count
    separately). *)
Fixpoint hit (n : nat) (span d : Z) : Prop :=
  match n with
  | O => False
  | S n' =>
      d = span \/ hit n' (next_span span) d \/ hit n' (next_span span) (d - span)
  end.

(** Every span is at least the sum of all the spans after it. *)
Fixpoint dominated (n : nat) (span : Z) : Prop :=
  match n with
  | O => True
  | S n' =>
      sumZ (spans_from n' (next_span span)) <= span /\ dominated n' (next_span span)
  end.

(** The schedule property: [2^power] points before the guard element, in
    strictly ascending order, the largest being [E], and [isInPoints]
    deciding membership in the array for every [k] in [[0, E]]. *)
Definition schedule_ok (E power : Z) : Prop :=
  exists body : list Z,
    ProofSet E power = body ++ [UINT32_MAX]
    /\ Z.of_nat (length body) = 2 ^ power
    /\ Sorted Z.lt body
    /\ last body = Some E
    /\ forall k, 0 <= k <= E -> (isInPoints E power k = true <-> k ∈ ProofSet E power).

End Schedule.

(** ** Mersenne arithmetic: [mersenneReduce] and [mersennePowMod] *)

Module Mersenne.

(** [mpz_sizeinbase(x, 2)]: the number of bits of the magnitude of [x], and 1
    when [x] is zero. *)
Definition mpz_sizeinbase2 (x : Z) : Z :=
  if x =? 0 then 1 else Z.log2 (Z.abs x) + 1.

(** [ProofSet::mersenneReduce].  [E + 1] is a [uint32_t] sum; the size it is
    compared with is a [size_t]. *)
Definition mersenneReduce (x E : Z) : Z :=
  if mpz_sizeinbase2 x <=? u32 (E + 1) then x
  else
    let mersenne_mod := Z.shiftl 1 E - 1 in
    let xlo := Z.land x mersenne_mod in
    let xhi := Z.shiftr x E in
    let result := xlo + xhi in
    if result >=? mersenne_mod then result - mersenne_mod else result.

(** One turn of [while (exp > 0)] in [mersennePowMod], on the triple
    [(exp, result, square)]. *)
Definition pow_step (E : Z) (st : Z * Z * Z) : Z * Z * Z :=
  let '(exp, result, square) := st in
  let result := if Z.odd exp then mersenneReduce (result * square) E else result in
  let exp := Z.shiftr exp 1 in
  let square := if exp >? 0 then mersenneReduce (square * square) E else square in
  (exp, result, square).

(** The loop, run for at most [fuel] turns; [None] if [exp] is still positive
    when the fuel is spent. *)
Fixpoint pow_loop (fuel : nat) (E : Z) (st : Z * Z * Z) : option Z :=
  let '(exp, result, _) := st in
  if exp >? 0 then
    match fuel with
    | O => None
    | S fuel' => pow_loop fuel' E (pow_step E st)
    end
  else Some result.

(** [ProofSet::mersennePowMod]; [exp] is a [uint64_t], which 64 turns
    exhaust (see [pow_loop_terminates]). *)
Definition mersennePowMod (base exp E : Z) : option Z :=
  if exp =? 0 then Some 1
  else if exp =? 1 then Some (mersenneReduce base E)
  else pow_loop 64 E (exp, 1, mersenneReduce base E).

(** The Mersenne number [2^E - 1]. *)
Definition M (E : Z) : Z := 2 ^ E - 1.

End Mersenne.

(** ** Outcomes of the fallible member functions *)

(** The [std::runtime_error]s thrown in [ProofSet.cpp], one constructor per
    message; the iteration stands for the file path in the message. *)
Inductive exn : Type :=
  | CannotCreate (iter : Z)   (* Cannot create proof checkpoint file *)
  | WriteError (iter : Z)     (* Error writing proof checkpoint file *)
  | NotCheckpoint (iter : Z)  (* Attempt to load non-checkpoint iteration *)
  | CannotOpen (iter : Z)     (* Cannot open proof checkpoint file *)
  | CrcReadError (iter : Z)   (* Error reading CRC32 from proof checkpoint file *)
  | DataReadError (iter : Z)  (* Error reading data from proof checkpoint file *)
  | CrcMismatch (iter : Z)    (* CRC32 mismatch in proof checkpoint file *)
  | ReadZero (level : Z).     (* Read ZERO during proof generation at level *)

(** [Undefined] marks an access outside a vector or buffer, which C++ leaves
    undefined. *)
Inductive outcome (A : Type) : Type :=
  | Ok (a : A)
  | Throw (e : exn)
  | Undefined.
Arguments Ok {A} a.
Arguments Throw {A} e.
Arguments Undefined {A}.

(** Sequencing: the first exception (or undefined step) ends the run. *)
#[global] Instance outcome_bind : MBind outcome := fun A B k m =>
  match m with
  | Ok a => k a
  | Throw e => Throw e
  | Undefined => Undefined
  end.

#[global] Instance outcome_ret : MRet outcome := fun A a => Ok a.

(** ** Residue codec: [convertToGMP] and [convertFromGMP] *)

Module Codec.

(** [ProofSet::convertToGMP]: [mpz_import] with least significant word first,
    32-bit words, no nails. *)
Fixpoint convertToGMP (words : list Z) : Z :=
  match words with
  | [] => 0
  | w :: rest => w + 2 ^ 32 * convertToGMP rest
  end.

(** The [n] least significant 32-bit words of [v], least significant first. *)
Fixpoint limbs (n : nat) (v : Z) : list Z :=
  match n with
  | O => []
  | S n' => v mod 2 ^ 32 :: limbs n' (v / 2 ^ 32)
  end.

(** The number of words [mpz_export] writes: as many as the magnitude needs,
    none for zero. *)
Definition limb_count (v : Z) : Z :=
  if v =? 0 then 0 else Z.log2 (Z.abs v) / 32 + 1.

(** The words [mpz_export] writes (least significant first, 32-bit, no
    nails). *)
Definition mpz_export (v : Z) : list Z :=
  limbs (Z.to_nat (limb_count v)) (Z.abs v).

(** [(E + 31) / 32] as the code computes it: [E] is a [uint32_t] (the
    constructor's [exponent]), and so is the sum. *)
Definition wordCount (E : Z) : Z := u32 (E + 31) / 32.

(** [ProofSet::convertFromGMP].  [mpz_export] writes into a zero-filled
    vector of [wordCount] words and is not told its size: writing more words
    than that is [Undefined].  A vector of no words has a null [data()], and
    [mpz_export] given a null pointer allocates a block of its own: the
    vector is returned empty, whatever the value. *)
Definition convertFromGMP (E gmp_val : Z) : outcome (list Z) :=
  let written := mpz_export gmp_val in
  if wordCount E =? 0 then Ok []
  else if Z.of_nat (length written) <=? wordCount E then
    Ok (written ++ replicate (Z.to_nat (wordCount E) - length written) 0)
  else Undefined.

(** The codec property: every [x] below [2^E] becomes exactly [ceil(E/32)]
    32-bit words, those beyond the ones [x] needs being zero, and the words
    read back as [x]. *)
Definition codec_ok (E : Z) : Prop :=
  forall x, 0 <= x < 2 ^ E ->
    exists words,
      convertFromGMP E x = Ok words
      /\ Z.of_nat (length words) = (E + 31) / 32
      /\ Forall (fun w => 0 <= w < 2 ^ 32) words
      /\ (forall i w, words !! i = Some w -> limb_count x <= Z.of_nat i -> w = 0)
      /\ convertToGMP words = x.

End Codec.

(** ** Bytes and their layout in files *)

Definition byte_val (b : byte) : Z := Z.of_N (Byte.to_N b).

Definition byte_of (z : Z) : byte :=
  match Byte.of_N (Z.to_N (z mod 256)) with
  | Some b => b
  | None => Byte.x00
  end.

(** The [n] low bytes of [w], least significant first (the machine is
    little-endian). *)
Fixpoint le_bytes (n : nat) (w : Z) : list byte :=
  match n with
  | O => []
  | S n' => byte_of w :: le_bytes n' (w / 256)
  end.

Fixpoint le_value (bs : list byte) : Z :=
  match bs with
  | [] => 0
  | b :: rest => byte_val b + 256 * le_value rest
  end.

(** The memory image of a [std::vector<uint32_t>]. *)
Definition bytes_of_words (words : list Z) : list byte :=
  flat_map (le_bytes 4) words.

(** The [uint32_t] words held by a byte buffer; bytes after the last whole
    word are dropped. *)
Fixpoint words_of_bytes (bs : list byte) : list Z :=
  match bs with
  | b0 :: b1 :: b2 :: b3 :: rest => le_value [b0; b1; b2; b3] :: words_of_bytes rest
  | _ => []
  end.

(** ** CRC-32 *)

Module Crc32.

(** Modelled from the spec: the polynomial of [computeCRC32]
    ([util/Crc32.hpp] is not among the sources); the spec names the IEEE
    802.3 polynomial [0xEDB88320], reflected. *)
Definition POLY : Z := 0xEDB88320.

(** Modelled from the spec: one shift of the reflected CRC register of
    [computeCRC32]. *)
Definition crc_bit (c : Z) : Z :=
  if Z.odd c then Z.lxor (Z.shiftr c 1) POLY else Z.shiftr c 1.

(** Modelled from the spec: the register of [computeCRC32] after one more
    byte. *)
Definition crc_byte (c : Z) (b : byte) : Z :=
  Nat.iter 8 crc_bit (Z.lxor c (byte_val b)).

(** Modelled from the spec: [computeCRC32] of [util/Crc32.hpp], which is not
    among the sources.  The spec gives it as the standard CRC-32: IEEE 802.3
    polynomial [0xEDB88320], reflected, initial value [0xFFFFFFFF], final XOR
    [0xFFFFFFFF], over the serialized bytes. *)
Definition computeCRC32 (data : list byte) : Z :=
  Z.lxor (fold_left crc_byte data 0xFFFFFFFF) 0xFFFFFFFF.

End Crc32.

(** ** Proof snapshots: [ProofSet::save] and [ProofSet::load] *)

(** What can go wrong when a file is written: the open fails, or the file
    takes only the first [n] bytes sent to it (disk full). *)
Inductive write_fault : Type :=
  | NoFault
  | OpenFails
  | ShortWrite (n : nat).

(** A [std::ofstream] keeps what it is sent in a buffer, which it writes to
    the file when the stream is closed or destroyed; one [write] of [chunk]
    bytes or more goes to the file at once, behind what the buffer holds
    ([basic_filebuf::xsputn] of libstdc++). *)
Definition chunk : nat := 1024.

Module Store.

(** The data members of [ProofSet]. *)
Record proof_set : Type := {
  E : Z;
  power : Z;
  points : list Z
}.

(** The constructor. *)
Definition new (exponent proofLevel : Z) : proof_set :=
  {| E := exponent; power := proofLevel;
     points := Schedule.ProofSet exponent proofLevel |}.

(** The proof directory [<E>/proof]: the file named by the decimal of [k] is
    the entry at key [k]. *)
Abbreviation directory := (gmap Z (list byte)).

Definition shouldCheckpoint (ps : proof_set) (iter : Z) : bool :=
  Schedule.isInPoints (E ps) (power ps) iter.

(** The bytes [save] sends to the file: the CRC, then the words. *)
Definition snapshot_image (words : list Z) : list byte :=
  le_bytes 4 (Crc32.computeCRC32 (bytes_of_words words)) ++ bytes_of_words words.

(** [ProofSet::save]: the directory it leaves, and whether it threw.
    Opening a [std::ofstream] truncates the file, so a write that goes bad
    leaves what was written before.  [file.good()] is tested after the two
    [write]s and before the stream is destroyed: it sees a failure only when
    the words, [chunk] bytes or more, went to the file at once; fewer bytes
    are still in the buffer then, [save] returns, and the destructor that
    writes them reports nothing. *)
Definition save (ps : proof_set) (fault : Z -> write_fault) (dir : directory)
    (iter : Z) (words : list Z) : directory * outcome unit :=
  if negb (shouldCheckpoint ps iter) then (dir, Ok tt)
  else
    match fault iter with
    | OpenFails => (dir, Throw (CannotCreate iter))
    | NoFault => (<[iter := snapshot_image words]> dir, Ok tt)
    | ShortWrite n =>
        (<[iter := take n (snapshot_image words)]> dir,
         if (chunk <=? length (bytes_of_words words))%nat
            && (n <? length (snapshot_image words))%nat
         then Throw (WriteError iter) else Ok tt)
    end.

(** [ProofSet::load]. *)
Definition load (ps : proof_set) (dir : directory) (iter : Z) : outcome (list Z) :=
  if negb (shouldCheckpoint ps iter) then Throw (NotCheckpoint iter)
  else
    match dir !! iter with
    | None => Throw (CannotOpen iter)
    | Some file =>
        if (length file <? 4)%nat then Throw (CrcReadError iter)
        else
          let crc := le_value (take 4 file) in
          let expectedWords := Codec.wordCount (E ps) in
          let size := Z.to_nat (expectedWords * 4) in
          if (length (drop 4 file) <? size)%nat then Throw (DataReadError iter)
          else
            let words := words_of_bytes (take size (drop 4 file)) in
            let computedCrc := Crc32.computeCRC32 (bytes_of_words words) in
            if negb (crc =? computedCrc) then Throw (CrcMismatch iter)
            else Ok words
    end.

(** The reading contract: a non-checkpoint is refused; a file that starts
    with four CRC bytes and [4 * ceil(E/32)] data bytes is accepted exactly
    when the CRC of the data bytes is the stored one, whatever follows; and
    changing one byte of that prefix of an accepted file gets it refused. *)
Definition load_ok (ps : proof_set) : Prop :=
  let n := Z.to_nat (4 * ((E ps + 31) / 32)) in
  (forall dir iter,
     shouldCheckpoint ps iter = false -> load ps dir iter = Throw (NotCheckpoint iter))
  /\ (forall dir iter crc data trailing,
        shouldCheckpoint ps iter = true ->
        dir !! iter = Some (crc ++ data ++ trailing) ->
        length crc = 4%nat -> length data = n ->
        load ps dir iter =
          if le_value crc =? Crc32.computeCRC32 data
          then Ok (words_of_bytes data) else Throw (CrcMismatch iter))
  /\ (forall dir iter file words i b,
        load ps dir iter = Ok words ->
        dir !! iter = Some file ->
        (i < 4 + n)%nat -> file !! i <> Some b ->
        load ps (<[iter := <[i := b]> file]> dir) iter = Throw (CrcMismatch iter)).

(** [ProofSet::fileExists]. *)
Definition fileExists (dir : directory) (k : Z) : bool :=
  bool_decide (is_Some (dir !! k)).

(** The loop of [isValidTo] over the points still to visit: it stops at the
    first point beyond [limitK], and fails on a point below [E] that has no
    file. *)
Fixpoint valid_from (e : Z) (dir : directory) (limitK : Z) (pts : list Z) : bool :=
  match pts with
  | [] => true
  | point :: rest =>
      if point >? limitK then true
      else if (point <? e) && negb (fileExists dir point) then false
      else valid_from e dir limitK rest
  end.

(** [ProofSet::isValidTo]. *)
Definition isValidTo (ps : proof_set) (dir : directory) (limitK : Z) : bool :=
  valid_from (E ps) dir limitK (points ps).

End Store.

(** ** Proof builder: [ProofSet::computeProof] *)

Module Builder.

(** Modelled from the spec: the value [Proof::hashWords] returns
    ([io/Sha3Hash.h] and the header of [Proof] are not among the sources);
    the spec has a SHA3-256 digest as four 64-bit limbs. *)
Definition digest : Type := Z * Z * Z * Z.

(** [hash[0]], stored in a [uint64_t]. *)
Definition low64 (h : digest) : Z := let '(h0, _, _, _) := h in u64 h0.

(** The [Proof] aggregate, as [computeProof] builds it:
    [Proof{E, std::move(B), std::move(middles)}]. *)
Record Proof : Type := {
  E : Z;
  B : list Z;
  middles : list (list Z)
}.

(** [v[i]] and [v[i] = a] on a vector; outside it the access is undefined. *)
Definition at_index {A : Type} (v : list A) (i : Z) : outcome A :=
  match v !! Z.to_nat i with
  | Some a => Ok a
  | None => Undefined
  end.

Definition set_index {A : Type} (v : list A) (i : Z) (a : A) : outcome (list A) :=
  if (Z.to_nat i <? length v)%nat then Ok (<[Z.to_nat i := a]> v) else Undefined.

Definition of_option {A : Type} (o : option A) : outcome A :=
  match o with
  | Some a => Ok a
  | None => Undefined
  end.

Section WithHash.

(** The two overloads of [Proof::hashWords] ([io/Sha3Hash.h] is not among the
    sources): [hashWords E B] and [hashWords_chain E hash levelResult]. *)
Variable hashWords : Z -> list Z -> digest.
Variable hashWords_chain : Z -> digest -> list Z -> digest.

(** [for (i = 0; i < levelBuffers; ++i) bufferPool[i] = 0;] with [n] turns
    left. *)
Fixpoint clear (n : nat) (i : Z) (bufferPool : list Z) : outcome (list Z) :=
  match n with
  | O => Ok bufferPool
  | S n' =>
      bufferPool ← set_index bufferPool i 0;
      clear n' (u32 (i + 1)) bufferPool
  end.

(** [for (k = 0; i & (1u << k); ++k)]: apply the hashes of the previous
    levels.  The state is [(bufferPool, bufIndex)].  [i] is below [2^31], so
    the test fails before [k] reaches 32 and the fuel is never spent. *)
Fixpoint apply_hashes (fuel : nat) (E p i k : Z) (hashes : list Z)
    (st : list Z * Z) : outcome (list Z * Z) :=
  if Z.land i (u32 (Z.shiftl 1 k)) =? 0 then Ok st
  else
    match fuel with
    | O => Undefined
    | S fuel' =>
        let '(bufferPool, bufIndex) := st in
        if bufIndex <? 2 then
          apply_hashes fuel' E p i (u32 (k + 1)) hashes st
        else
          let bufIndex := u32 (bufIndex - 1) in
          h ← at_index hashes (u32 (p - 1 - k));
          a ← at_index bufferPool (u32 (bufIndex - 1));
          temp ← of_option (Mersenne.mersennePowMod a h E);
          b ← at_index bufferPool bufIndex;
          let result := temp * b in
          bufferPool ← set_index bufferPool (u32 (bufIndex - 1))
                                 (Mersenne.mersenneReduce result E);
          bufferPool ← set_index bufferPool bufIndex 0;
          apply_hashes fuel' E p i (u32 (k + 1)) hashes (bufferPool, bufIndex)
    end.

(** The body of the loop over [i] at level [p]. *)
Definition level_body (ps : Store.proof_set) (dir : Store.directory)
    (p s i : Z) (hashes : list Z) (st : list Z * Z) : outcome (list Z * Z) :=
  let '(bufferPool, bufIndex) := st in
  let checkpointIndex := u32 (s * (i * 2 + 1) - 1) in
  if checkpointIndex >=? Z.of_nat (length (Store.points ps)) then Ok st
  else
    iteration ← at_index (Store.points ps) checkpointIndex;
    if (iteration >? Store.E ps) || negb (Store.shouldCheckpoint ps iteration) then Ok st
    else
      w ← Store.load ps dir iteration;
      bufferPool ← set_index bufferPool bufIndex (Codec.convertToGMP w);
      let bufIndex := u32 (bufIndex + 1) in
      apply_hashes 33 (Store.E ps) p i 0 hashes (bufferPool, bufIndex).

(** [for (i = 0; i < levelBuffers; ++i)] with [n] turns left. *)
Fixpoint level_loop (n : nat) (ps : Store.proof_set) (dir : Store.directory)
    (p s i : Z) (hashes : list Z) (st : list Z * Z) : outcome (list Z * Z) :=
  match n with
  | O => Ok st
  | S n' =>
      st ← level_body ps dir p s i hashes st;
      level_loop n' ps dir p s (u32 (i + 1)) hashes st
  end.

(** The state carried from level to level: [middles], [hashes], [hash] and
    [bufferPool]. *)
Definition builder_state : Type := list (list Z) * list Z * digest * list Z.

(** The body of the loop over [p]. *)
Definition level (ps : Store.proof_set) (dir : Store.directory) (p : Z)
    (st : builder_state) : outcome builder_state :=
  let '(middles, hashes, hash, bufferPool) := st in
  let s := u32 (Z.shiftl 1 (u32 (Store.power ps - p - 1))) in
  let levelBuffers := u32 (Z.shiftl 1 p) in
  bufferPool ← clear (Z.to_nat levelBuffers) 0 bufferPool;
  '(bufferPool, bufIndex) ← level_loop (Z.to_nat levelBuffers) ps dir p s 0 hashes
                              (bufferPool, 0);
  slot0 ← at_index bufferPool 0;
  levelResult ← Codec.convertFromGMP (Store.E ps) slot0;
  match levelResult with
  | [] => Throw (ReadZero p)
  | _ :: _ =>
      let middles := middles ++ [levelResult] in
      let hash := hashWords_chain (Store.E ps) hash levelResult in
      let newHash := low64 hash in
      let hashes := hashes ++ [newHash] in
      Ok (middles, hashes, hash, bufferPool)
  end.

(** [for (p = 0; p < power; ++p)] with [n] turns left. *)
Fixpoint levels (n : nat) (ps : Store.proof_set) (dir : Store.directory)
    (p : Z) (st : builder_state) : outcome builder_state :=
  match n with
  | O => Ok st
  | S n' =>
      st ← level ps dir p st;
      levels n' ps dir (u32 (p + 1)) st
  end.

(** [ProofSet::computeProof]. *)
Definition computeProof (ps : Store.proof_set) (dir : Store.directory) : outcome Proof :=
  B ← Store.load ps dir (Store.E ps);
  let hash := hashWords (Store.E ps) B in
  let maxBuffers := u32 (Z.shiftl 1 (Store.power ps)) in
  let bufferPool := replicate (Z.to_nat maxBuffers) 0 in
  '(middles, _, _, _) ← levels (Z.to_nat (Store.power ps)) ps dir 0
                          ([], [], hash, bufferPool);
  Ok {| E := Store.E ps; B := B; middles := middles |}.

End WithHash.

(** A proof directory for exponent 127 and power 2 in which every checkpoint
    (32, 64, 96 and 127) holds the zero residue under its correct CRC. *)
Definition zero_words : list Z := [0; 0; 0; 0].

Definition zero_snapshots : Store.directory :=
  <[32 := Store.snapshot_image zero_words]>
    (<[64 := Store.snapshot_image zero_words]>
       (<[96 := Store.snapshot_image zero_words]>
          {[127 := Store.snapshot_image zero_words]})).

End Builder.

(** ** Backup manager: [BackupManager::loadState] and [::saveState] *)

Module Backup.

(** The data members of [BackupManager] that the two functions use (the
    OpenCL queue is left out: reading the device buffer is an argument of
    [saveState]). *)
Record manager : Type := {
  vectorSize_ : Z;
  savePath_ : string;
  exponent_ : Z;
  mode_ : string;
  b1_ : Z;
  b2_ : Z;
  mersFilename_ : string;
  loopFilename_ : string;
  exponentFilename_ : string;
  hqFilename_ : string;
  qFilename_ : string;
  loop2Filename_ : string
}.

(** [std::to_string] of an unsigned number. *)
Definition to_string (z : Z) : string := NilZero.string_of_uint (N.to_uint (Z.to_N z)).

(** The constructor. *)
Definition new (vectorSize : Z) (savePath : string) (exponent : Z) (mode : string)
    (b1 b2 : Z) : manager :=
  let savePath := if String.eqb savePath "" then "."%string else savePath in
  let base := to_string exponent +:+ mode in
  let base := if b1 >? 0 then to_string exponent +:+ mode +:+ to_string b1 else base in
  let base2 := to_string exponent +:+ mode +:+ to_string b1 +:+ "_" +:+ to_string b2 in
  {| vectorSize_ := vectorSize; savePath_ := savePath; exponent_ := exponent;
     mode_ := mode; b1_ := b1; b2_ := b2;
     mersFilename_ := savePath +:+ "/" +:+ base +:+ ".mers";
     loopFilename_ := savePath +:+ "/" +:+ base +:+ ".loop";
     exponentFilename_ := savePath +:+ "/" +:+ base +:+ ".exponent";
     hqFilename_ := if b2 >? 0 then savePath +:+ "/" +:+ base2 +:+ ".hq" else "";
     qFilename_ := if b2 >? 0 then savePath +:+ "/" +:+ base2 +:+ ".q" else "";
     loop2Filename_ := if b2 >? 0 then savePath +:+ "/" +:+ base2 +:+ ".loop2" else "" |}.

(** The files, by name. *)
Abbreviation files := (gmap string (list byte)).

(** What [loadState] and [saveState] print, in
    the order in which it happens. *)
Inductive event : Type :=
  | LookingForLoop            (* Looking for loop file at ... *)
  | Resuming (resume : Z)     (* Resuming from iteration ... *)
  | LoadedState               (* Loaded state from ... *)
  | WarnMersOpen              (* Warning: could not open mers file ... *)
  | FreshState                (* No valid loop file, initializing fresh state *)
  | StateSaved                (* State saved to ... *)
  | ErrSavingState            (* Error saving state to ... *)
  | LoopSaved                 (* Loop iteration saved to ... *)
  | ErrSavingLoop             (* Error saving loop state to ... *)
  | ExponentSaved             (* Saved exponent to ... *)
  | ErrSavingExponent.        (* Error saving exponent to ... *)

(** *** Reading a [uint64_t] with [operator>>] *)

Definition is_space (b : byte) : bool :=
  let v := byte_val b in (v =? 32) || ((9 <=? v) && (v <=? 13)).

Definition digit_of (b : byte) : option Z :=
  let v := byte_val b in
  if (48 <=? v) && (v <=? 57) then Some (v - 48) else None.

Fixpoint skip_space (bs : list byte) : list byte :=
  match bs with
  | b :: rest => if is_space b then skip_space rest else bs
  | [] => []
  end.

(** The digits at the front of [bs]; [None] when there is none. *)
Fixpoint read_digits (bs : list byte) (acc : Z) (seen : bool) : option Z :=
  match bs with
  | b :: rest =>
      match digit_of b with
      | Some d => read_digits rest (10 * acc + d) true
      | None => if seen then Some acc else None
      end
  | [] => if seen then Some acc else None
  end.

(** [stream >> value] for a [uint64_t]: leading white space is skipped, a
    sign is accepted (a minus negates modulo [2^64], as [strtoull] does), and
    the extraction fails when there is no digit or the number does not fit. *)
Definition extract_uint64 (bs : list byte) : option Z :=
  let bs := skip_space bs in
  let '(negative, bs) :=
    match bs with
    | b :: rest =>
        if byte_val b =? 45 then (true, rest)
        else if byte_val b =? 43 then (false, rest)
        else (false, bs)
    | [] => (false, [])
    end in
  match read_digits bs 0 false with
  | Some v => if v <? 2 ^ 64 then Some (if negative then u64 (- v) else v) else None
  | None => None
  end.

(** [loopIn >> resume] on the loop file; a file that cannot be opened gives a
    stream on which every extraction fails. *)
Definition read_loop (bm : manager) (fs : files) : option Z :=
  match fs !! loopFilename_ bm with
  | Some content => extract_uint64 content
  | None => None
  end.

(** *** The memory image of a [std::vector<uint64_t>] *)

Definition bytes_of_u64s (x : list Z) : list byte := flat_map (le_bytes 8) x.

Fixpoint u64s_of_bytes (bs : list byte) : list Z :=
  match bs with
  | b0 :: b1 :: b2 :: b3 :: b4 :: b5 :: b6 :: b7 :: rest =>
      le_value [b0; b1; b2; b3; b4; b5; b6; b7] :: u64s_of_bytes rest
  | _ => []
  end.

(** [in.read(x.data(), x.size() * 8)]: the bytes the file has, up to the size
    of [x], replace the front of the image of [x]. *)
Definition read_into (content : list byte) (x : list Z) : list Z :=
  let image := bytes_of_u64s x in
  let got := take (length image) content in
  u64s_of_bytes (got ++ drop (length got) image).

(** The [else] branch of [loadState]: [x.assign(x.size(), 0)], then
    [x[0] = (mode_ == "prp") ? 3 : 4], which is undefined on an empty
    vector. *)
Definition fresh_start (bm : manager) (x : list Z)
    : outcome (list Z * Z * list event) :=
  match x with
  | [] => Undefined
  | _ :: _ =>
      Ok (<[0%nat := if String.eqb (mode_ bm) "prp" then 3 else 4]>
            (replicate (length x) 0),
          0, [LookingForLoop; FreshState])
  end.

(** [BackupManager::loadState]: the vector [x] it leaves, the index it
    returns and what it prints. *)
Definition loadState (bm : manager) (fs : files) (x : list Z)
    : outcome (list Z * Z * list event) :=
  match read_loop bm fs with
  | Some resume =>
      if resume >? 0 then
        match fs !! mersFilename_ bm with
        | Some content =>
            Ok (read_into content x, resume, [LookingForLoop; Resuming resume; LoadedState])
        | None =>
            Ok (x, resume, [LookingForLoop; Resuming resume; WarnMersOpen])
        end
      else fresh_start bm x
  | None => fresh_start bm x
  end.

(** *** Writing *)

(** Opening [file] for writing and sending [content]: the file once the
    stream is gone, and whether the stream opened. *)
Definition write_file (fault : string -> write_fault) (fs : files) (file : string)
    (content : list byte) : files * bool :=
  match fault file with
  | OpenFails => (fs, false)
  | NoFault => (<[file := content]> fs, true)
  | ShortWrite n => (<[file := take n content]> fs, true)
  end.

(** A change on the disk: [file] now holds [content]. *)
Definition effect : Type := string * list byte.

(** The files after a sequence of changes. *)
Definition replay (fs : files) (effects : list effect) : files :=
  fold_left (fun fs e => <[e.1 := e.2]> fs) effects fs.

(** Whether [std::ofstream out(file)] opens. *)
Definition opens (fault : string -> write_fault) (file : string) : bool :=
  match fault file with
  | OpenFails => false
  | _ => true
  end.

(** What the file takes of the bytes sent to it. *)
Definition landed (fault : string -> write_fault) (file : string)
    (content : list byte) : list byte :=
  match fault file with
  | ShortWrite n => take n content
  | _ => content
  end.

(** The three moments of a stream that is sent [content] in one write.  The
    open creates the file or empties it. *)
Definition at_open (fault : string -> write_fault) (file : string) : list effect :=
  if opens fault file then [(file, [])] else [].

(** [chunk] bytes or more go to the file at the write. *)
Definition at_write (fault : string -> write_fault) (file : string)
    (content : list byte) : list effect :=
  if opens fault file && (chunk <=? length content)%nat
  then [(file, landed fault file content)] else [].

(** Fewer bytes stay in the buffer until the stream is closed or destroyed. *)
Definition at_close (fault : string -> write_fault) (file : string)
    (content : list byte) : list effect :=
  if opens fault file && (0 <? length content)%nat && (length content <? chunk)%nat
  then [(file, landed fault file content)] else [].

(** [clEnqueueReadBuffer(queue_, buffer, CL_TRUE, 0, vectorSize_ * 8,
    x.data(), ...)] into [x], [vectorSize_] words of zero: a region that is
    not inside the device buffer is refused and leaves [x] as it is (the
    status is not looked at). *)
Definition read_buffer (bm : manager) (device : list Z) : list Z :=
  let n := Z.to_nat (vectorSize_ bm) in
  if (length device <? n)%nat then replicate n 0 else take n device.

(** The changes [BackupManager::saveState] makes on the disk, in order:
    [mersOut] is opened and written, [loopOut] is opened and written,
    [expOut] (mode "pm1", with an exponent) is opened, written and closed;
    at the end of the function [loopOut] is destroyed, then [mersOut] (the
    reverse of their declarations). *)
Definition saveState_effects (bm : manager) (fault : string -> write_fault)
    (device : list Z) (iter : Z) (E_ptr : option Z) : list effect :=
  let x := bytes_of_u64s (read_buffer bm device) in
  let next := list_byte_of_string (to_string (u64 (iter + 1))) in
  at_open fault (mersFilename_ bm) ++ at_write fault (mersFilename_ bm) x
  ++ at_open fault (loopFilename_ bm) ++ at_write fault (loopFilename_ bm) next
  ++ match E_ptr with
     | Some Eval =>
         if String.eqb (mode_ bm) "pm1" then
           let text := list_byte_of_string (NilZero.string_of_int (Z.to_int Eval)) in
           at_open fault (exponentFilename_ bm)
           ++ at_write fault (exponentFilename_ bm) text
           ++ at_close fault (exponentFilename_ bm) text
         else []
     | None => []
     end
  ++ at_close fault (loopFilename_ bm) next
  ++ at_close fault (mersFilename_ bm) x.

(** What [saveState] prints, in order; the spinner thread only prints. *)
Definition saveState_log (bm : manager) (fault : string -> write_fault)
    (E_ptr : option Z) : list event :=
  [if opens fault (mersFilename_ bm) then StateSaved else ErrSavingState;
   if opens fault (loopFilename_ bm) then LoopSaved else ErrSavingLoop]
  ++ match E_ptr with
     | Some _ =>
         if String.eqb (mode_ bm) "pm1" then
           [if opens fault (exponentFilename_ bm)
            then ExponentSaved else ErrSavingExponent]
         else []
     | None => []
     end.

(** [BackupManager::saveState]: the files it leaves and what it prints.  It
    returns [void] and throws nothing. *)
Definition saveState (bm : manager) (fault : string -> write_fault) (fs : files)
    (device : list Z) (iter : Z) (E_ptr : option Z) : files * list event :=
  (replay fs (saveState_effects bm fault device iter E_ptr),
   saveState_log bm fault E_ptr).

(** The fresh state: the seed in word 0, zero elsewhere. *)
Definition fresh (seed : Z) (x : list Z) : list Z :=
  seed :: replicate (length x - 1) 0.

(** The contract of [loadState] as the specification words it. *)
Definition loadState_ok (bm : manager) : Prop :=
  (forall fs x, x <> [] ->
     fs !! loopFilename_ bm = None
     \/ fs !! loopFilename_ bm = Some []
     \/ fs !! loopFilename_ bm = Some (list_byte_of_string "0") ->
     exists log, loadState bm fs x
       = Ok (fresh (if String.eqb (mode_ bm) "prp" then 3 else 4) x, 0, log))
  /\ (forall fs x resume, x <> [] ->
        read_loop bm fs = Some resume -> 0 < resume ->
        fs !! mersFilename_ bm = None ->
        exists log, loadState bm fs x
          = Ok (fresh (if String.eqb (mode_ bm) "prp" then 3 else 4) x, 0, log)
          /\ WarnMersOpen ∈ log).


(** *** [loadExponent] *)

(** [stream >> value] for an [mpz_class] on a stream with the default flags
    (decimal, white space skipped): an optional sign, then at least one
    digit, with no limit on the size.  [None] when the extraction fails,
    which leaves the value as it was. *)
Definition extract_mpz (bs : list byte) : option Z :=
  let bs := skip_space bs in
  let '(negative, bs) :=
    match bs with
    | b :: rest =>
        if byte_val b =? 45 then (true, rest)
        else if byte_val b =? 43 then (false, rest)
        else (false, bs)
    | [] => (false, [])
    end in
  match read_digits bs 0 false with
  | Some v => Some (if negative then - v else v)
  | None => None
  end.

(** [BackupManager::loadExponent]: [result] starts as 0 and is only
    overwritten by a successful extraction. *)
Definition loadExponent (bm : manager) (fs : files) : Z :=
  match fs !! exponentFilename_ bm with
  | Some content =>
      match extract_mpz content with
      | Some v => v
      | None => 0
      end
  | None => 0
  end.

(** *** [clearState] *)

(** Opening a file for reading.  The constructor leaves the three stage-2
    names empty when [b2 = 0], and the empty name names no file. *)
Definition open_in (fs : files) (file : string) : option (list byte) :=
  if String.eqb file EmptyString then None else fs !! file.

(** [if (exists(file, ec)) { remove(file, ec); std::cout << ... << printed; }]:
    the removal can fail ([stuck]), which [ec] swallows; the message is
    printed all the same. *)
Definition remove_if_exists (stuck : string -> bool) (file printed : string)
    (st : files * list string) : files * list string :=
  let '(fs, log) := st in
  if bool_decide (is_Some (open_in fs file)) then
    ((if stuck file then fs else delete file fs), log ++ [printed])
  else st.

(** [BackupManager::clearState]: the files it leaves and the file names it
    prints, in order.  The message for the [.hq] file prints [qFilename_]. *)
Definition clearState (bm : manager) (stuck : string -> bool) (fs : files)
    : files * list string :=
  let st := remove_if_exists stuck (mersFilename_ bm) (mersFilename_ bm) (fs, []) in
  let st := remove_if_exists stuck (loopFilename_ bm) (loopFilename_ bm) st in
  let st := remove_if_exists stuck (exponentFilename_ bm) (exponentFilename_ bm) st in
  let st := remove_if_exists stuck (hqFilename_ bm) (qFilename_ bm) st in
  let st := remove_if_exists stuck (qFilename_ bm) (qFilename_ bm) st in
  remove_if_exists stuck (loop2Filename_ bm) (loop2Filename_ bm) st.

(** *** Stage 2 of P-1: [saveStatePM1S2] and [loadStatePM1S2] *)

(** A device buffer ([cl_mem]) is the list of its bytes. *)

(** [std::vector<uint64_t> tmp(bytes / sizeof(uint64_t))], as bytes. *)
Definition tmp_buffer (bytes : Z) : list byte :=
  replicate (Z.to_nat (8 * (bytes / 8))) Byte.x00.

(** [tmp.data()] of a vector of no words is the null pointer. *)
Definition null_data (tmp : list byte) : bool :=
  match tmp with
  | [] => true
  | _ :: _ => false
  end.

(** [clEnqueueReadBuffer(queue_, buf, CL_TRUE, 0, bytes, tmp.data(), ...)]:
    a null host pointer and a region that is not inside the device buffer
    are refused, and the status is not looked at; otherwise [bytes] bytes go
    to the front of [tmp], which is a write outside the vector when [tmp] is
    shorter. *)
Definition enqueue_read (buf : list byte) (bytes : Z) (tmp : list byte)
    : outcome (list byte) :=
  if null_data tmp || (Z.of_nat (length buf) <? bytes) then Ok tmp
  else if Z.of_nat (length tmp) <? bytes then Undefined
  else Ok (take (Z.to_nat bytes) buf ++ drop (Z.to_nat bytes) tmp).

(** [clEnqueueWriteBuffer(queue_, buf, CL_TRUE, 0, bytes, tmp.data(), ...)]:
    the device buffer afterwards; the same calls are refused. *)
Definition enqueue_write (buf : list byte) (bytes : Z) (tmp : list byte)
    : outcome (list byte) :=
  if null_data tmp || (Z.of_nat (length buf) <? bytes) then Ok buf
  else if Z.of_nat (length tmp) <? bytes then Undefined
  else Ok (take (Z.to_nat bytes) tmp ++ drop (Z.to_nat bytes) buf).

(** [in.read(tmp.data(), bytes)]: the bytes the file has, up to [bytes],
    replace the front of [tmp]. *)
Definition stream_read (content : list byte) (bytes : Z) (tmp : list byte)
    : outcome (list byte) :=
  let got := take (Z.to_nat bytes) content in
  if (length tmp <? length got)%nat then Undefined
  else Ok (got ++ drop (length got) tmp).

(** [std::ofstream out(file, std::ios::binary);
     if (out) out.write(tmp.data(), bytes);] *)
Definition write_from (fault : string -> write_fault) (fs : files) (file : string)
    (bytes : Z) (tmp : list byte) : outcome files :=
  if String.eqb file EmptyString then Ok fs
  else
    match fault file with
    | OpenFails => Ok fs
    | _ =>
        if Z.of_nat (length tmp) <? bytes then Undefined
        else Ok (write_file fault fs file (take (Z.to_nat bytes) tmp)).1
    end.

(** [BackupManager::saveStatePM1S2]: the files it leaves. *)
Definition saveStatePM1S2 (bm : manager) (fault : string -> write_fault) (fs : files)
    (hqBuf qBuf : list byte) (idx bytes : Z) : outcome files :=
  let tmp := tmp_buffer bytes in
  tmp ← enqueue_read hqBuf bytes tmp;
  fs ← write_from fault fs (hqFilename_ bm) bytes tmp;
  tmp ← enqueue_read qBuf bytes tmp;
  fs ← write_from fault fs (qFilename_ bm) bytes tmp;
  if String.eqb (loop2Filename_ bm) EmptyString then Ok fs
  else
    Ok (write_file fault fs (loop2Filename_ bm)
          (list_byte_of_string (to_string (u64 (idx + 1))))).1.

(** [loopIn >> resume] with [resume] initialized to 0: whether the extraction
    succeeds, and the value [resume] has afterwards.  A stream that did not
    open leaves [resume] alone; a failed extraction stores 0, or the largest
    [uint64_t] when the digits read do not fit. *)
Definition extract_resume (stream : option (list byte)) : bool * Z :=
  match stream with
  | None => (false, 0)
  | Some bs =>
      let bs := skip_space bs in
      let '(negative, bs) :=
        match bs with
        | b :: rest =>
            if byte_val b =? 45 then (true, rest)
            else if byte_val b =? 43 then (false, rest)
            else (false, bs)
        | [] => (false, [])
        end in
      match read_digits bs 0 false with
      | Some v =>
          if v <? 2 ^ 64 then (true, if negative then u64 (- v) else v)
          else (false, 2 ^ 64 - 1)
      | None => (false, 0)
      end
  end.

(** One of the two restores of [loadStatePM1S2]:
    [if (in) { in.read(tmp.data(), bytes); clEnqueueWriteBuffer(..., buf, ...,
    bytes, tmp.data(), ...); }].  [tmp] is shared by both. *)
Definition restore (fs : files) (file : string) (bytes : Z)
    (st : list byte) (buf : list byte) : outcome (list byte * list byte) :=
  match open_in fs file with
  | Some content =>
      tmp ← stream_read content bytes st;
      buf ← enqueue_write buf bytes tmp;
      Ok (tmp, buf)
  | None => Ok (st, buf)
  end.

(** [BackupManager::loadStatePM1S2]: the index it returns and the two device
    buffers afterwards. *)
Definition loadStatePM1S2 (bm : manager) (fs : files) (hqBuf qBuf : list byte)
    (bytes : Z) : outcome (Z * list byte * list byte) :=
  let '(ok, resume) := extract_resume (open_in fs (loop2Filename_ bm)) in
  if ok && (resume >? 0) then
    let tmp := tmp_buffer bytes in
    '(tmp, hqBuf) ← restore fs (hqFilename_ bm) bytes tmp hqBuf;
    '(_, qBuf) ← restore fs (qFilename_ bm) bytes tmp qBuf;
    Ok (resume, hqBuf, qBuf)
  else Ok (resume, hqBuf, qBuf).

End Backup.

(** * Theorems *)

(** ** Machine integers *)

Lemma u32_range z : 0 <= u32 z < 2 ^ 32.
Proof. unfold u32. apply Z.mod_pos_bound. lia. Qed.

Lemma u32_small z : 0 <= z < 2 ^ 32 -> u32 z = z.
Proof. intros. unfold u32. apply Z.mod_small. lia. Qed.

Lemma u64_small z : 0 <= z < 2 ^ 64 -> u64 z = z.
Proof. intros. unfold u64. apply Z.mod_small. lia. Qed.

(** ** Checkpoint schedule *)

Section ScheduleFacts.
Import Schedule.

Lemma next_span_small s :
  0 <= s < 2 ^ 31 ->
  next_span s = (s + 1) / 2 /\ 0 <= next_span s < 2 ^ 31 /\ s <= 2 * next_span s <= s + 1.
Proof.
  intros Hs. unfold next_span. rewrite u32_small by lia.
  pose proof (Z.div_mod (s + 1) 2 ltac:(lia)) as Hd.
  pose proof (Z.mod_pos_bound (s + 1) 2 ltac:(lia)). lia.
Qed.

Lemma first_span_range E : 0 <= E < 2 ^ 32 -> 0 <= first_span E < 2 ^ 31.
Proof.
  intros HE. unfold first_span. pose proof (u32_range (E + 1)) as Hr.
  split; [apply Z.div_pos; lia | apply Z.div_lt_upper_bound; lia].
Qed.

Lemma first_span_odd E :
  0 <= E < 2 ^ 32 - 1 -> E mod 2 = 1 -> 2 * first_span E = E + 1.
Proof.
  intros HE Hodd. unfold first_span. rewrite u32_small by lia.
  Z.div_mod_to_equations. lia.
Qed.

Lemma sum_spans_nonneg n s : 0 <= s < 2 ^ 31 -> 0 <= sumZ (spans_from n s).
Proof.
  revert s. induction n as [|n IH]; intros s Hs; simpl; [lia|].
  destruct (next_span_small s Hs) as (_ & Hr & _).
  specialize (IH _ Hr). lia.
Qed.

Lemma sum_spans_zero n : sumZ (spans_from n 0) = 0.
Proof.
  induction n as [|n IH]; simpl; [reflexivity|].
  change (next_span 0) with 0. lia.
Qed.

Lemma hit_bounds n s d :
  0 <= s < 2 ^ 31 -> hit n s d -> 0 <= d <= sumZ (spans_from n s).
Proof.
  revert s d. induction n as [|n IH]; intros s d Hs Hh; simpl in *; [tauto|].
  destruct (next_span_small s Hs) as (_ & Hr & _).
  pose proof (sum_spans_nonneg n _ Hr) as Hnn.
  destruct Hh as [-> | [Hh | Hh]].
  - lia.
  - specialize (IH _ _ Hr Hh). lia.
  - specialize (IH _ _ Hr Hh). lia.
Qed.

Lemma dominated_intro n s :
  0 <= s < 2 ^ 31 -> sumZ (spans_from n s) <= 2 * s -> dominated n s.
Proof.
  revert s. induction n as [|n IH]; intros s Hs Hsum; simpl in *; [exact I|].
  destruct (next_span_small s Hs) as (_ & Hr & Hhalf).
  split; [lia|]. apply IH; [exact Hr | lia].
Qed.

Lemma length_grow n s pts :
  length (grow n s pts) = (2 ^ n * length pts)%nat.
Proof.
  revert s pts. induction n as [|n IH]; intros s pts; simpl; [lia|].
  rewrite IH. unfold push_level. rewrite length_app, length_map. lia.
Qed.

(** [grow] only appends, and what it appends are the points reached from an
    old point by a non-empty selection of spans. *)
Lemma grow_spec n : forall s pts,
  0 <= s < 2 ^ 31 ->
  Forall (fun p => 0 <= p /\ p + sumZ (spans_from n s) < 2 ^ 32) pts ->
  exists added,
    grow n s pts = pts ++ added
    /\ forall v, v ∈ added <-> exists p, p ∈ pts /\ hit n s (v - p).
Proof.
  induction n as [|n IH]; intros s pts Hs Hpts; simpl.
  - exists []. split; [by rewrite app_nil_r|].
    intros v. split; [by intros ?%elem_of_nil | by intros (? & _ & [])].
  - destruct (next_span_small s Hs) as (_ & Hr & _).
    pose proof (sum_spans_nonneg n _ Hr) as Hnn.
    assert (Hmap : map (fun p => u32 (p + s)) pts = map (fun p => p + s) pts).
    { apply map_ext_in. intros p Hp%list_elem_of_In.
      rewrite Forall_forall in Hpts. specialize (Hpts _ Hp). simpl in Hpts.
      apply u32_small. lia. }
    destruct (IH (next_span s) (push_level s pts) Hr) as (added & Hg & Hin).
    { unfold push_level. rewrite Hmap. apply Forall_app. split.
      - eapply Forall_impl; [exact Hpts|]. simpl. intros p ?. lia.
      - apply Forall_forall. intros v (p & -> & Hp)%list_elem_of_fmap.
        rewrite Forall_forall in Hpts. specialize (Hpts _ Hp). simpl in Hpts.
        lia. }
    exists (map (fun p => p + s) pts ++ added). split.
    { rewrite Hg. unfold push_level. rewrite Hmap. by rewrite <- app_assoc. }
    intros v. rewrite elem_of_app, Hin. unfold push_level. rewrite Hmap. split.
    + intros [(p & -> & Hp)%list_elem_of_fmap | (p & Hp & Hh)].
      * exists p. split; [done|]. left. lia.
      * apply elem_of_app in Hp as [Hp | (q & -> & Hq)%list_elem_of_fmap].
        -- exists p. split; [done|]. right. by left.
        -- exists q. split; [done|]. right. right.
           by replace (v - q - s) with (v - (q + s)) by lia.
    + intros (p & Hp & [Hv | [Hh | Hh]]).
      * left. apply list_elem_of_fmap. exists p. split; [lia | done].
      * right. exists p. split; [apply elem_of_app; by left | done].
      * right. exists (p + s). split.
        -- apply elem_of_app. right. apply list_elem_of_fmap. by exists p.
        -- by replace (v - (p + s)) with (v - p - s) by lia.
Qed.

(** The walk of [isInPoints] finds exactly the selections of spans, as long
    as every span dominates the ones after it. *)
Lemma walk_hit n : forall s start k,
  0 <= s < 2 ^ 31 -> 0 <= start ->
  start + sumZ (spans_from n s) < 2 ^ 32 ->
  dominated n s ->
  (walk n s start k = true <-> hit n s (k - start)).
Proof.
  induction n as [|n IH]; intros s start k Hs Hstart Hfit Hdom; simpl in *.
  - split; [discriminate | tauto].
  - destruct Hdom as [Htail Hdom].
    destruct (next_span_small s Hs) as (_ & Hr & _).
    pose proof (sum_spans_nonneg n _ Hr) as Hnn.
    rewrite u32_small by lia.
    destruct (Z.gtb_spec k (start + s)) as [Hgt | Hle].
    + rewrite IH by (auto; lia). split.
      * intros Hh. right. right. by replace (k - start - s) with (k - (start + s)) by lia.
      * intros [Heq | [Hh | Hh]].
        -- lia.
        -- apply hit_bounds in Hh; [lia | exact Hr].
        -- by replace (k - (start + s)) with (k - start - s) by lia.
    + destruct (Z.eqb_spec k (start + s)) as [Heq | Hne].
      * split; [intros _; left; lia | done].
      * rewrite IH by (auto; lia). split.
        -- intros Hh. right. by left.
        -- intros [Heq | [Hh | Hh]]; [lia | done |].
           apply hit_bounds in Hh; [lia | exact Hr].
Qed.

Lemma sorted_last_max (l : list Z) v b :
  StronglySorted Z.le l -> v ∈ l -> last l = Some b -> v <= b.
Proof.
  induction 1 as [|x l Hs IH Hall]; intros Hv Hlast.
  - by apply elem_of_nil in Hv.
  - destruct l as [|y l'].
    + simpl in Hlast. apply list_elem_of_singleton in Hv. injection Hlast as <-. lia.
    + change (last (x :: y :: l')) with (last (y :: l')) in Hlast.
      apply elem_of_cons in Hv as [-> | Hv]; [|by apply IH].
      rewrite Forall_forall in Hall.
      apply Hall. by apply last_Some_elem_of.
Qed.

(** Membership in the sorted array: [E] itself, or a selection of spans. *)
Lemma sorted_points_spec E power :
  0 <= E < 2 ^ 32 -> sumZ (spans E power) <= E ->
  forall v, v ∈ sorted_points E power <->
            v = E \/ hit (Z.to_nat power) (first_span E) v.
Proof.
  intros HE Hsum v. unfold sorted_points, spans in *.
  pose proof (first_span_range E HE) as Hs0.
  destruct (grow_spec (Z.to_nat power) (first_span E) [0] Hs0) as (added & Hg & Hin).
  { apply Forall_singleton. lia. }
  rewrite merge_sort_Permutation, Hg. simpl.
  rewrite elem_of_cons, Hin. split.
  - intros [-> | (p & ->%list_elem_of_singleton & Hh)]; [by left | right].
    by rewrite Z.sub_0_r in Hh.
  - intros [-> | Hh]; [by left | right].
    exists 0. split; [apply list_elem_of_singleton; done | by rewrite Z.sub_0_r].
Qed.

Lemma spans_dominated E power :
  0 <= E < 2 ^ 32 -> E mod 2 = 1 -> sumZ (spans E power) <= E ->
  dominated (Z.to_nat power) (first_span E).
Proof.
  intros HE Hodd Hsum. unfold spans in Hsum.
  apply dominated_intro; [by apply first_span_range|].
  destruct (Z.eq_dec E (2 ^ 32 - 1)) as [-> | Hne].
  - change (first_span (2 ^ 32 - 1)) with 0. rewrite sum_spans_zero. lia.
  - rewrite first_span_odd by lia. lia.
Qed.

End ScheduleFacts.

(** C1 (the code departs from the claim): exponent 17 with power 4 is odd and
    in range, yet the constructor's own [assert(points.back() == E)] fails,
    so that a build that keeps assertions aborts.  The spans are 9, 5, 3, 2,
    which sum to 19: the array (of a build without assertions) is
    [2; 3; 5; 5; 7; 8; 9; 10; 11; 12; 14; 14; 16; 17; 17; 19] followed by the
    guard.  Its largest element is 19, not [E]; 5, 14 and 17 are there
    twice; and it holds 10 = 5 + 3 + 2 although [isInPoints 17 4 10] is
    false. *)
Theorem schedule_small_exponent_fails :
  17 mod 2 = 1 /\ 2 <= 4 <= 12
  /\ Schedule.spans 17 4 = [9; 5; 3; 2]
  /\ Schedule.ProofSet 17 4
     = [2; 3; 5; 5; 7; 8; 9; 10; 11; 12; 14; 14; 16; 17; 17; 19; UINT32_MAX]
  /\ last (Schedule.sorted_points 17 4) = Some 19
  /\ Schedule.ctor_asserts 17 4 = false
  /\ Schedule.isInPoints 17 4 10 = false
  /\ ~ Schedule.schedule_ok 17 4.
Proof.
  split; [reflexivity|]. split; [lia|].
  do 5 (split; [vm_compute; reflexivity|]).
  intros (body & _ & _ & _ & _ & Hmem).
  destruct (Hmem 10 ltac:(lia)) as [_ Hback].
  assert (Schedule.isInPoints 17 4 10 = true) as Habs.
  { apply Hback. vm_compute. do 7 apply list_elem_of_further. apply list_elem_of_here. }
  vm_compute in Habs. discriminate.
Qed.

(** Where the spans sum to exactly [E] the asserts hold, and [E] is in the
    array twice: exponent 127 with power 7 has the spans 64, 32, 16, 8, 4, 2,
    1, and its array ends in [126; 127; 127] before the guard. *)
Lemma schedule_127_7_repeats_E :
  Schedule.sumZ (Schedule.spans 127 7) = 127
  /\ Schedule.ctor_asserts 127 7 = true
  /\ Z.of_nat (length (Schedule.sorted_points 127 7)) = 2 ^ 7
  /\ drop 125 (Schedule.sorted_points 127 7) = [126; 127; 127].
Proof. repeat split; vm_compute; reflexivity. Qed.

Lemma sorted_points_length E power :
  0 <= power -> Z.of_nat (length (Schedule.sorted_points E power)) = 2 ^ power.
Proof.
  intros Hpow. unfold Schedule.sorted_points. rewrite merge_sort_Permutation.
  assert (Hlen : forall l : list Z, length (Schedule.set_front E l) = length l)
    by (by intros [|? ?]).
  rewrite Hlen, length_grow. simpl length. rewrite Nat.mul_1_r.
  rewrite Nat2Z.inj_pow, Z2Nat.id by lia. reflexivity.
Qed.

(** No point exceeds [E], and [E] is there: it is the last one. *)
Lemma sorted_points_last E power :
  0 <= E < 2 ^ 32 -> Schedule.sumZ (Schedule.spans E power) <= E ->
  last (Schedule.sorted_points E power) = Some E.
Proof.
  intros HE Hsum. pose proof (sorted_points_spec E power HE Hsum) as Hspec.
  assert (HE_in : E ∈ Schedule.sorted_points E power) by (apply Hspec; by left).
  destruct (last (Schedule.sorted_points E power)) as [b|] eqn:Hlast.
  - f_equal. apply Z.le_antisymm.
    + pose proof (last_Some_elem_of _ _ Hlast) as Hb.
      apply Hspec in Hb as [-> | Hh]; [lia|].
      apply hit_bounds in Hh; [|by apply first_span_range].
      unfold Schedule.spans in Hsum. lia.
    + eapply sorted_last_max; [|exact HE_in|exact Hlast].
      apply StronglySorted_merge_sort; [intros x y z; lia | intros x y; lia].
  - apply last_None in Hlast. rewrite Hlast in HE_in. by apply elem_of_nil in HE_in.
Qed.

(** [isInPoints] accepts [E] and the selections of spans, nothing else. *)
Lemma isInPoints_spec E power k :
  0 <= E < 2 ^ 32 -> E mod 2 = 1 -> Schedule.sumZ (Schedule.spans E power) <= E ->
  Schedule.isInPoints E power k = true
  <-> k = E \/ Schedule.hit (Z.to_nat power) (Schedule.first_span E) k.
Proof.
  intros HE Hodd Hsum. unfold Schedule.isInPoints.
  destruct (Z.eqb_spec k E) as [-> | Hne]; [split; [by left | done]|].
  rewrite walk_hit;
    [| by apply first_span_range | lia | unfold Schedule.spans in Hsum; lia
     | by apply spans_dominated].
  rewrite Z.sub_0_r. split; [by right | by intros [? | ?]].
Qed.

(** Then the assertions of the constructor hold: a debug build runs the
    constructor to its end. *)
Lemma ctor_asserts_hold (E power : Z) :
  0 <= E < 2 ^ 32 -> E mod 2 = 1 -> 0 <= power < 32 ->
  Schedule.sumZ (Schedule.spans E power) <= E ->
  Schedule.ctor_asserts E power = true.
Proof.
  intros HE Hodd Hpow Hsum.
  pose proof (sorted_points_spec E power HE Hsum) as Hspec.
  unfold Schedule.ctor_asserts.
  rewrite sorted_points_last, sorted_points_length, Z.eqb_refl by (done || lia).
  rewrite Z.shiftl_1_l, u32_small, Z.eqb_refl.
  2:{ split; [apply Z.pow_nonneg; lia | apply Z.pow_lt_mono_r; lia]. }
  cbn [andb]. apply forallb_forall. intros p Hp%list_elem_of_In.
  destruct (Z.gtb_spec p E) as [? | Hle]; [done|]. cbn [orb].
  apply isInPoints_spec; [done..|].
  unfold Schedule.ProofSet in Hp. rewrite Hodd in Hp. cbn [Z.eqb negb] in Hp.
  apply elem_of_app in Hp as [Hp | Hp%list_elem_of_singleton].
  - by apply Hspec.
  - left. unfold UINT32_MAX in Hp. lia.
Qed.

(** A closed form that is enough for the spans to sum to at most [E]. *)
Lemma sum_spans_bound n : forall s c,
  0 <= s < 2 ^ 31 -> 0 <= c -> c * 2 ^ Z.of_nat n < s ->
  Schedule.sumZ (Schedule.spans_from (S n) s) <= 2 * s + Z.of_nat n - (c + 1).
Proof.
  induction n as [|n IH]; intros s c Hs Hc Hlt.
  - simpl in *. lia.
  - destruct (next_span_small s Hs) as (_ & Hr & Hhalf).
    rewrite Nat2Z.inj_succ, Z.pow_succ_r in Hlt by lia.
    specialize (IH (Schedule.next_span s) c Hr Hc ltac:(nia)).
    change (Schedule.sumZ (Schedule.spans_from (S (S n)) s))
      with (s + Schedule.sumZ (Schedule.spans_from (S n) (Schedule.next_span s))).
    lia.
Qed.

Lemma sum_spans_large_exponent E power :
  0 <= E < 2 ^ 32 - 1 -> E mod 2 = 1 -> 1 <= power ->
  (power - 1) * 2 ^ power <= E ->
  Schedule.sumZ (Schedule.spans E power) <= E.
Proof.
  intros HE Hodd Hpow Hbig. unfold Schedule.spans.
  pose proof (first_span_range E ltac:(lia)) as Hs0.
  pose proof (first_span_odd E HE Hodd) as H2.
  destruct (Z.to_nat power) as [|n] eqn:Hn; [lia|].
  assert (power = Z.of_nat n + 1) as -> by lia.
  pose proof (sum_spans_bound n (Schedule.first_span E) (Z.of_nat n) Hs0 ltac:(lia)) as Hb.
  rewrite Z.pow_add_r, Z.pow_1_r in Hbig by lia.
  replace (Z.of_nat n + 1 - 1) with (Z.of_nat n) in Hbig by lia.
  assert (0 < 2 ^ Z.of_nat n) by (apply Z.pow_pos_nonneg; lia).
  specialize (Hb ltac:(nia)). lia.
Qed.

(** The integers [0, 1, ..., n - 1]. *)
Lemma elem_of_upto (n : nat) k : k ∈ map Z.of_nat (seq 0 n) <-> 0 <= k < Z.of_nat n.
Proof.
  rewrite list_elem_of_fmap. split.
  - intros (i & -> & Hi%list_elem_of_In%in_seq). lia.
  - intros Hk. exists (Z.to_nat k). split; [lia|].
    apply list_elem_of_In, in_seq. lia.
Qed.

(** C7 (as stated, refuted): the points for exponent 521 and power 3 are not
    65, 130, 196, 261, 326, 391, 456, 521; already 65 is rejected by
    [isInPoints]. *)
Lemma schedule_521_not_floor_multiples :
  ~ (Schedule.sorted_points 521 3 = [65; 130; 196; 261; 326; 391; 456; 521]
     /\ forall k, 0 <= k <= 521 ->
          (Schedule.isInPoints 521 3 k = true
           <-> k ∈ [65; 130; 196; 261; 326; 391; 456; 521])).
Proof.
  intros [Hpts _]. vm_compute in Hpts. discriminate.
Qed.

(** C7 (amended): for exponent 521 and power 3 the constructor leaves exactly
    66, 131, 197, 261, 327, 392, 458, 521 (then the guard element), and over
    [[0, 521]] [isInPoints] accepts exactly these eight values. *)
Theorem schedule_521_3 :
  Schedule.ProofSet 521 3 = [66; 131; 197; 261; 327; 392; 458; 521; UINT32_MAX]
  /\ Schedule.sorted_points 521 3 = [66; 131; 197; 261; 327; 392; 458; 521]
  /\ forall k, 0 <= k <= 521 ->
       (Schedule.isInPoints 521 3 k = true
        <-> k ∈ [66; 131; 197; 261; 327; 392; 458; 521]).
Proof.
  split; [vm_compute; reflexivity|]. split; [vm_compute; reflexivity|].
  intros k Hk.
  assert (Hall : forallb (fun k =>
            Bool.eqb (Schedule.isInPoints 521 3 k)
                     (bool_decide (k ∈ [66; 131; 197; 261; 327; 392; 458; 521])))
            (map Z.of_nat (seq 0 522)) = true) by (vm_compute; reflexivity).
  rewrite forallb_forall in Hall.
  specialize (Hall k). rewrite <- list_elem_of_In, elem_of_upto in Hall.
  specialize (Hall ltac:(lia)). apply eqb_prop in Hall. rewrite Hall.
  apply bool_decide_eq_true.
Qed.

(** ** Mersenne arithmetic *)

Section MersenneFacts.
Import Mersenne.

Lemma M_nonneg E : 0 <= E -> 0 <= M E.
Proof. intros. unfold M. pose proof (Z.pow_pos_nonneg 2 E). lia. Qed.

(** Numbers below [2^(E+1)] take the early return. *)
Lemma sizeinbase2_le x n : 0 <= x -> 1 <= n -> (mpz_sizeinbase2 x <= n <-> x < 2 ^ n).
Proof.
  intros Hx Hn. unfold mpz_sizeinbase2. destruct (Z.eqb_spec x 0) as [-> | Hne].
  - pose proof (Z.pow_pos_nonneg 2 n). lia.
  - rewrite Z.abs_eq by lia. rewrite (Z.log2_lt_pow2 x n) by lia. lia.
Qed.

Lemma mersenneReduce_early x E :
  0 <= x -> 0 <= E < 2 ^ 32 - 1 -> x < 2 ^ (E + 1) -> mersenneReduce x E = x.
Proof.
  intros Hx HE Hlt. unfold mersenneReduce. rewrite u32_small by lia.
  apply (sizeinbase2_le x (E + 1)) in Hlt; [|lia|lia].
  destruct (Z.leb_spec (mpz_sizeinbase2 x) (E + 1)); [reflexivity | lia].
Qed.

(** The fold of the high part onto the low part. *)
Lemma fold_congruent x E :
  0 <= E -> (Z.land x (Z.shiftl 1 E - 1) + Z.shiftr x E) mod M E = x mod M E.
Proof.
  intros HE. rewrite Z.shiftl_1_l.
  replace (2 ^ E - 1) with (Z.ones E) by (rewrite Z.ones_equiv; lia).
  rewrite Z.land_ones, Z.shiftr_div_pow2 by lia.
  unfold M. pose proof (Z.pow_pos_nonneg 2 E ltac:(lia) HE) as Hpos.
  rewrite (Z.div_mod x (2 ^ E)) at 3 by lia.
  replace (2 ^ E * (x / 2 ^ E) + x mod 2 ^ E)
    with (x mod 2 ^ E + x / 2 ^ E + (x / 2 ^ E) * (2 ^ E - 1)) by lia.
  symmetry. apply Z_mod_plus_full.
Qed.

(** Whatever branch is taken, the value stays in its residue class. *)
Lemma mersenneReduce_congruent x E :
  0 <= E -> mersenneReduce x E mod M E = x mod M E.
Proof.
  intros HE. unfold mersenneReduce.
  destruct (_ <=? _); [reflexivity|]. cbv zeta.
  destruct (_ >=? _).
  - rewrite <- (fold_congruent x E HE).
    replace (Z.shiftl 1 E - 1) with (M E) by (unfold M; rewrite Z.shiftl_1_l; lia).
    rewrite <- (Z_mod_plus_full (_ - M E) 1 (M E)). f_equal. lia.
  - apply fold_congruent, HE.
Qed.

Lemma mersenneReduce_nonneg x E : 0 <= x -> 0 <= E -> 0 <= mersenneReduce x E.
Proof.
  intros Hx HE. unfold mersenneReduce.
  destruct (_ <=? _); [exact Hx|]. cbv zeta.
  assert (0 <= Z.land x (Z.shiftl 1 E - 1)) by (apply Z.land_nonneg; by left).
  assert (0 <= Z.shiftr x E) by (by apply Z.shiftr_nonneg).
  destruct (Z.geb_spec (Z.land x (Z.shiftl 1 E - 1) + Z.shiftr x E) (Z.shiftl 1 E - 1)); lia.
Qed.

(** Past the early return, one fold and one subtraction bring a value below
    [2^(2E)] down to at most [2^E - 1] (the modulus itself included). *)
Lemma mersenneReduce_fold_bound x E :
  0 <= E < 2 ^ 32 - 1 -> 2 ^ (E + 1) <= x < 2 ^ (2 * E) ->
  0 <= mersenneReduce x E <= M E.
Proof.
  intros HE Hx. unfold mersenneReduce. rewrite u32_small by lia.
  assert (0 < 2 ^ E) as Hpos by (apply Z.pow_pos_nonneg; lia).
  assert (0 <= x) as Hx0 by (pose proof (Z.pow_pos_nonneg 2 (E + 1)); lia).
  destruct (Z.leb_spec (mpz_sizeinbase2 x) (E + 1)) as [Hsmall | _].
  { apply (sizeinbase2_le x (E + 1)) in Hsmall; lia. }
  cbv zeta. rewrite Z.shiftl_1_l.
  replace (2 ^ E - 1) with (Z.ones E) by (rewrite Z.ones_equiv; lia).
  rewrite Z.land_ones, Z.shiftr_div_pow2 by lia. rewrite Z.ones_equiv. unfold M.
  pose proof (Z.mod_pos_bound x (2 ^ E) Hpos) as Hlo.
  assert (0 <= x / 2 ^ E < 2 ^ E) as Hhi.
  { split; [apply Z.div_pos; lia|]. apply Z.div_lt_upper_bound; [lia|].
    rewrite <- Z.pow_add_r by lia. replace (E + E) with (2 * E) by lia. lia. }
  destruct (Z.geb_spec (x mod 2 ^ E + x / 2 ^ E) (Z.pred (2 ^ E))); lia.
Qed.

Lemma pow_congruent a b n e :
  0 <= e -> a mod n = b mod n -> a ^ e mod n = b ^ e mod n.
Proof.
  intros He Hab. revert e He. apply natlike_ind; [reflexivity|].
  intros e He IH. rewrite !Z.pow_succ_r by exact He.
  rewrite (Zmult_mod a), (Zmult_mod b). by rewrite Hab, IH.
Qed.

Lemma mul_congruent a a' b b' n :
  a mod n = a' mod n -> b mod n = b' mod n -> (a * b) mod n = (a' * b') mod n.
Proof. intros Ha Hb. rewrite (Zmult_mod a), (Zmult_mod a'). by rewrite Ha, Hb. Qed.

(** The loop runs out of exponent before it runs out of fuel. *)
Lemma pow_loop_terminates fuel : forall E exp result square,
  0 <= exp < 2 ^ Z.of_nat fuel ->
  exists r, pow_loop fuel E (exp, result, square) = Some r.
Proof.
  induction fuel as [|fuel IH]; intros E exp result square Hexp.
  - simpl in *. assert (exp = 0) as -> by lia. by eexists.
  - cbn [pow_loop]. destruct (Z.gtb_spec exp 0) as [Hpos | Hz]; [|by eexists].
    cbn [pow_step]. apply IH. rewrite Z.shiftr_div_pow2 by lia.
    rewrite Nat2Z.inj_succ, Z.pow_succ_r in Hexp by lia.
    change (2 ^ 1) with 2. Z.div_mod_to_equations. lia.
Qed.

(** Loop invariant: [result * square ^ exp] keeps its residue class. *)
Lemma pow_loop_congruent fuel : forall E exp result square r,
  0 <= E -> 0 <= exp ->
  pow_loop fuel E (exp, result, square) = Some r ->
  r mod M E = (result * square ^ exp) mod M E.
Proof.
  induction fuel as [|fuel IH]; intros E exp result square r HE Hexp Hrun;
    cbn [pow_loop] in Hrun; destruct (Z.gtb_spec exp 0) as [Hpos | Hz].
  - discriminate.
  - injection Hrun as <-. assert (exp = 0) as -> by lia. by rewrite Z.mul_1_r.
  - cbn [pow_step] in Hrun. apply IH in Hrun; [|exact HE|apply Z.shiftr_nonneg; lia].
    rewrite Hrun. rewrite Z.shiftr_div_pow2 by lia. change (2 ^ 1) with 2.
    set (h := exp / 2).
    assert (Hsq : (if h >? 0 then mersenneReduce (square * square) E else square) ^ h
                  mod M E = (square * square) ^ h mod M E).
    { destruct (Z.gtb_spec h 0) as [Hh | Hh].
      - apply pow_congruent; [lia|]. by apply mersenneReduce_congruent.
      - assert (h = 0) as -> by (subst h; Z.div_mod_to_equations; lia). reflexivity. }
    assert (Hexp2 : exp = 2 * h + (if Z.odd exp then 1 else 0)).
    { subst h. rewrite (Z.div_mod exp 2) at 1 by lia. rewrite Zmod_odd. reflexivity. }
    assert (0 <= h) by (subst h; apply Z.div_pos; lia).
    destruct (Z.odd exp); rewrite Hexp2.
    + rewrite Z.pow_add_r, Z.pow_1_r, Z.pow_mul_r by lia.
      replace (square ^ 2) with (square * square) by lia.
      replace (result * ((square * square) ^ h * square))
        with (result * square * (square * square) ^ h) by lia.
      apply mul_congruent; [by apply mersenneReduce_congruent | exact Hsq].
    + rewrite Z.add_0_r, Z.pow_mul_r by lia.
      replace (square ^ 2) with (square * square) by lia.
      apply mul_congruent; [reflexivity | exact Hsq].
  - injection Hrun as <-. assert (exp = 0) as -> by lia. by rewrite Z.mul_1_r.
Qed.

(** [mersennePowMod] returns, for every 64-bit exponent. *)
Lemma mersennePowMod_total base exp E :
  0 <= exp < 2 ^ 64 -> exists r, mersennePowMod base exp E = Some r.
Proof.
  intros Hexp. unfold mersennePowMod.
  destruct (exp =? 0); [by eexists|]. destruct (exp =? 1); [by eexists|].
  by apply pow_loop_terminates.
Qed.

(** What [mersennePowMod] returns is in the residue class of [base ^ exp]. *)
Lemma mersennePowMod_congruent base exp E r :
  0 <= E -> 0 <= exp ->
  mersennePowMod base exp E = Some r -> r mod M E = base ^ exp mod M E.
Proof.
  intros HE Hexp. unfold mersennePowMod.
  destruct (Z.eqb_spec exp 0) as [-> | H0]; [by intros [= <-]|].
  destruct (Z.eqb_spec exp 1) as [-> | H1].
  - intros [= <-]. rewrite Z.pow_1_r. by apply mersenneReduce_congruent.
  - intros Hrun%pow_loop_congruent; [|exact HE|exact Hexp].
    rewrite Hrun, Z.mul_1_l. apply pow_congruent; [exact Hexp|].
    by apply mersenneReduce_congruent.
Qed.

Lemma mersennePowMod_0 base E : mersennePowMod base 0 E = Some 1.
Proof. reflexivity. Qed.

Lemma mersennePowMod_1 base E : mersennePowMod base 1 E = Some (mersenneReduce base E).
Proof. reflexivity. Qed.

End MersenneFacts.

(** C2 (the code departs from the claim): [2^127] has 128 bits, which is not
    more than [E + 1 = 128], so [mersenneReduce] hands it back unchanged; the
    claim asks for 1, the representative below [2^127 - 1].  The same early
    return gives back [2^127 - 1] itself. *)
Theorem mersenneReduce_not_canonical :
  Mersenne.mersenneReduce (2 ^ 127) 127 = 2 ^ 127
  /\ 2 ^ 127 mod Mersenne.M 127 = 1
  /\ ~ (Mersenne.mersenneReduce (2 ^ 127) 127 < Mersenne.M 127)
  /\ Mersenne.mersenneReduce (2 ^ 127 - 1) 127 = Mersenne.M 127.
Proof.
  split; [vm_compute; reflexivity|]. split; [vm_compute; reflexivity|].
  split; [vm_compute; discriminate | vm_compute; reflexivity].
Qed.

(** C3 (the code departs from the claim): for [E = 3] the square [9] has four
    bits and is never reduced, so [mersennePowMod 3 2 3] is 9 where
    [3^2 mod 7] is 2; for [E = 127] and base [2^64 - 1] the result exceeds
    the reference by exactly [2^127 - 1]. *)
Theorem mersennePowMod_not_canonical :
  Mersenne.mersennePowMod 3 2 3 = Some 9
  /\ 3 ^ 2 mod Mersenne.M 3 = 2
  /\ Mersenne.mersennePowMod (2 ^ 64 - 1) 2 127 = Some (2 ^ 128 - 2 ^ 65 + 1)
  /\ (2 ^ 64 - 1) ^ 2 mod Mersenne.M 127 = 2 ^ 127 - 2 ^ 65 + 2
  /\ Mersenne.mersennePowMod (2 ^ 127) 1 127 = Some (2 ^ 127).
Proof.
  repeat split; vm_compute; reflexivity.
Qed.

(** ** Residue codec *)

Section CodecFacts.
Import Codec.

Lemma limbs_length n v : length (limbs n v) = n.
Proof. revert v. induction n as [|n IH]; intros v; simpl; [done | by rewrite IH]. Qed.

Lemma limbs_range n v : Forall (fun w => 0 <= w < 2 ^ 32) (limbs n v).
Proof.
  revert v. induction n as [|n IH]; intros v; simpl; constructor; [|apply IH].
  apply Z.mod_pos_bound. lia.
Qed.

(** Reading back [n] words of [v] gives [v] modulo [2^(32 n)]. *)
Lemma convertToGMP_limbs n : forall v,
  convertToGMP (limbs n v) = v mod 2 ^ (32 * Z.of_nat n).
Proof.
  induction n as [|n IH]; intros v.
  - simpl. by rewrite Z.mod_1_r.
  - cbn [limbs convertToGMP]. rewrite IH.
    replace (32 * Z.of_nat (S n)) with (32 + 32 * Z.of_nat n) by lia.
    rewrite Z.pow_add_r by lia. symmetry. apply Z.rem_mul_r; [lia|].
    apply Z.pow_pos_nonneg; lia.
Qed.

Lemma convertToGMP_padding words n :
  convertToGMP (words ++ replicate n 0) = convertToGMP words.
Proof.
  induction words as [|w words IH]; simpl.
  - induction n as [|n IHn]; simpl; lia.
  - by rewrite IH.
Qed.

(** [limb_count] words are enough to hold the value. *)
Lemma limb_count_fits x : 0 <= x -> 0 <= limb_count x /\ x < 2 ^ (32 * limb_count x).
Proof.
  intros Hx. unfold limb_count. destruct (Z.eqb_spec x 0) as [-> | Hne].
  - simpl. lia.
  - rewrite Z.abs_eq by lia. pose proof (Z.log2_nonneg x) as Hl.
    split; [Z.div_mod_to_equations; lia|].
    apply Z.log2_lt_pow2; [lia|]. Z.div_mod_to_equations. lia.
Qed.

(** A value below [2^E] never needs more than [ceil(E/32)] words. *)
Lemma limb_count_bound x E :
  1 <= E -> 0 <= x < 2 ^ E -> limb_count x <= (E + 31) / 32.
Proof.
  intros HE Hx. unfold limb_count. destruct (Z.eqb_spec x 0) as [-> | Hne].
  - Z.div_mod_to_equations. lia.
  - rewrite Z.abs_eq by lia.
    assert (Z.log2 x < E) by (apply Z.log2_lt_pow2; lia).
    pose proof (Z.log2_nonneg x). Z.div_mod_to_equations. lia.
Qed.

Lemma wordCount_ceil E : 0 <= E <= 2 ^ 32 - 32 -> wordCount E = (E + 31) / 32.
Proof. intros HE. unfold wordCount. by rewrite u32_small by lia. Qed.

End CodecFacts.

(** C5 (the code departs from the claim): [4294967291 = 2^32 - 5] is a prime
    exponent that fits [uint32_t]; there [E + 31], a [uint32_t] sum, wraps to
    26, so the vector has no words where [ceil(E/32)] is [2^27]: zero and one
    are both converted to the empty vector, which reads back as zero. *)
Theorem codec_wraps_near_uint32_max :
  1 <= 4294967291 < 2 ^ 32
  /\ Codec.wordCount 4294967291 = 0
  /\ (4294967291 + 31) / 32 = 134217728
  /\ Codec.convertFromGMP 4294967291 0 = Ok []
  /\ Codec.convertFromGMP 4294967291 1 = Ok []
  /\ Codec.convertToGMP [] = 0
  /\ ~ Codec.codec_ok 4294967291.
Proof.
  split; [lia|]. do 5 (split; [vm_compute; reflexivity|]).
  intros Hok. destruct (Hok 0) as (words & Hconv & Hlen & _).
  { split; [lia|]. apply Z.pow_pos_nonneg; lia. }
  vm_compute in Hconv. injection Hconv as <-. vm_compute in Hlen. discriminate.
Qed.

(** Below the wrap the codec property holds: for every exponent
    [1 <= E <= 2^32 - 32] and every [0 <= x < 2^E], [convertFromGMP] returns
    exactly [ceil(E/32)] 32-bit words, zero beyond the words [x] needs, and
    [convertToGMP] reads them back as [x]. *)
Lemma codec_round_trip (E : Z) :
  1 <= E <= 2 ^ 32 - 32 -> Codec.codec_ok E.
Proof.
  intros HE x Hx. unfold Codec.convertFromGMP, Codec.mpz_export.
  rewrite limbs_length, wordCount_ceil by lia.
  destruct (limb_count_fits x ltac:(lia)) as [Hc0 Hfit].
  pose proof (limb_count_bound x E ltac:(lia) Hx) as Hbound.
  rewrite Z2Nat.id by lia. rewrite Z.abs_eq by lia.
  destruct (Z.eqb_spec ((E + 31) / 32) 0) as [H0 | _];
    [Z.div_mod_to_equations; lia|].
  destruct (Z.leb_spec (Codec.limb_count x) ((E + 31) / 32)) as [_ | ?]; [|lia].
  eexists. split; [reflexivity|]. split; [|split; [|split]].
  - rewrite length_app, limbs_length, length_replicate. lia.
  - apply Forall_app. split; [apply limbs_range|].
    apply Forall_replicate. lia.
  - intros i w Hlook Hi. rewrite lookup_app_r in Hlook by (rewrite limbs_length; lia).
    by apply lookup_replicate in Hlook as [-> _].
  - rewrite convertToGMP_padding, convertToGMP_limbs, Z2Nat.id by lia.
    apply Z.mod_small. lia.
Qed.

(** The codec of exponent 127. *)
Lemma codec_round_trip_witness : Codec.codec_ok 127.
Proof. apply (codec_round_trip 127). lia. Defined.

(** The spec's scenario S3: [2^127 - 1] and its four words. *)
Example codec_mersenne_127 :
  Codec.convertToGMP [0xFFFFFFFF; 0xFFFFFFFF; 0xFFFFFFFF; 0x7FFFFFFF] = 2 ^ 127 - 1
  /\ Codec.convertFromGMP 127 (2 ^ 127 - 1)
     = Ok [0xFFFFFFFF; 0xFFFFFFFF; 0xFFFFFFFF; 0x7FFFFFFF].
Proof. split; vm_compute; reflexivity. Qed.

(** ** Bytes *)

Lemma byte_val_range b : 0 <= byte_val b < 256.
Proof. unfold byte_val. pose proof (Byte.to_N_bounded b). lia. Qed.

Lemma byte_of_val b : byte_of (byte_val b) = b.
Proof.
  unfold byte_of. rewrite Z.mod_small by apply byte_val_range.
  unfold byte_val. by rewrite N2Z.id, Byte.of_to_N.
Qed.

Lemma byte_val_inj b b' : byte_val b = byte_val b' -> b = b'.
Proof. intros H. by rewrite <- (byte_of_val b), <- (byte_of_val b'), H. Qed.

Lemma byte_val_of z : byte_val (byte_of z) = z mod 256.
Proof.
  unfold byte_of, byte_val.
  pose proof (Z.mod_pos_bound z 256 ltac:(lia)) as Hr.
  destruct (Byte.of_N (Z.to_N (z mod 256))) as [b|] eqn:Hb.
  - apply Byte.to_of_N in Hb. rewrite Hb. lia.
  - apply Byte.of_N_None_iff in Hb. lia.
Qed.

Lemma le_bytes_length n w : length (le_bytes n w) = n.
Proof. revert w. induction n as [|n IH]; intros w; simpl; [done | by rewrite IH]. Qed.

Lemma le_value_bytes n : forall w, le_value (le_bytes n w) = w mod 256 ^ Z.of_nat n.
Proof.
  induction n as [|n IH]; intros w.
  - simpl. by rewrite Z.mod_1_r.
  - cbn [le_bytes le_value]. rewrite IH, byte_val_of.
    rewrite Nat2Z.inj_succ, Z.pow_succ_r by lia.
    symmetry. apply Z.rem_mul_r; [lia|]. apply Z.pow_pos_nonneg; lia.
Qed.

Lemma le_bytes_value bs : le_bytes (length bs) (le_value bs) = bs.
Proof.
  induction bs as [|b bs IH]; [done|]. cbn [length le_bytes le_value].
  pose proof (byte_val_range b) as Hb. f_equal.
  - apply byte_val_inj. rewrite byte_val_of, (Z.mul_comm 256), Z_mod_plus_full.
    by apply Z.mod_small.
  - replace ((byte_val b + 256 * le_value bs) / 256) with (le_value bs); [exact IH|].
    rewrite (Z.mul_comm 256), Z.div_add by lia.
    rewrite Z.div_small by lia. lia.
Qed.

Lemma le_value_inj bs bs' :
  length bs = length bs' -> le_value bs = le_value bs' -> bs = bs'.
Proof.
  intros Hlen Hval. rewrite <- (le_bytes_value bs), <- (le_bytes_value bs').
  by rewrite Hlen, Hval.
Qed.

(** Reading the words of a buffer and laying them out again is the
    identity on whole words. *)
Lemma bytes_of_words_of_bytes n : forall bs,
  length bs = (4 * n)%nat -> bytes_of_words (words_of_bytes bs) = bs.
Proof.
  induction n as [|n IH]; intros bs Hlen.
  - by destruct bs.
  - destruct bs as [|b0 [|b1 [|b2 [|b3 rest]]]]; simpl in Hlen; try lia.
    cbn [words_of_bytes bytes_of_words flat_map].
    change (bytes_of_words ?w) with (flat_map (le_bytes 4) w) in IH.
    rewrite IH by lia.
    pose proof (le_bytes_value [b0; b1; b2; b3]) as Hword. cbn [length] in Hword.
    by rewrite Hword.
Qed.

(** ** CRC-32 detects a changed byte *)

Section Crc32Facts.
Import Crc32.

Lemma lxor_bound a b n :
  0 <= n -> 0 <= a < 2 ^ n -> 0 <= b < 2 ^ n -> 0 <= Z.lxor a b < 2 ^ n.
Proof.
  intros Hn Ha Hb.
  assert (0 <= Z.lxor a b) as Hnn by (apply Z.lxor_nonneg; lia).
  split; [exact Hnn|].
  destruct (Z.eq_dec (Z.lxor a b) 0) as [-> | Hne]; [lia|].
  assert (0 < n) as Hpos.
  { destruct (Z.eq_dec n 0) as [-> | ?]; [|lia].
    assert (a = 0) as -> by lia. assert (b = 0) as -> by lia. by destruct Hne. }
  apply Z.log2_lt_pow2; [lia|].
  pose proof (Z.log2_lxor a b ltac:(lia) ltac:(lia)) as Hl.
  assert (Z.log2 a < n).
  { destruct (Z.eq_dec a 0) as [-> | ?]; [simpl; lia|]. apply Z.log2_lt_pow2; lia. }
  assert (Z.log2 b < n).
  { destruct (Z.eq_dec b 0) as [-> | ?]; [simpl; lia|]. apply Z.log2_lt_pow2; lia. }
  lia.
Qed.

Lemma lxor_cancel_r a b c : Z.lxor a c = Z.lxor b c -> a = b.
Proof.
  intros H. apply (f_equal (fun z => Z.lxor z c)) in H.
  by rewrite !Z.lxor_assoc, !Z.lxor_nilpotent, !Z.lxor_0_r in H.
Qed.

Lemma lxor_cancel_l a b c : Z.lxor c a = Z.lxor c b -> a = b.
Proof. rewrite !(Z.lxor_comm c). apply lxor_cancel_r. Qed.

Lemma shiftr1_bound c : 0 <= c < 2 ^ 32 -> 0 <= Z.shiftr c 1 < 2 ^ 31.
Proof.
  intros Hc. rewrite Z.shiftr_div_pow2 by lia. change (2 ^ 1) with 2.
  Z.div_mod_to_equations. lia.
Qed.

Lemma crc_bit_range c : 0 <= c < 2 ^ 32 -> 0 <= crc_bit c < 2 ^ 32.
Proof.
  intros Hc. unfold crc_bit. pose proof (shiftr1_bound c Hc).
  destruct (Z.odd c); [|lia].
  apply lxor_bound; [lia | lia | unfold POLY; lia].
Qed.

(** The top bit of the shifted register tells whether the polynomial was
    folded in, that is, what the bit shifted out was. *)
Lemma crc_bit_top c : 0 <= c < 2 ^ 32 -> Z.testbit (crc_bit c) 31 = Z.odd c.
Proof.
  intros Hc. unfold crc_bit. pose proof (shiftr1_bound c Hc) as Hs.
  assert (Z.testbit (Z.shiftr c 1) 31 = false) as Hhigh.
  { destruct (Z.eq_dec (Z.shiftr c 1) 0) as [-> | Hne]; [apply Z.bits_0|].
    apply Z.bits_above_log2; [lia|]. apply Z.log2_lt_pow2; lia. }
  destruct (Z.odd c); [|exact Hhigh].
  rewrite Z.lxor_spec, Hhigh. reflexivity.
Qed.

Lemma crc_bit_inj c c' :
  0 <= c < 2 ^ 32 -> 0 <= c' < 2 ^ 32 -> crc_bit c = crc_bit c' -> c = c'.
Proof.
  intros Hc Hc' Heq.
  assert (Z.odd c = Z.odd c') as Hodd.
  { rewrite <- (crc_bit_top c Hc), <- (crc_bit_top c' Hc'). by rewrite Heq. }
  assert (Z.shiftr c 1 = Z.shiftr c' 1) as Hhalf.
  { unfold crc_bit in Heq. rewrite <- Hodd in Heq.
    destruct (Z.odd c); [by apply lxor_cancel_r in Heq | exact Heq]. }
  rewrite (Z.div2_odd c), (Z.div2_odd c'), !Z.div2_spec. by rewrite Hodd, Hhalf.
Qed.

Lemma iter_crc_bit_range n c :
  0 <= c < 2 ^ 32 -> 0 <= Nat.iter n crc_bit c < 2 ^ 32.
Proof. intros Hc. induction n as [|n IH]; [exact Hc | by apply crc_bit_range]. Qed.

Lemma iter_crc_bit_inj n c c' :
  0 <= c < 2 ^ 32 -> 0 <= c' < 2 ^ 32 ->
  Nat.iter n crc_bit c = Nat.iter n crc_bit c' -> c = c'.
Proof.
  intros Hc Hc'. induction n as [|n IH]; [done|]. simpl. intros Heq.
  apply IH. by apply crc_bit_inj; [apply iter_crc_bit_range.. |].
Qed.

Lemma byte_in_register b : 0 <= byte_val b < 2 ^ 32.
Proof. pose proof (byte_val_range b). lia. Qed.

Lemma crc_byte_range c b : 0 <= c < 2 ^ 32 -> 0 <= crc_byte c b < 2 ^ 32.
Proof.
  intros Hc. apply iter_crc_bit_range, lxor_bound; [lia | exact Hc | apply byte_in_register].
Qed.

Lemma crc_byte_inj_state c c' b :
  0 <= c < 2 ^ 32 -> 0 <= c' < 2 ^ 32 -> crc_byte c b = crc_byte c' b -> c = c'.
Proof.
  intros Hc Hc' Heq. pose proof (byte_in_register b).
  apply iter_crc_bit_inj in Heq; [|by apply lxor_bound..].
  by apply lxor_cancel_r in Heq.
Qed.

Lemma crc_byte_inj_byte c b b' :
  0 <= c < 2 ^ 32 -> crc_byte c b = crc_byte c b' -> b = b'.
Proof.
  intros Hc Heq. pose proof (byte_in_register b). pose proof (byte_in_register b').
  apply iter_crc_bit_inj in Heq; [|by apply lxor_bound..].
  by apply lxor_cancel_l, byte_val_inj in Heq.
Qed.

Lemma fold_crc_range data : forall c,
  0 <= c < 2 ^ 32 -> 0 <= fold_left crc_byte data c < 2 ^ 32.
Proof.
  induction data as [|b data IH]; intros c Hc; simpl; [exact Hc|].
  by apply IH, crc_byte_range.
Qed.

Lemma fold_crc_inj data : forall c c',
  0 <= c < 2 ^ 32 -> 0 <= c' < 2 ^ 32 ->
  fold_left crc_byte data c = fold_left crc_byte data c' -> c = c'.
Proof.
  induction data as [|b data IH]; intros c c' Hc Hc'; simpl; [done|].
  intros Heq. apply IH in Heq; [|by apply crc_byte_range..].
  by apply crc_byte_inj_state in Heq.
Qed.

(** Two buffers that differ in exactly one byte have different CRCs. *)
Lemma computeCRC32_one_byte pre b b' post :
  b <> b' -> computeCRC32 (pre ++ b :: post) <> computeCRC32 (pre ++ b' :: post).
Proof.
  intros Hne Heq. unfold computeCRC32 in Heq. apply lxor_cancel_r in Heq.
  rewrite !fold_left_app in Heq. simpl in Heq.
  assert (0 <= fold_left crc_byte pre 4294967295 < 2 ^ 32) as Hpre
    by (apply fold_crc_range; lia).
  apply fold_crc_inj in Heq; [|by apply crc_byte_range..].
  by apply crc_byte_inj_byte in Heq.
Qed.

Lemma computeCRC32_range data : 0 <= computeCRC32 data < 2 ^ 32.
Proof.
  unfold computeCRC32. apply lxor_bound; [lia | apply fold_crc_range; lia | lia].
Qed.

End Crc32Facts.

Example computeCRC32_check_value :
  Crc32.computeCRC32 (map byte_of [49; 50; 51; 52; 53; 54; 55; 56; 57]) = 0xCBF43926.
Proof. vm_compute. reflexivity. Qed.

(** ** Proof snapshots *)

Section StoreFacts.
Import Store.

(** The number of data bytes [load] asks for. *)
Let size (ps : proof_set) : nat := Z.to_nat (Codec.wordCount (E ps) * 4).

Lemma wordCount_nonneg e : 0 <= Codec.wordCount e.
Proof. unfold Codec.wordCount. pose proof (u32_range (e + 31)). apply Z.div_pos; lia. Qed.

Lemma size_whole_words ps : size ps = (4 * Z.to_nat (Codec.wordCount (E ps)))%nat.
Proof. unfold size. pose proof (wordCount_nonneg (E ps)). lia. Qed.

(** [load] on a checkpoint whose file is long enough. *)
Lemma load_eval ps (dir : directory) iter file :
  shouldCheckpoint ps iter = true -> dir !! iter = Some file ->
  (4 + size ps <= length file)%nat ->
  load ps dir iter =
    if le_value (take 4 file) =? Crc32.computeCRC32 (take (size ps) (drop 4 file))
    then Ok (words_of_bytes (take (size ps) (drop 4 file)))
    else Throw (CrcMismatch iter).
Proof.
  intros Hck Hfile Hlen. unfold load. rewrite Hck, Hfile. cbn [negb]. fold (size ps).
  destruct (Nat.ltb_spec (length file) 4) as [? | _]; [lia|].
  destruct (Nat.ltb_spec (length (drop 4 file)) (size ps)) as [Hshort | _].
  { rewrite length_drop in Hshort. lia. }
  rewrite (bytes_of_words_of_bytes (Z.to_nat (Codec.wordCount (E ps)))).
  - by destruct (_ =? _).
  - rewrite length_take_le, size_whole_words; [done|]. rewrite length_drop. lia.
Qed.

(** What an accepted file looks like. *)
Lemma load_inv ps (dir : directory) iter words :
  load ps dir iter = Ok words ->
  shouldCheckpoint ps iter = true
  /\ exists file,
       dir !! iter = Some file
       /\ (4 + size ps <= length file)%nat
       /\ le_value (take 4 file) = Crc32.computeCRC32 (take (size ps) (drop 4 file))
       /\ words = words_of_bytes (take (size ps) (drop 4 file)).
Proof.
  intros Hload. assert (shouldCheckpoint ps iter = true) as Hck.
  { unfold load in Hload. by destruct (shouldCheckpoint ps iter). }
  split; [exact Hck|].
  destruct (dir !! iter) as [file|] eqn:Hfile.
  2:{ unfold load in Hload. by rewrite Hck, Hfile in Hload. }
  exists file. split; [done|].
  assert (4 + size ps <= length file)%nat as Hlen.
  { unfold load in Hload. rewrite Hck, Hfile in Hload. cbn [negb] in Hload.
    fold (size ps) in Hload.
    destruct (Nat.ltb_spec (length file) 4) as [? | ?]; [done|].
    destruct (Nat.ltb_spec (length (drop 4 file)) (size ps)) as [? | Hge]; [done|].
    rewrite length_drop in Hge. lia. }
  split; [exact Hlen|].
  rewrite (load_eval ps dir iter file Hck Hfile Hlen) in Hload.
  destruct (Z.eqb_spec (le_value (take 4 file))
              (Crc32.computeCRC32 (take (size ps) (drop 4 file)))) as [Heq | ?]; [|done].
  split; [exact Heq | by injection Hload].
Qed.

(** One changed byte among the CRC and the data gets the file refused. *)
Lemma load_rejects_changed_byte ps (dir : directory) iter file words i b :
  load ps dir iter = Ok words -> dir !! iter = Some file ->
  (i < 4 + size ps)%nat -> file !! i <> Some b ->
  load ps (<[iter := <[i := b]> file]> dir) iter = Throw (CrcMismatch iter).
Proof.
  intros Hload Hfile Hi Hne.
  destruct (load_inv _ _ _ _ Hload) as (Hck & file' & Hfile' & Hlen & Hcrc & _).
  assert (file' = file) as -> by congruence.
  destruct (lookup_lt_is_Some_2 file i ltac:(lia)) as [b0 Hb0].
  assert (b0 <> b) as Hbb by congruence.
  rewrite (load_eval ps _ iter (<[i := b]> file) Hck);
    [| by rewrite lookup_insert_eq | by rewrite length_insert].
  destruct (Z.eqb_spec (le_value (take 4 (<[i:=b]> file)))
              (Crc32.computeCRC32 (take (size ps) (drop 4 (<[i:=b]> file)))))
    as [Heq | ?]; [exfalso | done].
  destruct (Nat.lt_ge_cases i 4) as [Hcrcfield | Hdata].
  - (* a byte of the stored CRC *)
    rewrite take_insert_lt, drop_insert_lt in Heq by lia.
    rewrite <- Hcrc in Heq. apply le_value_inj in Heq; [|by rewrite length_insert].
    apply (f_equal (fun l => l !! i)) in Heq.
    rewrite list_lookup_insert_eq in Heq by (rewrite length_take; lia).
    rewrite lookup_take_lt in Heq by lia. congruence.
  - (* a byte of the data *)
    rewrite take_insert_ge, drop_insert_ge, take_insert_lt in Heq by lia.
    rewrite Hcrc in Heq.
    assert (take (size ps) (drop 4 file) !! (i - 4)%nat = Some b0) as Hlook.
    { rewrite lookup_take_lt by lia. rewrite lookup_drop. rewrite <- Hb0. f_equal. lia. }
    rewrite insert_take_drop in Heq by (eapply lookup_lt_Some; exact Hlook).
    rewrite <- (take_drop_middle _ _ _ Hlook) in Heq at 1.
    by apply computeCRC32_one_byte in Heq.
Qed.

End StoreFacts.

(** C6 (the code departs from the claim): for the prime exponent
    [4294967291 = 2^32 - 5] the expected word count [(E + 31) / 32], a
    [uint32_t] expression, wraps to zero where [ceil(E/32)] is [2^27]:
    [load] reads the CRC and no data at all.  A file holding nothing but the
    CRC of no data is accepted, and the byte that follows it can be changed
    without [load] noticing. *)
Theorem load_wraps_near_uint32_max :
  Codec.wordCount 4294967291 = 0
  /\ (4294967291 + 31) / 32 = 134217728
  /\ Store.load (Store.new 4294967291 2) {[ 4294967291 := Store.snapshot_image [] ]}
       4294967291 = Ok []
  /\ Store.load (Store.new 4294967291 2)
       {[ 4294967291 := Store.snapshot_image [] ++ [Byte.x00] ]} 4294967291 = Ok []
  /\ Store.load (Store.new 4294967291 2)
       {[ 4294967291 := Store.snapshot_image [] ++ [Byte.x01] ]} 4294967291 = Ok []
  /\ ~ Store.load_ok (Store.new 4294967291 2).
Proof.
  do 5 (split; [vm_compute; reflexivity|]).
  intros (_ & _ & Hchanged).
  set (file := Store.snapshot_image [] ++ [Byte.x00]).
  specialize (Hchanged {[ 4294967291 := file ]} 4294967291 file [] 4%nat Byte.x01).
  assert (Hn : (4 < 4 + Z.to_nat (4 * ((Store.E (Store.new 4294967291 2) + 31) / 32)))%nat).
  { change ((Store.E (Store.new 4294967291 2) + 31) / 32) with 134217728. lia. }
  specialize (Hchanged ltac:(vm_compute; reflexivity) ltac:(vm_compute; reflexivity)
                Hn ltac:(vm_compute; discriminate)).
  vm_compute in Hchanged. discriminate.
Qed.

(** Below the wrap the reading contract holds: for every exponent
    [0 <= E <= 2^32 - 32], [load] refuses
    an iteration that is not a checkpoint; on a file that starts with four
    CRC bytes and [4 * ceil(E/32)] data bytes it returns the words exactly
    when the CRC-32 of the data bytes equals the stored CRC and throws the
    CRC mismatch otherwise, whatever bytes follow; and changing any one byte
    among the CRC and the data of an accepted file makes [load] throw the
    CRC mismatch. *)
Lemma load_contract (ps : Store.proof_set) :
  0 <= Store.E ps <= 2 ^ 32 - 32 -> Store.load_ok ps.
Proof.
  intros HE. unfold Store.load_ok.
  assert (Hsize : Z.to_nat (4 * ((Store.E ps + 31) / 32))
                  = Z.to_nat (Codec.wordCount (Store.E ps) * 4)).
  { rewrite wordCount_ceil by lia. f_equal. lia. }
  rewrite Hsize. split; [|split].
  - intros dir iter Hck. unfold Store.load. by rewrite Hck.
  - intros dir iter crc data trailing Hck Hfile Hcrc Hdata.
    rewrite (load_eval ps dir iter _ Hck Hfile)
      by (rewrite !length_app; lia).
    rewrite (take_app_length' crc), (drop_app_length' crc) by done.
    by rewrite (take_app_length' data) by done.
  - intros dir iter file words i b. apply load_rejects_changed_byte.
Qed.

(** The reading contract of exponent 127 with power 2. *)
Lemma load_contract_witness : Store.load_ok (Store.new 127 2).
Proof. apply (load_contract (Store.new 127 2)). simpl. lia. Defined.

Lemma bytes_of_words_length words :
  length (bytes_of_words words) = (4 * length words)%nat.
Proof.
  induction words as [|w words IH]; [done|].
  unfold bytes_of_words in *. cbn [flat_map]. rewrite length_app, IH, le_bytes_length.
  simpl. lia.
Qed.

Lemma words_of_bytes_of_words words :
  Forall (fun w => 0 <= w < 2 ^ 32) words -> words_of_bytes (bytes_of_words words) = words.
Proof.
  induction 1 as [|w words Hw _ IH]; [done|].
  unfold bytes_of_words in *. cbn [flat_map].
  pose proof (le_value_bytes 4 w) as Hval.
  change (le_bytes 4 w) with
    [byte_of w; byte_of (w / 256); byte_of (w / 256 / 256);
     byte_of (w / 256 / 256 / 256)] in *.
  cbn [app words_of_bytes]. rewrite Hval, IH. f_equal.
  apply Z.mod_small. simpl. lia.
Qed.

(** What [save] writes, [load] reads back (the spec's CRC idempotence). *)
Lemma load_after_save ps (dir : Store.directory) iter words :
  Store.shouldCheckpoint ps iter = true ->
  Z.of_nat (length words) = Codec.wordCount (Store.E ps) ->
  Forall (fun w => 0 <= w < 2 ^ 32) words ->
  Store.save ps (fun _ => NoFault) dir iter words
    = (<[iter := Store.snapshot_image words]> dir, Ok tt)
  /\ Store.load ps (<[iter := Store.snapshot_image words]> dir) iter = Ok words.
Proof.
  intros Hck Hlen Hwords. split; [unfold Store.save; by rewrite Hck|].
  pose proof (bytes_of_words_length words) as Hbytes.
  rewrite (load_eval ps _ iter (Store.snapshot_image words) Hck);
    [| by rewrite lookup_insert_eq
     | unfold Store.snapshot_image; rewrite length_app, le_bytes_length; lia].
  unfold Store.snapshot_image.
  rewrite take_app_length', drop_app_length' by (by rewrite le_bytes_length).
  rewrite take_ge by lia.
  rewrite (le_value_bytes 4), Z.mod_small
    by (pose proof (Crc32.computeCRC32 (bytes_of_words words)) as c;
        pose proof (computeCRC32_range (bytes_of_words words)); simpl; lia).
  rewrite Z.eqb_refl. by rewrite words_of_bytes_of_words.
Qed.

(** [save] does nothing off the schedule, and on it surfaces a failed open
    (files untouched) and a write of [chunk] bytes of words or more that
    went bad (the file is left truncated). *)
Lemma save_surfaces_errors ps fault (dir : Store.directory) iter words :
  (Store.shouldCheckpoint ps iter = false ->
   Store.save ps fault dir iter words = (dir, Ok tt))
  /\ (Store.shouldCheckpoint ps iter = true -> fault iter = OpenFails ->
      Store.save ps fault dir iter words = (dir, Throw (CannotCreate iter)))
  /\ (forall n, Store.shouldCheckpoint ps iter = true -> fault iter = ShortWrite n ->
      (chunk <= length (bytes_of_words words))%nat ->
      (n < length (Store.snapshot_image words))%nat ->
      Store.save ps fault dir iter words
      = (<[iter := take n (Store.snapshot_image words)]> dir, Throw (WriteError iter))).
Proof.
  unfold Store.save. repeat split.
  - by intros ->.
  - by intros -> ->.
  - intros n -> -> Hbig Hshort.
    apply Nat.leb_le in Hbig. apply Nat.ltb_lt in Hshort. by rewrite Hbig, Hshort.
Qed.

(** ** Proof builder *)

Section BuilderFacts.
Import Builder.

Variable hashWords_chain : Z -> digest -> list Z -> digest.

(** [convertFromGMP] hands back the whole zero-filled vector, so its result
    is empty only when the vector has no words at all. *)
Lemma convertFromGMP_length e v words :
  Codec.convertFromGMP e v = Ok words ->
  Z.of_nat (length words) = Codec.wordCount e.
Proof.
  unfold Codec.convertFromGMP.
  destruct (Z.eqb_spec (Codec.wordCount e) 0) as [-> | _]; [by intros [= <-]|].
  destruct (Z.leb_spec (Z.of_nat (length (Codec.mpz_export v))) (Codec.wordCount e))
    as [Hle | ?]; [|done].
  intros [= <-]. rewrite length_app, length_replicate. lia.
Qed.

Lemma convertFromGMP_nonempty e v words :
  1 <= e <= 2 ^ 32 - 32 -> Codec.convertFromGMP e v = Ok words -> words <> [].
Proof.
  intros He Hconv%convertFromGMP_length ->.
  rewrite wordCount_ceil in Hconv by lia. simpl in Hconv.
  Z.div_mod_to_equations. lia.
Qed.

Lemma convertFromGMP_zero e :
  Codec.convertFromGMP e 0 = Ok (replicate (Z.to_nat (Codec.wordCount e)) 0).
Proof.
  unfold Codec.convertFromGMP. change (Codec.mpz_export 0) with (@nil Z).
  pose proof (wordCount_nonneg e).
  destruct (Z.eqb_spec (Codec.wordCount e) 0) as [-> | _]; [done|].
  destruct (Z.leb_spec (Z.of_nat (length (@nil Z))) (Codec.wordCount e)) as [_ | Hlt];
    [|simpl in Hlt; lia].
  simpl. by rewrite Nat.sub_0_r.
Qed.

(** Sequencing cannot produce an exception that neither part produces. *)
Lemma bind_not_thrown {A B : Type} (m : outcome A) (k : A -> outcome B) e :
  m <> Throw e -> (forall a, m = Ok a -> k a <> Throw e) -> m ≫= k <> Throw e.
Proof.
  intros Hm Hk. destruct m as [a|e'|]; [by apply Hk | | done].
  intros [= ->]. by apply Hm.
Qed.

Lemma at_index_not_thrown {A : Type} (v : list A) i e : at_index v i <> Throw e.
Proof. unfold at_index. by destruct (v !! Z.to_nat i). Qed.

Lemma set_index_not_thrown {A : Type} (v : list A) i a e : set_index v i a <> Throw e.
Proof. unfold set_index. by destruct (_ <? _)%nat. Qed.

Lemma of_option_not_thrown {A : Type} (o : option A) e : of_option o <> Throw e.
Proof. by destruct o. Qed.

Lemma load_not_ReadZero ps (dir : Store.directory) iter q :
  Store.load ps dir iter <> Throw (ReadZero q).
Proof.
  unfold Store.load. repeat (case_match; try done).
Qed.

Lemma clear_not_thrown n : forall i pool e, clear n i pool <> Throw e.
Proof.
  induction n as [|n IH]; intros i pool e; simpl; [done|].
  apply bind_not_thrown; [apply set_index_not_thrown | intros; apply IH].
Qed.

Lemma apply_hashes_not_thrown fuel : forall E p i k hashes st e,
  apply_hashes fuel E p i k hashes st <> Throw e.
Proof.
  induction fuel as [|fuel IH]; intros E p i k hashes [pool bufIndex] e; simpl.
  - by destruct (_ =? _).
  - destruct (_ =? _); [done|]. destruct (_ <? _); [apply IH|].
    repeat (apply bind_not_thrown;
            [first [apply at_index_not_thrown | apply set_index_not_thrown
                   | apply of_option_not_thrown] | intros ? _]).
    apply IH.
Qed.

Lemma level_body_not_ReadZero ps (dir : Store.directory) p s i hashes st q :
  level_body ps dir p s i hashes st <> Throw (ReadZero q).
Proof.
  destruct st as [pool bufIndex]. unfold level_body. cbv zeta.
  destruct (_ >=? _); [done|].
  apply bind_not_thrown; [apply at_index_not_thrown | intros iteration _].
  destruct (_ || _); [done|].
  apply bind_not_thrown; [apply load_not_ReadZero | intros w _].
  apply bind_not_thrown; [apply set_index_not_thrown | intros pool' _].
  apply apply_hashes_not_thrown.
Qed.

Lemma level_loop_not_ReadZero n : forall ps (dir : Store.directory) p s i hashes st q,
  level_loop n ps dir p s i hashes st <> Throw (ReadZero q).
Proof.
  induction n as [|n IH]; intros ps dir p s i hashes st q; simpl; [done|].
  apply bind_not_thrown; [apply level_body_not_ReadZero | intros; apply IH].
Qed.

(** With at least one word per residue the zero check of a level never
    fires. *)
Lemma level_not_ReadZero ps (dir : Store.directory) p st q :
  1 <= Store.E ps <= 2 ^ 32 - 32 ->
  level hashWords_chain ps dir p st <> Throw (ReadZero q).
Proof.
  intros HE. destruct st as [[[mids hashes] hash] pool]. unfold level. cbv zeta.
  apply bind_not_thrown; [apply clear_not_thrown | intros pool1 _].
  apply bind_not_thrown; [apply level_loop_not_ReadZero | intros [pool2 bufIndex] _].
  apply bind_not_thrown; [apply at_index_not_thrown | intros slot0 _].
  apply bind_not_thrown.
  { unfold Codec.convertFromGMP. destruct (_ =? _); [done|]. by destruct (_ <=? _). }
  intros words Hconv. destruct words as [|w words]; [|done].
  by apply convertFromGMP_nonempty in Hconv.
Qed.

Lemma levels_not_ReadZero n : forall ps (dir : Store.directory) p st q,
  1 <= Store.E ps <= 2 ^ 32 - 32 ->
  levels hashWords_chain n ps dir p st <> Throw (ReadZero q).
Proof.
  induction n as [|n IH]; intros ps dir p st q HE; simpl; [done|].
  apply bind_not_thrown; [by apply level_not_ReadZero | intros; by apply IH].
Qed.

(** The "Read ZERO" exception is unreachable for every exponent with at least
    one word, whatever the snapshots hold. *)
Lemma computeProof_never_ReadZero (hashWords : Z -> list Z -> digest)
    ps (dir : Store.directory) q :
  1 <= Store.E ps <= 2 ^ 32 - 32 ->
  computeProof hashWords hashWords_chain ps dir <> Throw (ReadZero q).
Proof.
  intros HE. unfold computeProof.
  apply bind_not_thrown; [apply load_not_ReadZero | intros B _]. cbv zeta.
  apply bind_not_thrown; [by apply levels_not_ReadZero | by intros [[[? ?] ?] ?] _].
Qed.

(** *** Equations of the loops *)

Lemma apply_hashes_exit fuel E p i k hashes st :
  Z.land i (u32 (Z.shiftl 1 k)) = 0 -> apply_hashes fuel E p i k hashes st = Ok st.
Proof. intros Hbit. destruct fuel; simpl; by rewrite Hbit. Qed.

(** One [expMul]: [(bufIndex-2) := (bufIndex-2)^h * (bufIndex-1)], one buffer
    fewer.  The indices are named so that a run can be followed by
    rewriting. *)
Lemma apply_hashes_expMul fuel E p i k hashes pool bufIndex
    top below hi k' h a t b r pool1 pool2 :
  Z.land i (u32 (Z.shiftl 1 k)) <> 0 -> 2 <= bufIndex ->
  u32 (bufIndex - 1) = top -> u32 (top - 1) = below ->
  u32 (p - 1 - k) = hi -> u32 (k + 1) = k' ->
  at_index hashes hi = Ok h ->
  at_index pool below = Ok a ->
  Mersenne.mersennePowMod a h E = Some t ->
  at_index pool top = Ok b ->
  Mersenne.mersenneReduce (t * b) E = r ->
  set_index pool below r = Ok pool1 ->
  set_index pool1 top 0 = Ok pool2 ->
  apply_hashes (S fuel) E p i k hashes (pool, bufIndex)
  = apply_hashes fuel E p i k' hashes (pool2, top).
Proof.
  intros Hbit Hbuf <- <- <- <- Hh Ha Ht Hb Hr Hs1 Hs2. cbn [apply_hashes].
  destruct (Z.eqb_spec (Z.land i (u32 (Z.shiftl 1 k))) 0) as [? | _]; [done|].
  destruct (Z.ltb_spec bufIndex 2) as [? | _]; [lia|].
  rewrite Hh. cbn [mbind outcome_bind]. rewrite Ha. cbn [mbind outcome_bind].
  rewrite Ht. cbn [of_option mbind outcome_bind]. rewrite Hb. cbn [mbind outcome_bind].
  rewrite Hr, Hs1. cbn [mbind outcome_bind]. rewrite Hs2. reflexivity.
Qed.

(** A checkpoint is fetched into the next free buffer. *)
Lemma level_body_fetch ps (dir : Store.directory) p s i hashes pool bufIndex
    e ci iteration w pool1 bufIndex' :
  Store.E ps = e ->
  u32 (s * (i * 2 + 1) - 1) = ci ->
  (ci >=? Z.of_nat (length (Store.points ps))) = false ->
  at_index (Store.points ps) ci = Ok iteration ->
  (iteration >? e) || negb (Store.shouldCheckpoint ps iteration) = false ->
  Store.load ps dir iteration = Ok w ->
  set_index pool bufIndex (Codec.convertToGMP w) = Ok pool1 ->
  u32 (bufIndex + 1) = bufIndex' ->
  level_body ps dir p s i hashes (pool, bufIndex)
  = apply_hashes 33 e p i 0 hashes (pool1, bufIndex').
Proof.
  intros <- <- Hin Hat Hck Hload Hset <-. unfold level_body. cbv zeta.
  rewrite Hin, Hat. cbn [mbind outcome_bind]. rewrite Hck, Hload.
  cbn [mbind outcome_bind]. by rewrite Hset.
Qed.

(** One level, once its loops have run. *)
Lemma level_eq ps (dir : Store.directory) p mids hashes hash pool
    s n pool1 pool2 bufIndex slot0 w words :
  u32 (Z.shiftl 1 (u32 (Store.power ps - p - 1))) = s ->
  Z.to_nat (u32 (Z.shiftl 1 p)) = n ->
  clear n 0 pool = Ok pool1 ->
  level_loop n ps dir p s 0 hashes (pool1, 0) = Ok (pool2, bufIndex) ->
  at_index pool2 0 = Ok slot0 ->
  Codec.convertFromGMP (Store.E ps) slot0 = Ok (w :: words) ->
  level hashWords_chain ps dir p (mids, hashes, hash, pool)
  = Ok (mids ++ [w :: words],
        hashes ++ [low64 (hashWords_chain (Store.E ps) hash (w :: words))],
        hashWords_chain (Store.E ps) hash (w :: words), pool2).
Proof.
  intros <- <- Hclear Hloop Hslot Hconv. unfold level. cbv zeta.
  rewrite Hclear. cbn [mbind outcome_bind]. rewrite Hloop. cbn [mbind outcome_bind].
  rewrite Hslot. cbn [mbind outcome_bind]. by rewrite Hconv.
Qed.

Lemma level_loop_two ps (dir : Store.directory) p s hashes st0 st1 st2 :
  level_body ps dir p s 0 hashes st0 = Ok st1 ->
  level_body ps dir p s 1 hashes st1 = Ok st2 ->
  level_loop 2 ps dir p s 0 hashes st0 = Ok st2.
Proof.
  intros H0 H1. cbn [level_loop]. rewrite H0. cbn [mbind outcome_bind].
  change (u32 (0 + 1)) with 1. rewrite H1. reflexivity.
Qed.

Lemma level_loop_one ps (dir : Store.directory) p s hashes st0 st1 :
  level_body ps dir p s 0 hashes st0 = Ok st1 ->
  level_loop 1 ps dir p s 0 hashes st0 = Ok st1.
Proof. intros H0. cbn [level_loop]. rewrite H0. reflexivity. Qed.

Lemma low64_range d : 0 <= low64 d < 2 ^ 64.
Proof.
  destruct d as [[[h0 ?] ?] ?]. unfold low64, u64. apply Z.mod_pos_bound. lia.
Qed.

End BuilderFacts.

(** A run with two levels. *)
Lemma computeProof_two_levels
    (hashWords : Z -> list Z -> Builder.digest)
    (hashWords_chain : Z -> Builder.digest -> list Z -> Builder.digest)
    ps (dir : Store.directory) e B pool st1 mids hashes hash pool' :
  Store.E ps = e ->
  Store.load ps dir e = Ok B ->
  Z.to_nat (Store.power ps) = 2%nat ->
  replicate (Z.to_nat (u32 (Z.shiftl 1 (Store.power ps)))) 0 = pool ->
  Builder.level hashWords_chain ps dir 0 ([], [], hashWords e B, pool) = Ok st1 ->
  Builder.level hashWords_chain ps dir 1 st1 = Ok (mids, hashes, hash, pool') ->
  Builder.computeProof hashWords hashWords_chain ps dir
  = Ok {| Builder.E := e; Builder.B := B; Builder.middles := mids |}.
Proof.
  intros <- Hload Hn <- H0 H1. unfold Builder.computeProof.
  rewrite Hload. cbn [mbind outcome_bind]. cbv zeta. rewrite Hn.
  cbn [Builder.levels]. rewrite H0. cbn [mbind outcome_bind].
  change (u32 (0 + 1)) with 1. rewrite H1. reflexivity.
Qed.

(** *** The run on the zero snapshots *)

Section ZeroSnapshots.
Import Builder.

#[local] Abbreviation ps127 := (Store.new 127 2).

Lemma load_zero_snapshot iter :
  iter = 32 \/ iter = 64 \/ iter = 96 \/ iter = 127 ->
  Store.load ps127 zero_snapshots iter = Ok zero_words.
Proof. intros [-> | [-> | [-> | ->]]]; vm_compute; reflexivity. Qed.

(** Fetching from a zero snapshot into buffer [bufIndex]. *)
Lemma fetch_zero p s i hashes bufIndex ci iteration bufIndex' :
  u32 (s * (i * 2 + 1) - 1) = ci ->
  (ci = 0 /\ iteration = 32) \/ (ci = 1 /\ iteration = 64) \/ (ci = 2 /\ iteration = 96) ->
  bufIndex = 0 \/ bufIndex = 1 ->
  u32 (bufIndex + 1) = bufIndex' ->
  level_body ps127 zero_snapshots p s i hashes (zero_words, bufIndex)
  = apply_hashes 33 127 p i 0 hashes (zero_words, bufIndex').
Proof.
  intros Hci Hit Hbuf Hnext.
  apply (level_body_fetch ps127 zero_snapshots p s i hashes zero_words bufIndex
           127 ci iteration zero_words zero_words bufIndex');
    [reflexivity | exact Hci | | | | | | exact Hnext].
  - destruct Hit as [[-> _] | [[-> _] | [-> _]]]; reflexivity.
  - destruct Hit as [[-> ->] | [[-> ->] | [-> ->]]]; vm_compute; reflexivity.
  - destruct Hit as [[_ ->] | [[_ ->] | [_ ->]]]; vm_compute; reflexivity.
  - apply load_zero_snapshot. destruct Hit as [[_ ->] | [[_ ->] | [_ ->]]]; tauto.
  - destruct Hbuf as [-> | ->]; reflexivity.
Qed.

(** Level 0 has the one buffer, loaded from iteration 64. *)
Lemma level0_zero (hashWords_chain : Z -> digest -> list Z -> digest) mids hashes d :
  level hashWords_chain ps127 zero_snapshots 0 (mids, hashes, d, zero_words)
  = Ok (mids ++ [zero_words],
        hashes ++ [low64 (hashWords_chain 127 d zero_words)],
        hashWords_chain 127 d zero_words, zero_words).
Proof.
  rewrite (level_eq hashWords_chain ps127 zero_snapshots 0 mids hashes d zero_words
             2 1%nat zero_words zero_words 1 0 0 [0; 0; 0]);
    [reflexivity | reflexivity | reflexivity | reflexivity | | reflexivity | reflexivity].
  apply level_loop_one.
  rewrite (fetch_zero 0 2 0 hashes 0 1 64 1) by (reflexivity || tauto).
  by apply apply_hashes_exit.
Qed.

(** Level 1 loads iterations 32 and 96 and folds them with the hash of
    level 0; the product with a zero buffer is zero. *)
Lemma level1_zero (hashWords_chain : Z -> digest -> list Z -> digest) mids h d :
  0 <= h < 2 ^ 64 ->
  level hashWords_chain ps127 zero_snapshots 1 (mids, [h], d, zero_words)
  = Ok (mids ++ [zero_words],
        [h; low64 (hashWords_chain 127 d zero_words)],
        hashWords_chain 127 d zero_words, zero_words).
Proof.
  intros Hh. destruct (mersennePowMod_total 0 h 127 Hh) as [t Ht].
  rewrite (level_eq hashWords_chain ps127 zero_snapshots 1 mids [h] d zero_words
             1 2%nat zero_words zero_words 1 0 0 [0; 0; 0]);
    [reflexivity | reflexivity | reflexivity | reflexivity | | reflexivity | reflexivity].
  apply (level_loop_two ps127 zero_snapshots 1 1 [h] (zero_words, 0) (zero_words, 1)
           (zero_words, 1)).
  - (* i = 0: iteration 32 goes to buffer 0 *)
    rewrite (fetch_zero 1 1 0 [h] 0 0 32 1) by (reflexivity || tauto).
    by apply apply_hashes_exit.
  - (* i = 1: iteration 96 goes to buffer 1, then one expMul *)
    rewrite (fetch_zero 1 1 1 [h] 1 2 96 2) by (reflexivity || tauto).
    rewrite (apply_hashes_expMul 32 127 1 1 0 [h] zero_words 2
               1 0 0 1 h 0 t 0 0 zero_words zero_words);
      [ by apply apply_hashes_exit | by vm_compute | lia | reflexivity..
      | exact Ht | reflexivity | by rewrite Z.mul_0_r | reflexivity | reflexivity ].
Qed.

End ZeroSnapshots.

(** C4 (the code departs from the claim): with exponent 127, power 2 and
    every snapshot holding the zero residue under a matching CRC, buffer
    slot 0 is zero at both levels; [convertFromGMP] turns it into four zero
    words, the emptiness test passes, and [computeProof] returns a proof whose
    two middles are zero, whatever the hash functions are. *)
Theorem computeProof_keeps_zero_middle
    (hashWords : Z -> list Z -> Builder.digest)
    (hashWords_chain : Z -> Builder.digest -> list Z -> Builder.digest) :
  Builder.computeProof hashWords hashWords_chain (Store.new 127 2)
    Builder.zero_snapshots
  = Ok {| Builder.E := 127; Builder.B := [0; 0; 0; 0];
          Builder.middles := [[0; 0; 0; 0]; [0; 0; 0; 0]] |}.
Proof.
  apply (computeProof_two_levels hashWords hashWords_chain (Store.new 127 2)
           Builder.zero_snapshots 127 Builder.zero_words Builder.zero_words
           ([] ++ [Builder.zero_words],
            [] ++ [Builder.low64 (hashWords_chain 127 (hashWords 127 Builder.zero_words)
                                    Builder.zero_words)],
            hashWords_chain 127 (hashWords 127 Builder.zero_words) Builder.zero_words,
            Builder.zero_words)
           (([] ++ [Builder.zero_words]) ++ [Builder.zero_words])
           [Builder.low64 (hashWords_chain 127 (hashWords 127 Builder.zero_words)
                             Builder.zero_words);
            Builder.low64
              (hashWords_chain 127
                 (hashWords_chain 127 (hashWords 127 Builder.zero_words)
                    Builder.zero_words) Builder.zero_words)]
           (hashWords_chain 127
              (hashWords_chain 127 (hashWords 127 Builder.zero_words)
                 Builder.zero_words) Builder.zero_words)
           Builder.zero_words).
  - reflexivity.
  - apply load_zero_snapshot. tauto.
  - reflexivity.
  - reflexivity.
  - apply level0_zero.
  - apply level1_zero, low64_range.
Qed.

(** ** Backup manager *)

Section BackupFacts.
Import Backup.

Lemma fresh_insert seed (x : list Z) :
  x <> [] -> <[0%nat := seed]> (replicate (length x) 0) = fresh seed x.
Proof.
  intros Hx. destruct x as [|w x]; [done|]. unfold fresh. simpl.
  by rewrite Nat.sub_0_r.
Qed.

(** The fresh start: taken whenever the extraction from the loop file fails
    or gives zero. *)
Lemma loadState_fresh bm (fs : files) x :
  x <> [] ->
  read_loop bm fs = None \/ read_loop bm fs = Some 0 ->
  loadState bm fs x
  = Ok (fresh (if String.eqb (mode_ bm) "prp" then 3 else 4) x, 0,
        [LookingForLoop; FreshState]).
Proof.
  intros Hx Hloop. unfold loadState.
  assert (Hfresh : fresh_start bm x
          = Ok (fresh (if String.eqb (mode_ bm) "prp" then 3 else 4) x, 0,
                [LookingForLoop; FreshState])).
  { unfold fresh_start. destruct x as [|w x]; [done|]. by rewrite fresh_insert. }
  by destruct Hloop as [-> | ->].
Qed.

(** A loop file that is absent, empty or holds "0" gives no positive index. *)
Lemma read_loop_absent_empty_zero bm (fs : files) :
  fs !! loopFilename_ bm = None
  \/ fs !! loopFilename_ bm = Some []
  \/ fs !! loopFilename_ bm = Some (list_byte_of_string "0") ->
  read_loop bm fs = None \/ read_loop bm fs = Some 0.
Proof.
  unfold read_loop. intros [-> | [-> | ->]]; [by left | by left | by right].
Qed.

(** A positive index with a [.mers] file that cannot be opened: the vector is
    left as it was and the stored index is returned. *)
Lemma loadState_mers_missing bm (fs : files) x resume :
  read_loop bm fs = Some resume -> 0 < resume ->
  fs !! mersFilename_ bm = None ->
  loadState bm fs x = Ok (x, resume, [LookingForLoop; Resuming resume; WarnMersOpen]).
Proof.
  intros Hloop Hpos Hmers. unfold loadState. rewrite Hloop, Hmers.
  by destruct (Z.gtb_spec resume 0) as [_ | ?]; [|lia].
Qed.

Lemma append_inj_prefix (p a b : string) : p +:+ a = p +:+ b -> a = b.
Proof. induction p as [|c p IH]; simpl; [done|]. intros [= H]. by apply IH. Qed.

(** The constructor gives the three state files different names. *)
Lemma new_filenames_distinct vectorSize savePath exponent mode b1 b2 :
  let bm := new vectorSize savePath exponent mode b1 b2 in
  mersFilename_ bm <> loopFilename_ bm
  /\ mersFilename_ bm <> exponentFilename_ bm
  /\ loopFilename_ bm <> exponentFilename_ bm.
Proof.
  cbn [new mersFilename_ loopFilename_ exponentFilename_].
  repeat split; intros H; by repeat apply append_inj_prefix in H.
Qed.

Lemma write_file_other fault (fs : files) file content other :
  other <> file -> (write_file fault fs file content).1 !! other = fs !! other.
Proof.
  intros Hne. unfold write_file.
  destruct (fault file); simpl; [by rewrite lookup_insert_ne | done | by rewrite lookup_insert_ne].
Qed.

(** *** The changes [saveState] makes, replayed *)

Lemma replay_app (fs : files) (a b : list effect) : replay fs (a ++ b) = replay (replay fs a) b.
Proof. apply fold_left_app. Qed.

Lemma replay_cons (fs : files) e effects :
  replay fs (e :: effects) = replay (<[e.1 := e.2]> fs) effects.
Proof. reflexivity. Qed.

Lemma replay_other (fs : files) (effects : list effect) file f :
  Forall (fun e => e.1 = file) effects -> file <> f -> replay fs effects !! f = fs !! f.
Proof.
  intros Hall Hne. revert fs. induction Hall as [|e effects He _ IH]; intros fs; [done|].
  rewrite replay_cons, IH. rewrite lookup_insert_ne by congruence. done.
Qed.

Lemma at_open_names fault file : Forall (fun e => e.1 = file) (at_open fault file).
Proof. unfold at_open. destruct (opens _ _); by repeat constructor. Qed.

Lemma at_write_names fault file content :
  Forall (fun e => e.1 = file) (at_write fault file content).
Proof. unfold at_write. destruct (_ && _); by repeat constructor. Qed.

Lemma at_close_names fault file content :
  Forall (fun e => e.1 = file) (at_close fault file content).
Proof. unfold at_close. destruct (_ && _); by repeat constructor. Qed.

(** A stream that opens leaves in its file what the file took of the bytes
    sent, whenever they went there and whatever other streams did in between;
    one that does not open leaves the file alone. *)
Lemma replay_stream fault (fs : files) file content
    (before between after : list effect) :
  Forall (fun e => e.1 <> file) between -> Forall (fun e => e.1 <> file) after ->
  replay fs (before ++ at_open fault file ++ at_write fault file content
             ++ between ++ at_close fault file content ++ after) !! file
  = if opens fault file then Some (landed fault file content)
    else replay fs before !! file.
Proof.
  assert (Hskip : forall (fs : files) effects,
            Forall (fun e => e.1 <> file) effects -> replay fs effects !! file = fs !! file).
  { intros fs' effects Hall. revert fs'.
    induction Hall as [|e effects He _ IH]; intros fs'; [done|].
    rewrite replay_cons, IH. by rewrite lookup_insert_ne. }
  intros Hbetween Hafter. rewrite !replay_app, (Hskip _ after) by done.
  unfold at_open, at_write, at_close.
  destruct (opens fault file); cbn [andb];
    [|cbn [replay fold_left]; by rewrite Hskip].
  assert (Hnil : landed fault file [] = []).
  { unfold landed. destruct (fault file); [done..|by rewrite take_nil]. }
  destruct (Nat.leb_spec chunk (length content)) as [Hbig | Hsmall];
    destruct (Nat.ltb_spec 0 (length content)) as [Hpos | Hzero];
    destruct (Nat.ltb_spec (length content) chunk) as [Hlt | Hge];
    try lia; cbn [andb replay fold_left fst snd];
    rewrite ?Hskip by done; rewrite ?lookup_insert_eq; try done.
  destruct content; [by rewrite Hnil | simpl in Hzero; lia].
Qed.

Lemma names_apart (effects : list effect) file f :
  Forall (fun e => e.1 = file) effects -> file <> f -> Forall (fun e => e.1 <> f) effects.
Proof. intros Hall Hne. eapply Forall_impl; [exact Hall|]. simpl. congruence. Qed.

(** The changes of the exponent stream. *)
Lemma exponent_effects_names bm fault (E_ptr : option Z) :
  Forall (fun e => e.1 = exponentFilename_ bm)
    match E_ptr with
    | Some Eval =>
        if String.eqb (mode_ bm) "pm1" then
          let text := list_byte_of_string (NilZero.string_of_int (Z.to_int Eval)) in
          at_open fault (exponentFilename_ bm)
          ++ at_write fault (exponentFilename_ bm) text
          ++ at_close fault (exponentFilename_ bm) text
        else []
    | None => []
    end.
Proof.
  destruct E_ptr as [v|]; [destruct (String.eqb _ _)|]; [|done..]. cbv zeta.
  repeat apply Forall_app_2;
    [apply at_open_names | apply at_write_names | apply at_close_names].
Qed.

(** The files [saveState] leaves, when the three names differ: every stream
    that opens leaves what its file took of the bytes sent to it. *)
Lemma saveState_final bm fault (fs : files) device iter E_ptr :
  mersFilename_ bm <> loopFilename_ bm ->
  mersFilename_ bm <> exponentFilename_ bm ->
  loopFilename_ bm <> exponentFilename_ bm ->
  let after := (saveState bm fault fs device iter E_ptr).1 in
  after !! mersFilename_ bm
  = (if opens fault (mersFilename_ bm)
     then Some (landed fault (mersFilename_ bm) (bytes_of_u64s (read_buffer bm device)))
     else fs !! mersFilename_ bm)
  /\ after !! loopFilename_ bm
     = (if opens fault (loopFilename_ bm)
        then Some (landed fault (loopFilename_ bm)
                     (list_byte_of_string (to_string (u64 (iter + 1)))))
        else fs !! loopFilename_ bm)
  /\ after !! exponentFilename_ bm
     = match E_ptr with
       | Some v =>
           if String.eqb (mode_ bm) "pm1" && opens fault (exponentFilename_ bm)
           then Some (landed fault (exponentFilename_ bm)
                        (list_byte_of_string (NilZero.string_of_int (Z.to_int v))))
           else fs !! exponentFilename_ bm
       | None => fs !! exponentFilename_ bm
       end
  /\ forall other, other <> mersFilename_ bm -> other <> loopFilename_ bm ->
       other <> exponentFilename_ bm -> after !! other = fs !! other.
Proof.
  intros Hml Hmx Hlx after. subst after. unfold saveState, saveState_effects.
  cbn [fst]. cbv zeta.
  pose proof (exponent_effects_names bm fault E_ptr) as Hexp. cbv zeta in Hexp.
  set (x := bytes_of_u64s _). set (next := list_byte_of_string _).
  set (M := mersFilename_ bm) in *. set (L := loopFilename_ bm) in *.
  set (X := exponentFilename_ bm) in *.
  pose proof (at_open_names fault M) as HoM. pose proof (at_write_names fault M x) as HwM.
  pose proof (at_close_names fault M x) as HcM.
  pose proof (at_open_names fault L) as HoL. pose proof (at_write_names fault L next) as HwL.
  pose proof (at_close_names fault L next) as HcL.
  assert (L <> M /\ X <> M /\ X <> L) as (Hlm & Hxm & Hxl) by (repeat split; congruence).
  split; [|split; [|split]].
  - set (EXP := match E_ptr with Some _ => _ | None => _ end) in *.
    etransitivity;
      [|apply (replay_stream fault fs M x []
                 (at_open fault L ++ at_write fault L next ++ EXP ++ at_close fault L next)
                 [])].
    + do 2 f_equal. cbn [app]. by rewrite app_nil_r, <- !app_assoc.
    + repeat apply Forall_app_2; by eapply names_apart.
    + done.
  - set (EXP := match E_ptr with Some _ => _ | None => _ end) in *.
    rewrite (app_assoc (at_open fault M)).
    rewrite (replay_stream fault fs L next (at_open fault M ++ at_write fault M x)
               EXP (at_close fault M x)) by (by eapply names_apart).
    destruct (opens fault L); [done|].
    rewrite replay_app, !(replay_other _ _ M) by done. done.
  - destruct E_ptr as [v|]; [destruct (String.eqb (mode_ bm) "pm1")|]; cbn [andb].
    + cbv zeta. set (text := list_byte_of_string _).
      assert (Hshape :
        at_open fault M ++ at_write fault M x ++ at_open fault L ++ at_write fault L next
        ++ (at_open fault X ++ at_write fault X text ++ at_close fault X text)
        ++ at_close fault L next ++ at_close fault M x
        = (at_open fault M ++ at_write fault M x
           ++ at_open fault L ++ at_write fault L next)
          ++ at_open fault X ++ at_write fault X text ++ []
          ++ at_close fault X text ++ at_close fault L next ++ at_close fault M x)
        by (cbn [app]; by rewrite <- !app_assoc).
      rewrite Hshape, replay_stream;
        [| done | apply Forall_app_2; by eapply names_apart].
      destruct (opens fault X); [done|].
      rewrite !replay_app, !(replay_other _ _ L), !(replay_other _ _ M) by done.
      done.
    + cbn [app]. rewrite !replay_app.
      rewrite !(replay_other _ _ M), !(replay_other _ _ L), !(replay_other _ _ M) by done.
      done.
    + cbn [app]. rewrite !replay_app.
      rewrite !(replay_other _ _ M), !(replay_other _ _ L), !(replay_other _ _ M) by done.
      done.
  - intros other H1 H2 H3.
    set (EXP := match E_ptr with Some _ => _ | None => _ end) in *.
    rewrite !replay_app.
    rewrite !(replay_other _ _ M), (replay_other _ _ L), (replay_other _ _ X),
      !(replay_other _ _ L), !(replay_other _ _ M) by done.
    done.
Qed.

End BackupFacts.

(** C8 (as stated, refuted): with the loop file holding "5" and no [.mers]
    file, [loadState] in PRP mode leaves [x = [7; 8]] untouched and returns 5;
    it does not fall back to the fresh state [[3; 0]] with index 0. *)
Lemma loadState_missing_mers_not_fresh :
  ~ Backup.loadState_ok (Backup.new 2 "" 127 "prp" 0 0).
Proof.
  intros [_ Hmissing].
  destruct (Hmissing {[ "./127prp.loop"%string := list_byte_of_string "5" ]} [7; 8] 5)
    as (log & Hrun & _); [done | vm_compute; reflexivity | lia | vm_compute; reflexivity |].
  vm_compute in Hrun. discriminate.
Qed.

(** C8 (amended): when the loop file is absent, empty or holds zero,
    [loadState] sets [x] to zeros except [x[0]], which is 3 in mode "prp" and
    4 otherwise, and returns 0; when the loop file holds a positive index and
    the [.mers] file cannot be opened, it prints the warning, leaves [x] as it
    was and returns the stored index. *)
Theorem loadState_contract (bm : Backup.manager) :
  (forall (fs : Backup.files) x, x <> [] ->
     fs !! Backup.loopFilename_ bm = None
     \/ fs !! Backup.loopFilename_ bm = Some []
     \/ fs !! Backup.loopFilename_ bm = Some (list_byte_of_string "0") ->
     Backup.loadState bm fs x
     = Ok (Backup.fresh (if String.eqb (Backup.mode_ bm) "prp" then 3 else 4) x, 0,
           [Backup.LookingForLoop; Backup.FreshState]))
  /\ (forall (fs : Backup.files) x resume,
        Backup.read_loop bm fs = Some resume -> 0 < resume ->
        fs !! Backup.mersFilename_ bm = None ->
        Backup.loadState bm fs x
        = Ok (x, resume,
              [Backup.LookingForLoop; Backup.Resuming resume; Backup.WarnMersOpen])).
Proof.
  split.
  - intros fs x Hx Hloop. apply loadState_fresh; [exact Hx|].
    by apply read_loop_absent_empty_zero.
  - intros fs x resume. apply loadState_mers_missing.
Qed.

(** C10: on the fresh start the seed depends only on whether the mode string
    is "prp": 3 then, and 4 for every other mode string, "pm1" included, with
    all other words zero. *)
Theorem loadState_seed_by_mode (bm : Backup.manager) (fs : Backup.files) (x : list Z) :
  x <> [] ->
  Backup.read_loop bm fs = None \/ Backup.read_loop bm fs = Some 0 ->
  Backup.loadState bm fs x
  = Ok ((if String.eqb (Backup.mode_ bm) "prp" then 3 else 4)
          :: replicate (length x - 1) 0,
        0, [Backup.LookingForLoop; Backup.FreshState])
  /\ (Backup.mode_ bm <> "prp"%string ->
      Backup.loadState bm fs x
      = Ok (4 :: replicate (length x - 1) 0, 0,
            [Backup.LookingForLoop; Backup.FreshState])).
Proof.
  intros Hx Hloop. pose proof (loadState_fresh bm fs x Hx Hloop) as Hrun.
  split; [exact Hrun|]. intros Hmode. rewrite Hrun.
  by apply String.eqb_neq in Hmode as ->.
Qed.

(** Witness for C10: mode "pm1", no loop file. *)
Lemma loadState_seed_by_mode_witness :
  Backup.loadState (Backup.new 2 "" 127 "pm1" 0 0) ∅ [9; 9]
  = Ok ([4; 0], 0, [Backup.LookingForLoop; Backup.FreshState]).
Proof.
  apply (loadState_seed_by_mode (Backup.new 2 "" 127 "pm1" 0 0) ∅ [9; 9]);
    [done | by left | done].
Defined.


(** For a snapshot of fewer than [chunk] bytes the loop index is on the disk
    before the snapshot: with two words at iteration 7 the [.mers] file is
    emptied, the loop file is emptied and gets "8", and the sixteen bytes of
    the snapshot reach the [.mers] file last. *)
Example saveState_small_snapshot_last :
  Backup.saveState_effects (Backup.new 2 "ckpt" 127 "prp" 0 0) (fun _ => NoFault)
    [1; 2] 7 None
  = [("ckpt/127prp.mers"%string, []);
     ("ckpt/127prp.loop"%string, []);
     ("ckpt/127prp.loop"%string, list_byte_of_string "8");
     ("ckpt/127prp.mers"%string, Backup.bytes_of_u64s [1; 2])].
Proof. vm_compute. reflexivity. Qed.


(** * Further properties of the code *)

(** ** Checkpoint schedule *)

Section ScheduleMore.
Import Schedule.

Lemma walk_one_more n : forall s start k,
  walk n s start k = true -> walk (S n) s start k = true.
Proof.
  induction n as [|n IH]; intros s start k Hw; [discriminate|].
  cbn [walk] in Hw. change (walk (S (S n)) s start k) with
    (if k >? u32 (start + s) then walk (S n) (next_span s) (u32 (start + s)) k
     else if k =? u32 (start + s) then true
     else walk (S n) (next_span s) start k).
  destruct (k >? u32 (start + s)); [by apply IH|].
  destruct (k =? u32 (start + s)); [done | by apply IH].
Qed.

Lemma walk_more d : forall n s start k,
  walk n s start k = true -> walk (d + n) s start k = true.
Proof.
  induction d as [|d IH]; intros n s start k Hw; [exact Hw|].
  change (S d + n)%nat with (S (d + n)). by apply walk_one_more, IH.
Qed.

Lemma next_span_pos s : 1 <= s < 2 ^ 31 -> 1 <= next_span s < 2 ^ 31.
Proof. intros Hs. destruct (next_span_small s ltac:(lia)) as (_ & ? & ?). lia. Qed.

(** A selection of positive spans has a positive sum. *)
Lemma hit_pos n : forall s d, 1 <= s < 2 ^ 31 -> hit n s d -> 0 < d.
Proof.
  induction n as [|n IH]; intros s d Hs Hh; simpl in Hh; [done|].
  pose proof (next_span_pos s Hs) as Hr.
  destruct Hh as [-> | [Hh | Hh]]; [lia | by eapply IH |].
  apply IH in Hh; [lia | exact Hr].
Qed.

End ScheduleMore.

(** X1: raising the proof power only adds checkpoints: an iteration that
    [isInPoints] accepts at some power is accepted at every higher power, for
    every exponent. *)
Theorem isInPoints_power_mono (E power power' k : Z) :
  0 <= power <= power' ->
  Schedule.isInPoints E power k = true -> Schedule.isInPoints E power' k = true.
Proof.
  intros Hpow. unfold Schedule.isInPoints. destruct (k =? E); [done|].
  replace (Z.to_nat power') with (Z.to_nat (power' - power) + Z.to_nat power)%nat by lia.
  apply walk_more.
Qed.

(** Witness for X1: iteration 197 of exponent 521, from power 3 to power 5. *)
Lemma isInPoints_power_mono_witness :
  Schedule.isInPoints 521 5 197 = true.
Proof.
  apply (isInPoints_power_mono 521 3 5 197); [lia | vm_compute; reflexivity].
Defined.

(** X2: for an odd exponent below [2^32 - 1] whose spans sum to at most [E],
    every iteration [isInPoints] accepts lies in [[1, E]]: iteration 0 is
    never a checkpoint and nothing beyond [E] is. *)
Theorem isInPoints_range (E power k : Z) :
  0 <= E < 2 ^ 32 - 1 -> E mod 2 = 1 ->
  Schedule.sumZ (Schedule.spans E power) <= E ->
  Schedule.isInPoints E power k = true -> 0 < k <= E.
Proof.
  intros HE Hodd Hsum Hin.
  apply isInPoints_spec in Hin as [-> | Hh]; [| |lia|done|done].
  - split; [|lia]. destruct (Z.eq_dec E 0) as [-> | ?]; [discriminate | lia].
  - pose proof (first_span_odd E HE Hodd) as H2.
    pose proof (first_span_range E ltac:(lia)) as Hs.
    split.
    + eapply hit_pos; [|exact Hh]. lia.
    + apply hit_bounds in Hh; [|exact Hs]. unfold Schedule.spans in Hsum. lia.
Qed.

(** Witness for X2: iteration 197 of exponent 521 with power 3. *)
Lemma isInPoints_range_witness : 0 < 197 <= 521.
Proof.
  apply (isInPoints_range 521 3 197);
    [lia | reflexivity | vm_compute; discriminate | vm_compute; reflexivity].
Defined.

(** ** Mersenne arithmetic *)

(** X3: [mersenneReduce] never leaves the residue class: for every
    non-negative [x] the result is non-negative and congruent to [x] modulo
    [2^E - 1]. *)
Theorem mersenneReduce_residue (x E : Z) :
  0 <= E -> 0 <= x ->
  0 <= Mersenne.mersenneReduce x E
  /\ Mersenne.mersenneReduce x E mod Mersenne.M E = x mod Mersenne.M E.
Proof.
  intros HE Hx. split; [by apply mersenneReduce_nonneg | by apply mersenneReduce_congruent].
Qed.

(** Witness for X3: a value of 301 bits and exponent 127. *)
Lemma mersenneReduce_residue_witness :
  0 <= Mersenne.mersenneReduce (2 ^ 300 + 12345) 127
  /\ Mersenne.mersenneReduce (2 ^ 300 + 12345) 127 mod Mersenne.M 127
     = (2 ^ 300 + 12345) mod Mersenne.M 127.
Proof. apply (mersenneReduce_residue (2 ^ 300 + 12345) 127); [lia | vm_compute; discriminate]. Defined.

(** X4: the product of two values below [2^E] is reduced to a value below
    [2^(E+1)] (one bit more than the modulus has), and reducing that value
    again changes nothing. *)
Theorem mersenneReduce_product (a b E : Z) :
  1 <= E < 2 ^ 32 - 1 -> 0 <= a < 2 ^ E -> 0 <= b < 2 ^ E ->
  0 <= Mersenne.mersenneReduce (a * b) E < 2 ^ (E + 1)
  /\ Mersenne.mersenneReduce (Mersenne.mersenneReduce (a * b) E) E
     = Mersenne.mersenneReduce (a * b) E.
Proof.
  intros HE Ha Hb.
  assert (0 <= a * b < 2 ^ (2 * E)) as Hab.
  { replace (2 * E) with (E + E) by lia. rewrite Z.pow_add_r by lia. nia. }
  assert (0 <= Mersenne.mersenneReduce (a * b) E < 2 ^ (E + 1)) as Hr.
  { destruct (Z.lt_ge_cases (a * b) (2 ^ (E + 1))) as [Hsmall | Hbig].
    - rewrite mersenneReduce_early by lia. lia.
    - pose proof (mersenneReduce_fold_bound (a * b) E ltac:(lia) ltac:(lia)) as Hf.
      unfold Mersenne.M in Hf. rewrite Z.pow_add_r, Z.pow_1_r by lia. lia. }
  split; [exact Hr|]. apply mersenneReduce_early; lia.
Qed.

(** Witness for X4: the square of [2^127 - 1]. *)
Lemma mersenneReduce_product_witness :
  0 <= Mersenne.mersenneReduce ((2 ^ 127 - 1) * (2 ^ 127 - 1)) 127 < 2 ^ (127 + 1)
  /\ Mersenne.mersenneReduce (Mersenne.mersenneReduce ((2 ^ 127 - 1) * (2 ^ 127 - 1)) 127) 127
     = Mersenne.mersenneReduce ((2 ^ 127 - 1) * (2 ^ 127 - 1)) 127.
Proof.
  apply (mersenneReduce_product (2 ^ 127 - 1) (2 ^ 127 - 1) 127); [lia | lia | lia].
Defined.

(** X5: [mersennePowMod] returns for every 64-bit exponent, and what it
    returns is congruent to [base ^ exp] modulo [2^E - 1]. *)
Theorem mersennePowMod_residue (base exp E : Z) :
  0 <= E -> 0 <= exp < 2 ^ 64 ->
  exists r, Mersenne.mersennePowMod base exp E = Some r
            /\ r mod Mersenne.M E = base ^ exp mod Mersenne.M E.
Proof.
  intros HE Hexp. destruct (mersennePowMod_total base exp E Hexp) as [r Hr].
  exists r. split; [exact Hr|]. eapply mersennePowMod_congruent; [exact HE | lia | exact Hr].
Qed.

(** Witness for X5: base 3 and the largest 64-bit exponent. *)
Lemma mersennePowMod_residue_witness :
  exists r, Mersenne.mersennePowMod 3 (2 ^ 64 - 1) 127 = Some r
            /\ r mod Mersenne.M 127 = 3 ^ (2 ^ 64 - 1) mod Mersenne.M 127.
Proof. apply (mersennePowMod_residue 3 (2 ^ 64 - 1) 127); lia. Defined.

(** ** Residue codec *)

Section CodecMore.
Import Codec.

Lemma convertToGMP_range words :
  Forall (fun w => 0 <= w < 2 ^ 32) words ->
  0 <= convertToGMP words < 2 ^ (32 * Z.of_nat (length words)).
Proof.
  induction 1 as [|w words Hw _ IH]; [simpl; lia|].
  cbn [convertToGMP length]. rewrite Nat2Z.inj_succ.
  replace (32 * Z.succ (Z.of_nat (length words)))
    with (32 + 32 * Z.of_nat (length words)) by lia.
  rewrite Z.pow_add_r by lia. nia.
Qed.

Lemma limbs_convertToGMP words :
  Forall (fun w => 0 <= w < 2 ^ 32) words ->
  limbs (length words) (convertToGMP words) = words.
Proof.
  induction 1 as [|w words Hw _ IH]; [done|].
  cbn [convertToGMP length limbs]. f_equal.
  - rewrite Z.mul_comm, Z_mod_plus_full. by apply Z.mod_small.
  - rewrite Z.mul_comm, Z.div_add by lia. rewrite Z.div_small by lia. exact IH.
Qed.

Lemma limbs_zero n : limbs n 0 = replicate n 0.
Proof.
  induction n as [|n IH]; [done|]. cbn [limbs].
  rewrite Zmod_0_l, Zdiv_0_l. by rewrite IH.
Qed.

Lemma limbs_app a : forall b v,
  0 <= v -> limbs (a + b) v = limbs a v ++ limbs b (v / 2 ^ (32 * Z.of_nat a)).
Proof.
  induction a as [|a IH]; intros b v Hv.
  - simpl. by rewrite Z.div_1_r.
  - cbn [Nat.add limbs app]. f_equal. rewrite IH by (apply Z.div_pos; lia). f_equal. f_equal.
    rewrite Z.div_div by (try apply Z.pow_pos_nonneg; lia).
    rewrite <- Z.pow_add_r by lia. f_equal. f_equal. lia.
Qed.

(** [mpz_export] needs at most [n] words exactly for the magnitudes below
    [2^(32 n)]. *)
Lemma limb_count_le v n : 0 <= n -> (limb_count v <= n <-> Z.abs v < 2 ^ (32 * n)).
Proof.
  intros Hn. unfold limb_count. destruct (Z.eqb_spec v 0) as [-> | Hne].
  - simpl. pose proof (Z.pow_pos_nonneg 2 (32 * n)). lia.
  - rewrite (Z.log2_lt_pow2 (Z.abs v) (32 * n)) by lia.
    pose proof (Z.log2_nonneg (Z.abs v)). Z.div_mod_to_equations. lia.
Qed.

Lemma limb_count_abs v : limb_count (Z.abs v) = limb_count v.
Proof.
  unfold limb_count. rewrite Z.abs_idemp.
  destruct (Z.eqb_spec v 0) as [-> | Hne]; [done|].
  destruct (Z.eqb_spec (Z.abs v) 0); [lia | done].
Qed.

Lemma mpz_export_length v : Z.of_nat (length (mpz_export v)) = limb_count v.
Proof.
  unfold mpz_export. rewrite limbs_length.
  pose proof (limb_count_fits (Z.abs v) ltac:(lia)) as [H0 _].
  rewrite limb_count_abs in H0. lia.
Qed.

End CodecMore.

(** X6: words to integer and back: a vector of [(E + 31) / 32] 32-bit words
    (the count as the code computes it) is returned unchanged by
    [convertFromGMP] after [convertToGMP]. *)
Theorem convertFromGMP_convertToGMP (E : Z) (words : list Z) :
  Z.of_nat (length words) = Codec.wordCount E ->
  Forall (fun w => 0 <= w < 2 ^ 32) words ->
  Codec.convertFromGMP E (Codec.convertToGMP words) = Ok words.
Proof.
  intros Hlen Hwords. pose proof (convertToGMP_range words Hwords) as Hv.
  set (v := Codec.convertToGMP words) in *.
  unfold Codec.convertFromGMP. rewrite mpz_export_length.
  destruct (Z.eqb_spec (Codec.wordCount E) 0) as [H0 | _].
  { destruct words; [done | simpl in Hlen; lia]. }
  assert (Codec.limb_count v <= Codec.wordCount E) as Hle.
  { apply limb_count_le; [lia|]. rewrite Z.abs_eq by lia. rewrite <- Hlen. lia. }
  destruct (Z.leb_spec (Codec.limb_count v) (Codec.wordCount E)) as [_ | ?]; [|lia].
  f_equal. unfold Codec.mpz_export. rewrite limbs_length, Z.abs_eq by lia.
  destruct (limb_count_fits v ltac:(lia)) as [Hc0 Hfit].
  etransitivity; [|exact (limbs_convertToGMP words Hwords)]. fold v.
  replace (length words)
    with (Z.to_nat (Codec.limb_count v)
          + (Z.to_nat (Codec.wordCount E) - Z.to_nat (Codec.limb_count v)))%nat by lia.
  rewrite limbs_app by lia. f_equal.
  rewrite Z2Nat.id by lia. rewrite Z.div_small by lia. apply eq_sym, limbs_zero.
Qed.

(** Witness for X6: four words for exponent 127, two of them zero. *)
Lemma convertFromGMP_convertToGMP_witness :
  Codec.convertFromGMP 127 (Codec.convertToGMP [7; 0; 4294967295; 0])
  = Ok [7; 0; 4294967295; 0].
Proof.
  apply (convertFromGMP_convertToGMP 127 [7; 0; 4294967295; 0]);
    [reflexivity | repeat constructor; lia].
Defined.

(** X7: [convertFromGMP] writes outside its vector exactly when the vector
    has at least one word and the magnitude of the value needs more than the
    [(E + 31) / 32] words it has; otherwise it returns that many words.  With
    at least one word they read back as the magnitude (the sign is dropped);
    a vector of no words is returned empty, whatever the value. *)
Theorem convertFromGMP_bounds (E v : Z) :
  (Codec.convertFromGMP E v = Undefined
   <-> 0 < Codec.wordCount E /\ 2 ^ (32 * Codec.wordCount E) <= Z.abs v)
  /\ (forall words, Codec.convertFromGMP E v = Ok words ->
        Z.of_nat (length words) = Codec.wordCount E
        /\ (0 < Codec.wordCount E -> Codec.convertToGMP words = Z.abs v))
  /\ (Codec.wordCount E = 0 -> Codec.convertFromGMP E v = Ok []).
Proof.
  pose proof (wordCount_nonneg E) as Hwc.
  pose proof (limb_count_le v (Codec.wordCount E) Hwc) as Hiff.
  unfold Codec.convertFromGMP. rewrite mpz_export_length.
  destruct (Z.eqb_spec (Codec.wordCount E) 0) as [H0 | Hpos].
  { split; [split; [done | lia]|]. split; [|done].
    intros words [= <-]. split; [simpl; lia | lia]. }
  destruct (Z.leb_spec (Codec.limb_count v) (Codec.wordCount E)) as [Hle | Hgt].
  - split; [split; [done | lia]|]. split; [|lia]. intros words [= <-]. split.
    + rewrite length_app, length_replicate.
      pose proof (mpz_export_length v). lia.
    + intros _. rewrite convertToGMP_padding. unfold Codec.mpz_export.
      rewrite convertToGMP_limbs. apply Z.mod_small.
      pose proof (limb_count_fits (Z.abs v) ltac:(lia)) as [H0 Hfit].
      rewrite limb_count_abs in H0, Hfit. rewrite Z2Nat.id by lia. lia.
  - split; [split; [lia | done]|]. split; [done | lia].
Qed.

(** Both sides of X7 on values: for exponent 127 (four words) [2^128] does
    not fit; for exponent [2^32 - 5] (no word) it is dropped. *)
Example convertFromGMP_bounds_values :
  Codec.convertFromGMP 127 (2 ^ 128) = Undefined
  /\ Codec.convertFromGMP 127 (- 5) = Ok [5; 0; 0; 0]
  /\ Codec.convertFromGMP 4294967291 (2 ^ 128) = Ok [].
Proof. repeat split; vm_compute; reflexivity. Qed.

(** ** Proof snapshots *)

Section StoreMore.
Import Store.

Lemma le_value_range bs : 0 <= le_value bs < 256 ^ Z.of_nat (length bs).
Proof.
  induction bs as [|b bs IH]; [simpl; lia|].
  cbn [le_value length]. rewrite Nat2Z.inj_succ, Z.pow_succ_r by lia.
  pose proof (byte_val_range b). lia.
Qed.

Lemma words_of_bytes_shape n : forall bs,
  length bs = (4 * n)%nat ->
  length (words_of_bytes bs) = n
  /\ Forall (fun w => 0 <= w < 2 ^ 32) (words_of_bytes bs).
Proof.
  induction n as [|n IH]; intros bs Hlen.
  - destruct bs; [by split | simpl in Hlen; lia].
  - destruct bs as [|b0 [|b1 [|b2 [|b3 rest]]]]; simpl in Hlen; try lia.
    destruct (IH rest ltac:(lia)) as [Hl Hr].
    cbn [words_of_bytes length]. split; [by rewrite Hl|].
    constructor; [|exact Hr]. apply (le_value_range [b0; b1; b2; b3]).
Qed.

(** [load] looks at no file but the one of its iteration. *)
Lemma load_other ps (dir : directory) iter other file :
  other <> iter -> load ps (<[iter := file]> dir) other = load ps dir other.
Proof. intros Hne. unfold load. by rewrite lookup_insert_ne. Qed.

Lemma snapshot_image_length words :
  length (snapshot_image words) = (4 + 4 * length words)%nat.
Proof.
  unfold snapshot_image. by rewrite length_app, le_bytes_length, bytes_of_words_length.
Qed.

(** A directory with more files passes every check of the loop of
    [isValidTo] that the smaller one passes. *)
Lemma valid_from_more e (dir dir' : directory) limitK pts :
  (forall k, is_Some (dir !! k) -> is_Some (dir' !! k)) ->
  valid_from e dir limitK pts = true -> valid_from e dir' limitK pts = true.
Proof.
  intros Hmore. induction pts as [|point rest IH]; [done|]. cbn [valid_from].
  destruct (point >? limitK); [done|]. unfold fileExists.
  destruct (point <? e); cbn [andb]; [|exact IH].
  destruct (decide (is_Some (dir !! point))) as [Hs | Hn].
  - rewrite !bool_decide_eq_true_2 by auto. exact IH.
  - rewrite (bool_decide_eq_false_2 _ Hn). discriminate.
Qed.

(** On a sorted array the loop checks exactly the points up to [limitK]. *)
Lemma valid_from_sorted e (dir : directory) limitK pts :
  StronglySorted Z.le pts ->
  valid_from e dir limitK pts = true
  <-> forall point, point ∈ pts -> point <= limitK -> point < e -> is_Some (dir !! point).
Proof.
  induction 1 as [|point rest Hs IH Hall]; cbn [valid_from].
  - split; [by intros _ ? ?%elem_of_nil | done].
  - rewrite Forall_forall in Hall.
    destruct (Z.gtb_spec point limitK) as [Hgt | Hle].
    { split; [|done]. intros _ q [-> | Hq%Hall]%elem_of_cons; lia. }
    unfold fileExists. destruct (Z.ltb_spec point e) as [Hlt | Hge]; cbn [andb].
    + destruct (decide (is_Some (dir !! point))) as [Hsome | Hnone].
      * rewrite bool_decide_eq_true_2 by done. cbn [negb]. rewrite IH. split.
        -- intros Hrest q [-> | Hq]%elem_of_cons; [done | by apply Hrest].
        -- intros Hcons q Hq. apply Hcons, list_elem_of_further, Hq.
      * rewrite bool_decide_eq_false_2 by done. cbn [negb]. split; [done|].
        intros Hcons. exfalso. apply Hnone, Hcons; [apply list_elem_of_here | lia..].
    + rewrite IH. split.
      * intros Hrest q [-> | Hq]%elem_of_cons; [lia | by apply Hrest].
      * intros Hcons q Hq. apply Hcons, list_elem_of_further, Hq.
Qed.

Lemma grow_u32 n : forall s pts,
  Forall (fun p => 0 <= p < 2 ^ 32) pts ->
  Forall (fun p => 0 <= p < 2 ^ 32) (Schedule.grow n s pts).
Proof.
  induction n as [|n IH]; intros s pts Hpts; [exact Hpts|].
  cbn [Schedule.grow]. apply IH. unfold Schedule.push_level.
  apply Forall_app. split; [exact Hpts|].
  apply Forall_forall. intros v (p & -> & _)%list_elem_of_fmap. apply u32_range.
Qed.

(** The array the constructor leaves is in ascending order, guard element
    included, for every exponent and power. *)
Lemma ProofSet_sorted e pw :
  0 <= e < 2 ^ 32 -> StronglySorted Z.le (Schedule.ProofSet e pw).
Proof.
  intros He. unfold Schedule.ProofSet. destruct (negb (e mod 2 =? 0)); [|constructor].
  apply StronglySorted_app_2.
  - intros x1 x2 Hx1 ->%list_elem_of_singleton. unfold Schedule.sorted_points in Hx1.
    rewrite merge_sort_Permutation in Hx1.
    assert (Forall (fun p => 0 <= p < 2 ^ 32)
              (Schedule.set_front e (Schedule.grow (Z.to_nat pw) (Schedule.first_span e) [0])))
      as Hall.
    { pose proof (grow_u32 (Z.to_nat pw) (Schedule.first_span e) [0]
                    ltac:(apply Forall_singleton; lia)) as Hg.
      destruct (Schedule.grow _ _ _) as [|p0 rest]; [constructor|].
      apply Forall_cons in Hg as [_ Hrest]. by constructor. }
    rewrite Forall_forall in Hall. apply Hall in Hx1. unfold UINT32_MAX. lia.
  - apply StronglySorted_merge_sort; [intros x y z; lia | intros x y; lia].
  - repeat constructor.
Qed.

End StoreMore.

(** X8: a snapshot that [save] wrote without a fault is read back by [load]
    word for word, and the snapshots of the other iterations load as they
    did before. *)
Theorem save_then_load ps (dir : Store.directory) (iter : Z) (words : list Z) :
  Store.shouldCheckpoint ps iter = true ->
  Z.of_nat (length words) = Codec.wordCount (Store.E ps) ->
  Forall (fun w => 0 <= w < 2 ^ 32) words ->
  let saved := Store.save ps (fun _ => NoFault) dir iter words in
  saved.2 = Ok tt
  /\ Store.load ps saved.1 iter = Ok words
  /\ forall other, other <> iter -> Store.load ps saved.1 other = Store.load ps dir other.
Proof.
  intros Hck Hlen Hwords.
  destruct (load_after_save ps dir iter words Hck Hlen Hwords) as [Hsave Hload].
  cbv zeta. rewrite Hsave. cbn [fst snd]. split; [done|]. split; [exact Hload|].
  intros other Hne. by apply load_other.
Qed.

(** Witness for X8: iteration 64 of exponent 127 with power 2. *)
Lemma save_then_load_witness :
  let saved := Store.save (Store.new 127 2) (fun _ => NoFault) ∅ 64 [1; 2; 3; 4] in
  saved.2 = Ok tt
  /\ Store.load (Store.new 127 2) saved.1 64 = Ok [1; 2; 3; 4]
  /\ forall other, other <> 64 ->
       Store.load (Store.new 127 2) saved.1 other = Store.load (Store.new 127 2) ∅ other.
Proof.
  apply (save_then_load (Store.new 127 2) ∅ 64 [1; 2; 3; 4]);
    [vm_compute; reflexivity | reflexivity | repeat constructor; lia].
Defined.

(** X9: when the file takes only [n] bytes, fewer than the snapshot image,
    [save] throws only if the words are [chunk] bytes or more, which go to
    the file at the [write]; fewer bytes are still in the buffer of the
    stream when [file.good()] is tested, and [save] returns normally.  Either
    way the truncated file it leaves is refused by [load]: the CRC cannot be
    read when fewer than 4 bytes got out, the data cannot when fewer than the
    whole image did. *)
Theorem load_after_short_write ps (fault : Z -> write_fault) (dir : Store.directory)
    (iter : Z) (words : list Z) (n : nat) :
  Store.shouldCheckpoint ps iter = true ->
  Z.of_nat (length words) = Codec.wordCount (Store.E ps) ->
  fault iter = ShortWrite n -> (n < 4 + 4 * length words)%nat ->
  let saved := Store.save ps fault dir iter words in
  saved.2 = (if (chunk <=? 4 * length words)%nat then Throw (WriteError iter) else Ok tt)
  /\ Store.load ps saved.1 iter
     = Throw (if (n <? 4)%nat then CrcReadError iter else DataReadError iter).
Proof.
  intros Hck Hlen Hfault Hn. cbv zeta. unfold Store.save. rewrite Hck, Hfault.
  cbn [negb fst snd]. split.
  { rewrite bytes_of_words_length, snapshot_image_length.
    destruct (Nat.ltb_spec n (4 + 4 * length words)); [|lia].
    by rewrite andb_true_r. }
  unfold Store.load. rewrite Hck, lookup_insert_eq. cbn [negb].
  rewrite length_drop, length_take, snapshot_image_length.
  destruct (Nat.ltb_spec n 4) as [Hcrc | Hdata].
  - destruct (Nat.ltb_spec (n `min` (4 + 4 * length words)) 4); [done | lia].
  - destruct (Nat.ltb_spec (n `min` (4 + 4 * length words)) 4); [lia|].
    destruct (Nat.ltb_spec (n `min` (4 + 4 * length words) - 4)
                (Z.to_nat (Codec.wordCount (Store.E ps) * 4))); [done | lia].
Qed.

(** Witness for X9: the file takes 10 of the 20 bytes of a snapshot of
    exponent 127; [save] returns, and [load] cannot read the data. *)
Lemma load_after_short_write_witness :
  let saved := Store.save (Store.new 127 2) (fun _ => ShortWrite 10) ∅ 64 [1; 2; 3; 4] in
  saved.2 = Ok tt
  /\ Store.load (Store.new 127 2) saved.1 64 = Throw (DataReadError 64).
Proof.
  apply (load_after_short_write (Store.new 127 2) (fun _ => ShortWrite 10) ∅ 64
           [1; 2; 3; 4] 10);
    [vm_compute; reflexivity | reflexivity | reflexivity | simpl; lia].
Defined.

(** The other side of X9 on values: exponent 8191 has 256 words, 1024 bytes,
    and [save] throws when the file takes 10 bytes of them. *)
Example save_short_write_thrown :
  Codec.wordCount 8191 = 256
  /\ (Store.save (Store.new 8191 2) (fun _ => ShortWrite 10) ∅ 8191 (replicate 256 0)).2
     = Throw (WriteError 8191).
Proof. split; vm_compute; reflexivity. Qed.

(** X10: [load] returns only for a checkpoint iteration whose file exists,
    and what it returns is exactly [(E + 31) / 32] words (the count as the
    code computes it), each within 32 bits. *)
Theorem load_shape ps (dir : Store.directory) (iter : Z) (words : list Z) :
  Store.load ps dir iter = Ok words ->
  Store.shouldCheckpoint ps iter = true
  /\ is_Some (dir !! iter)
  /\ Z.of_nat (length words) = Codec.wordCount (Store.E ps)
  /\ Forall (fun w => 0 <= w < 2 ^ 32) words.
Proof.
  intros (Hck & file & Hfile & Hlen & _ & ->)%load_inv.
  split; [exact Hck|]. split; [by eexists|].
  pose proof (wordCount_nonneg (Store.E ps)) as Hwc.
  destruct (words_of_bytes_shape (Z.to_nat (Codec.wordCount (Store.E ps)))
              (take (Z.to_nat (Codec.wordCount (Store.E ps) * 4)) (drop 4 file)))
    as [Hl Hr].
  { rewrite length_take, length_drop. lia. }
  split; [rewrite Hl; lia | exact Hr].
Qed.

(** Witness for X10: the zero snapshot of iteration 64. *)
Lemma load_shape_witness :
  Store.shouldCheckpoint (Store.new 127 2) 64 = true
  /\ is_Some (Builder.zero_snapshots !! 64)
  /\ Z.of_nat (length Builder.zero_words) = Codec.wordCount (Store.E (Store.new 127 2))
  /\ Forall (fun w => 0 <= w < 2 ^ 32) Builder.zero_words.
Proof.
  apply (load_shape (Store.new 127 2) Builder.zero_snapshots 64 Builder.zero_words).
  vm_compute. reflexivity.
Defined.

(** X11: for every exponent below [2^32] and every power, [isValidTo]
    answers true exactly when each point of the constructed array that is at
    most [limitK] and below [E] has its file; the early exit of the loop
    loses nothing because the array is sorted. *)
Theorem isValidTo_points (E power : Z) (dir : Store.directory) (limitK : Z) :
  0 <= E < 2 ^ 32 ->
  Store.isValidTo (Store.new E power) dir limitK = true
  <-> forall point, point ∈ Store.points (Store.new E power) ->
        point <= limitK -> point < E -> is_Some (dir !! point).
Proof.
  intros HE. unfold Store.isValidTo. cbn [Store.new Store.E Store.points].
  apply valid_from_sorted, ProofSet_sorted, HE.
Qed.

(** Witness for X11: exponent 127 with power 2. *)
Lemma isValidTo_points_witness :
  Store.isValidTo (Store.new 127 2) Builder.zero_snapshots 127 = true
  <-> forall point, point ∈ Store.points (Store.new 127 2) ->
        point <= 127 -> point < 127 -> is_Some (Builder.zero_snapshots !! point).
Proof. apply (isValidTo_points 127 2 Builder.zero_snapshots 127). lia. Defined.

(** X12: for an odd exponent whose spans sum to at most [E], [isValidTo]
    answers true exactly when every checkpoint iteration ([shouldCheckpoint])
    below [E] and at most [limitK] has its file. *)
Theorem isValidTo_checkpoints (E power : Z) (dir : Store.directory) (limitK : Z) :
  0 <= E < 2 ^ 32 -> E mod 2 = 1 ->
  Schedule.sumZ (Schedule.spans E power) <= E ->
  Store.isValidTo (Store.new E power) dir limitK = true
  <-> forall k, Store.shouldCheckpoint (Store.new E power) k = true ->
        k <= limitK -> k < E -> is_Some (dir !! k).
Proof.
  intros HE Hodd Hsum. unfold Store.isValidTo, Store.shouldCheckpoint.
  cbn [Store.new Store.E Store.points Store.power].
  rewrite valid_from_sorted by (by apply ProofSet_sorted).
  assert (Hmem : forall k, k < E ->
            (k ∈ Schedule.ProofSet E power <-> Schedule.isInPoints E power k = true)).
  { intros k Hk. unfold Schedule.ProofSet. rewrite Hodd. cbn [Z.eqb negb].
    rewrite elem_of_app, list_elem_of_singleton, isInPoints_spec by done.
    rewrite (sorted_points_spec E power HE Hsum). unfold UINT32_MAX. split.
    - intros [Hin | ->]; [exact Hin | lia].
    - intros Hin. by left. }
  split.
  - intros Hall k Hin Hle Hlt. apply Hall; [by apply Hmem | done..].
  - intros Hall k Hin Hle Hlt. apply Hall; [by apply Hmem | done..].
Qed.

(** Witness for X12: exponent 127 with power 2. *)
Lemma isValidTo_checkpoints_witness :
  Store.isValidTo (Store.new 127 2) Builder.zero_snapshots 127 = true
  <-> forall k, Store.shouldCheckpoint (Store.new 127 2) k = true ->
        k <= 127 -> k < 127 -> is_Some (Builder.zero_snapshots !! k).
Proof.
  apply (isValidTo_checkpoints 127 2 Builder.zero_snapshots 127);
    [lia | reflexivity | vm_compute; discriminate].
Defined.

(** X13: saving never invalidates a proof set: whatever [save] does to the
    directory (nothing, a whole snapshot, a truncated one), [isValidTo]
    stays true where it was true. *)
Theorem isValidTo_after_save ps (fault : Z -> write_fault) (dir : Store.directory)
    (iter : Z) (words : list Z) (limitK : Z) :
  Store.isValidTo ps dir limitK = true ->
  Store.isValidTo ps (Store.save ps fault dir iter words).1 limitK = true.
Proof.
  unfold Store.isValidTo. apply valid_from_more. intros k Hk. unfold Store.save.
  destruct (negb (Store.shouldCheckpoint ps iter)); [exact Hk|].
  destruct (fault iter); cbn [fst]; [|exact Hk|];
    (destruct (decide (k = iter)) as [-> | Hne];
     [rewrite lookup_insert_eq; by eexists | by rewrite lookup_insert_ne]).
Qed.

(** Witness for X13: a save that leaves three bytes of iteration 64. *)
Lemma isValidTo_after_save_witness :
  Store.isValidTo (Store.new 127 2)
    (Store.save (Store.new 127 2) (fun _ => ShortWrite 3) Builder.zero_snapshots 64
       [1; 2; 3; 4]).1 127 = true.
Proof.
  apply (isValidTo_after_save (Store.new 127 2) (fun _ => ShortWrite 3)
           Builder.zero_snapshots 64 [1; 2; 3; 4] 127).
  vm_compute. reflexivity.
Defined.

(** ** Proof builder *)

Section BuilderMore.
Import Builder.

Variable hashWords : Z -> list Z -> digest.
Variable hashWords_chain : Z -> digest -> list Z -> digest.

Lemma bind_Ok {A B : Type} (m : outcome A) (k : A -> outcome B) b :
  m ≫= k = Ok b -> exists a, m = Ok a /\ k a = Ok b.
Proof. destruct m as [a| |]; [by exists a | done | done]. Qed.

Lemma convertFromGMP_range e v words :
  Codec.convertFromGMP e v = Ok words -> Forall (fun w => 0 <= w < 2 ^ 32) words.
Proof.
  unfold Codec.convertFromGMP. destruct (_ =? _); [by intros [= <-]|].
  destruct (_ <=? _); [|done]. intros [= <-].
  apply Forall_app. split; [apply limbs_range | apply Forall_replicate; lia].
Qed.

(** A level that completes appends one middle, which [convertFromGMP]
    produced, and one hash, the low 64 bits of the chained digest. *)
Lemma level_Ok ps (dir : Store.directory) p mids hashes hash pool st' :
  level hashWords_chain ps dir p (mids, hashes, hash, pool) = Ok st' ->
  exists v words pool',
    Codec.convertFromGMP (Store.E ps) v = Ok words
    /\ st' = (mids ++ [words],
              hashes ++ [low64 (hashWords_chain (Store.E ps) hash words)],
              hashWords_chain (Store.E ps) hash words, pool').
Proof.
  unfold level. cbv zeta.
  intros (pool1 & _ & Hrest)%bind_Ok.
  apply bind_Ok in Hrest as ([pool2 bufIndex] & _ & Hrest).
  apply bind_Ok in Hrest as (slot0 & _ & Hrest).
  apply bind_Ok in Hrest as (words & Hconv & Hrest).
  destruct words as [|w words]; [done|]. injection Hrest as <-.
  by exists slot0, (w :: words), pool2.
Qed.

Lemma levels_Ok n : forall ps (dir : Store.directory) p mids hashes hash pool st',
  levels hashWords_chain n ps dir p (mids, hashes, hash, pool) = Ok st' ->
  exists new_mids new_hashes hash' pool',
    st' = (mids ++ new_mids, hashes ++ new_hashes, hash', pool')
    /\ length new_mids = n /\ length new_hashes = n
    /\ Forall (fun m => exists v, Codec.convertFromGMP (Store.E ps) v = Ok m) new_mids
    /\ Forall (fun h => 0 <= h < 2 ^ 64) new_hashes.
Proof.
  induction n as [|n IH]; intros ps dir p mids hashes hash pool st'; cbn [levels].
  - intros [= <-]. exists [], [], hash, pool. by rewrite !app_nil_r.
  - intros (st1 & Hlevel & Hrest)%bind_Ok.
    apply level_Ok in Hlevel as (v & words & pool1 & Hconv & ->).
    apply IH in Hrest as (ms & hs & hash' & pool' & -> & Hms & Hhs & Hall & Hrange).
    exists (words :: ms), (low64 (hashWords_chain (Store.E ps) hash words) :: hs), hash', pool'.
    rewrite <- !app_assoc. cbn [app length]. split; [done|].
    split; [by rewrite Hms|]. split; [by rewrite Hhs|].
    split; constructor; [by exists v | done | apply low64_range | done].
Qed.

End BuilderMore.

(** X14: a proof that [computeProof] returns carries the exponent, the final
    residue as [load] reads it from the file of iteration [E], and exactly
    [power] middles, each of [(E + 31) / 32] words within 32 bits. *)
Theorem computeProof_shape
    (hashWords : Z -> list Z -> Builder.digest)
    (hashWords_chain : Z -> Builder.digest -> list Z -> Builder.digest)
    ps (dir : Store.directory) (pf : Builder.Proof) :
  Builder.computeProof hashWords hashWords_chain ps dir = Ok pf ->
  Builder.E pf = Store.E ps
  /\ Store.load ps dir (Store.E ps) = Ok (Builder.B pf)
  /\ length (Builder.middles pf) = Z.to_nat (Store.power ps)
  /\ Forall (fun m => Z.of_nat (length m) = Codec.wordCount (Store.E ps)
                      /\ Forall (fun w => 0 <= w < 2 ^ 32) m) (Builder.middles pf).
Proof.
  unfold Builder.computeProof. intros (B & HB & Hrest)%bind_Ok. cbv zeta in Hrest.
  apply bind_Ok in Hrest as (st & Hlevels & Hrest).
  apply levels_Ok in Hlevels as (ms & hs & hash' & pool' & -> & Hms & _ & Hall & _).
  injection Hrest as <-. cbn [Builder.E Builder.B Builder.middles app].
  split; [done|]. split; [exact HB|]. split; [exact Hms|].
  eapply Forall_impl; [exact Hall|]. cbv beta. intros m [v Hv].
  split; [by eapply convertFromGMP_length | by eapply convertFromGMP_range].
Qed.

(** Witness for X14: the proof built from the zero snapshots. *)
Lemma computeProof_shape_witness :
  let pf := {| Builder.E := 127; Builder.B := [0; 0; 0; 0];
               Builder.middles := [[0; 0; 0; 0]; [0; 0; 0; 0]] |} in
  Builder.E pf = Store.E (Store.new 127 2)
  /\ Store.load (Store.new 127 2) Builder.zero_snapshots (Store.E (Store.new 127 2))
     = Ok (Builder.B pf)
  /\ length (Builder.middles pf) = Z.to_nat (Store.power (Store.new 127 2))
  /\ Forall (fun m => Z.of_nat (length m) = Codec.wordCount (Store.E (Store.new 127 2))
                      /\ Forall (fun w => 0 <= w < 2 ^ 32) m) (Builder.middles pf).
Proof.
  apply (computeProof_shape (fun _ _ => (0, 0, 0, 0)) (fun _ _ _ => (0, 0, 0, 0))
           (Store.new 127 2) Builder.zero_snapshots).
  vm_compute. reflexivity.
Defined.

(** X15: [computeProof] starts with the final residue: whatever [load]
    throws for iteration [E] is what [computeProof] throws, and when the
    file of iteration [E] is missing that is "Cannot open", for every
    exponent and power ([E] is always a checkpoint). *)
Theorem computeProof_needs_final_residue
    (hashWords : Z -> list Z -> Builder.digest)
    (hashWords_chain : Z -> Builder.digest -> list Z -> Builder.digest)
    ps (dir : Store.directory) :
  (forall e, Store.load ps dir (Store.E ps) = Throw e ->
     Builder.computeProof hashWords hashWords_chain ps dir = Throw e)
  /\ (dir !! Store.E ps = None ->
      Builder.computeProof hashWords hashWords_chain ps dir
      = Throw (CannotOpen (Store.E ps))).
Proof.
  assert (Hthrow : forall e, Store.load ps dir (Store.E ps) = Throw e ->
            Builder.computeProof hashWords hashWords_chain ps dir = Throw e).
  { intros e He. unfold Builder.computeProof. by rewrite He. }
  split; [exact Hthrow|]. intros Hnone. apply Hthrow.
  unfold Store.load, Store.shouldCheckpoint, Schedule.isInPoints.
  by rewrite Z.eqb_refl, Hnone.
Qed.

(** ** Backup manager: what is written is read back *)

Section BackupMore.
Import Backup.

Lemma bytes_cons c s :
  list_byte_of_string (String c s) = Ascii.byte_of_ascii c :: list_byte_of_string s.
Proof. reflexivity. Qed.

Lemma read_digits_cons b rest acc seen dgt :
  digit_of b = Some dgt ->
  read_digits (b :: rest) acc seen = read_digits rest (10 * acc + dgt) true.
Proof. intros H. cbn [read_digits]. by rewrite H. Qed.

Lemma read_digits_pos d : forall p,
  read_digits (list_byte_of_string (NilEmpty.string_of_uint d)) (Z.pos p) true
  = Some (Z.pos (Pos.of_uint_acc d p)).
Proof.
  induction d as [|d IH|d IH|d IH|d IH|d IH|d IH|d IH|d IH|d IH|d IH]; intros p;
    [reflexivity|..];
    cbn [NilEmpty.string_of_uint Pos.of_uint_acc]; rewrite bytes_cons;
    (erewrite read_digits_cons by (vm_compute; reflexivity));
    match goal with
    | |- read_digits _ ?acc true = Some (Z.pos (Pos.of_uint_acc _ ?q)) =>
        replace acc with (Z.pos q) by lia; apply IH
    end.
Qed.

Lemma read_digits_uint d seen :
  read_digits (list_byte_of_string (NilEmpty.string_of_uint d)) 0 seen
  = match d with
    | Decimal.Nil => if seen then Some 0 else None
    | _ => Some (Z.of_N (Pos.of_uint d))
    end.
Proof.
  revert seen.
  induction d as [|d IH|d IH|d IH|d IH|d IH|d IH|d IH|d IH|d IH|d IH]; intros seen;
    [reflexivity|..];
    cbn [NilEmpty.string_of_uint Pos.of_uint]; rewrite bytes_cons;
    (erewrite read_digits_cons by (vm_compute; reflexivity));
    [ change (10 * 0 + 0) with 0; rewrite IH; by destruct d
    | cbn [Z.mul Z.add Z.of_N]; apply read_digits_pos .. ].
Qed.

(** The decimal that [std::to_string] prints starts with a digit. *)
Lemma digits_head d :
  d <> Decimal.Nil ->
  exists b rest,
    list_byte_of_string (NilEmpty.string_of_uint d) = b :: rest
    /\ is_space b = false /\ (byte_val b =? 45) = false /\ (byte_val b =? 43) = false.
Proof.
  destruct d; [done|..]; intros _; cbn [NilEmpty.string_of_uint]; rewrite bytes_cons;
    eexists _, _; (split; [reflexivity|]); by vm_compute.
Qed.

Lemma to_uint_not_Nil n : N.to_uint n <> Decimal.Nil.
Proof. destruct n as [|p]; [done | apply DecimalPos.Unsigned.to_uint_nonnil]. Qed.

Lemma string_of_uint_nonnil d :
  d <> Decimal.Nil -> NilZero.string_of_uint d = NilEmpty.string_of_uint d.
Proof. by destruct d. Qed.

(** What [std::to_string] prints, [operator>>] reads back. *)
Lemma extract_uint64_to_string n :
  0 <= n < 2 ^ 64 -> extract_uint64 (list_byte_of_string (to_string n)) = Some n.
Proof.
  intros Hn. unfold to_string.
  pose proof (to_uint_not_Nil (Z.to_N n)) as Hnil.
  rewrite string_of_uint_nonnil by done.
  destruct (digits_head _ Hnil) as (b & rest & Hbytes & Hsp & Hminus & Hplus).
  pose proof (read_digits_uint (N.to_uint (Z.to_N n)) false) as Hread.
  unfold extract_uint64. rewrite Hbytes in *. cbn [skip_space]. rewrite Hsp, Hminus, Hplus.
  rewrite Hread. destruct (N.to_uint (Z.to_N n)) eqn:Hd; [done|..];
    rewrite <- Hd; change (Pos.of_uint ?d) with (N.of_uint d);
    rewrite DecimalN.Unsigned.of_to, Z2N.id by lia;
    (destruct (Z.ltb_spec n (2 ^ 64)); [done | lia]).
Qed.

Lemma extract_resume_to_string n :
  0 <= n < 2 ^ 64 -> extract_resume (Some (list_byte_of_string (to_string n))) = (true, n).
Proof.
  intros Hn. unfold to_string.
  pose proof (to_uint_not_Nil (Z.to_N n)) as Hnil.
  rewrite string_of_uint_nonnil by done.
  destruct (digits_head _ Hnil) as (b & rest & Hbytes & Hsp & Hminus & Hplus).
  pose proof (read_digits_uint (N.to_uint (Z.to_N n)) false) as Hread.
  unfold extract_resume. rewrite Hbytes in *. cbn [skip_space]. rewrite Hsp, Hminus, Hplus.
  rewrite Hread. destruct (N.to_uint (Z.to_N n)) eqn:Hd; [done|..];
    rewrite <- Hd; change (Pos.of_uint ?d) with (N.of_uint d);
    rewrite DecimalN.Unsigned.of_to, Z2N.id by lia;
    (destruct (Z.ltb_spec n (2 ^ 64)); [done | lia]).
Qed.

(** A decimal that does not fit 64 bits fails the extraction and leaves the
    largest value. *)
Lemma extract_resume_overflow n :
  2 ^ 64 <= n ->
  extract_resume (Some (list_byte_of_string (to_string n))) = (false, 2 ^ 64 - 1).
Proof.
  intros Hn. unfold to_string.
  pose proof (to_uint_not_Nil (Z.to_N n)) as Hnil.
  rewrite string_of_uint_nonnil by done.
  destruct (digits_head _ Hnil) as (b & rest & Hbytes & Hsp & Hminus & Hplus).
  pose proof (read_digits_uint (N.to_uint (Z.to_N n)) false) as Hread.
  unfold extract_resume. rewrite Hbytes in *. cbn [skip_space]. rewrite Hsp, Hminus, Hplus.
  rewrite Hread. destruct (N.to_uint (Z.to_N n)) eqn:Hd; [done|..];
    rewrite <- Hd; change (Pos.of_uint ?d) with (N.of_uint d);
    rewrite DecimalN.Unsigned.of_to, Z2N.id by lia;
    (destruct (Z.ltb_spec n (2 ^ 64)); [lia | done]).
Qed.

(** What [operator<<] prints for an [mpz_class], [operator>>] reads back. *)
Lemma extract_mpz_string_of_int v :
  extract_mpz (list_byte_of_string (NilZero.string_of_int (Z.to_int v))) = Some v.
Proof.
  assert (Hpos : forall p,
    extract_mpz (list_byte_of_string (NilZero.string_of_uint (Pos.to_uint p)))
    = Some (Z.pos p)).
  { intros p. pose proof (DecimalPos.Unsigned.to_uint_nonnil p) as Hnil.
    rewrite string_of_uint_nonnil by done.
    destruct (digits_head _ Hnil) as (b & rest & Hbytes & Hsp & Hminus & Hplus).
    pose proof (read_digits_uint (Pos.to_uint p) false) as Hread.
    unfold extract_mpz. rewrite Hbytes in *. cbn [skip_space]. rewrite Hsp, Hminus, Hplus.
    rewrite Hread. destruct (Pos.to_uint p) eqn:Hd; [done|..];
      rewrite <- Hd; by rewrite DecimalPos.Unsigned.of_to. }
  destruct v as [|p|p]; [reflexivity | apply Hpos |].
  cbn [Z.to_int NilZero.string_of_int]. rewrite bytes_cons.
  pose proof (DecimalPos.Unsigned.to_uint_nonnil p) as Hnil.
  rewrite string_of_uint_nonnil by done.
  pose proof (read_digits_uint (Pos.to_uint p) false) as Hread.
  unfold extract_mpz. cbn [skip_space].
  change (is_space (Ascii.byte_of_ascii "-")) with false.
  cbv beta iota zeta.
  match goal with
  | |- context [byte_val ?c =? 45] =>
      replace (byte_val c =? 45) with true by reflexivity
  end.
  cbv beta iota zeta.
  rewrite Hread. destruct (Pos.to_uint p) eqn:Hd; [done|..];
    rewrite <- Hd; by rewrite DecimalPos.Unsigned.of_to.
Qed.

(** *** The memory image of the state vector *)

Lemma bytes_of_u64s_length x : length (bytes_of_u64s x) = (8 * length x)%nat.
Proof.
  induction x as [|w x IH]; [done|].
  unfold bytes_of_u64s in *. cbn [flat_map]. rewrite length_app, IH, le_bytes_length.
  simpl. lia.
Qed.

Lemma bytes_of_u64s_app x y : bytes_of_u64s (x ++ y) = bytes_of_u64s x ++ bytes_of_u64s y.
Proof. unfold bytes_of_u64s. by rewrite flat_map_app. Qed.

Lemma u64s_of_bytes_of_u64s x :
  Forall (fun w => 0 <= w < 2 ^ 64) x -> u64s_of_bytes (bytes_of_u64s x) = x.
Proof.
  induction 1 as [|w x Hw _ IH]; [done|].
  unfold bytes_of_u64s in *. cbn [flat_map].
  pose proof (le_value_bytes 8 w) as Hval.
  change (le_bytes 8 w) with
    [byte_of w; byte_of (w / 256); byte_of (w / 256 / 256);
     byte_of (w / 256 / 256 / 256); byte_of (w / 256 / 256 / 256 / 256);
     byte_of (w / 256 / 256 / 256 / 256 / 256);
     byte_of (w / 256 / 256 / 256 / 256 / 256 / 256);
     byte_of (w / 256 / 256 / 256 / 256 / 256 / 256 / 256)] in *.
  cbn [app u64s_of_bytes]. rewrite Hval, IH. f_equal.
  apply Z.mod_small. simpl. lia.
Qed.

Lemma drop_bytes_of_u64s m : forall x,
  drop (8 * m) (bytes_of_u64s x) = bytes_of_u64s (drop m x).
Proof.
  induction m as [|m IH]; intros x; [done|].
  destruct x as [|w x]; [done|].
  replace (8 * S m)%nat with (8 + 8 * m)%nat by lia.
  rewrite <- drop_drop. cbn [drop]. by rewrite <- IH.
Qed.

(** [read] on a file of whole words: the words of the file replace the front
    of [x], the rest of [x] stays. *)
Lemma read_into_prefix y x :
  Forall (fun w => 0 <= w < 2 ^ 64) y -> Forall (fun w => 0 <= w < 2 ^ 64) x ->
  (length y <= length x)%nat ->
  read_into (bytes_of_u64s y) x = y ++ drop (length y) x.
Proof.
  intros Hy Hx Hlen. unfold read_into.
  rewrite take_ge by (rewrite !bytes_of_u64s_length; lia).
  rewrite bytes_of_u64s_length, drop_bytes_of_u64s, <- bytes_of_u64s_app.
  apply u64s_of_bytes_of_u64s, Forall_app. split; [exact Hy|].
  by apply Forall_drop.
Qed.

Lemma read_buffer_exact bm device :
  length device = Z.to_nat (vectorSize_ bm) -> read_buffer bm device = device.
Proof.
  intros Hlen. unfold read_buffer. cbv zeta. rewrite <- Hlen, Nat.ltb_irrefl.
  by rewrite take_ge.
Qed.

(** The files [saveState] leaves when nothing goes wrong. *)
Lemma saveState_files vectorSize savePath exponent mode b1 b2 (fs : files) device iter E_ptr :
  let bm := new vectorSize savePath exponent mode b1 b2 in
  let after := (saveState bm (fun _ => NoFault) fs device iter E_ptr).1 in
  after !! mersFilename_ bm = Some (bytes_of_u64s (read_buffer bm device))
  /\ after !! loopFilename_ bm = Some (list_byte_of_string (to_string (u64 (iter + 1))))
  /\ after !! exponentFilename_ bm
     = match E_ptr with
       | Some v =>
           if String.eqb mode "pm1"
           then Some (list_byte_of_string (NilZero.string_of_int (Z.to_int v)))
           else fs !! exponentFilename_ bm
       | None => fs !! exponentFilename_ bm
       end
  /\ forall other, other <> mersFilename_ bm -> other <> loopFilename_ bm ->
       other <> exponentFilename_ bm -> after !! other = fs !! other.
Proof.
  intros bm after.
  destruct (new_filenames_distinct vectorSize savePath exponent mode b1 b2)
    as (Hml & Hme & Hle). fold bm in Hml, Hme, Hle.
  destruct (saveState_final bm (fun _ => NoFault) fs device iter E_ptr Hml Hme Hle)
    as (Hmers & Hloop & Hexp & Hother). fold after in Hmers, Hloop, Hexp, Hother.
  split; [exact Hmers|]. split; [exact Hloop|]. split; [|exact Hother].
  rewrite Hexp. change (mode_ bm) with mode.
  destruct E_ptr as [v|]; [|done]. by destruct (String.eqb mode "pm1").
Qed.

Lemma loadState_resume bm (fs : files) x resume content :
  read_loop bm fs = Some resume -> 0 < resume ->
  fs !! mersFilename_ bm = Some content ->
  loadState bm fs x
  = Ok (read_into content x, resume, [LookingForLoop; Resuming resume; LoadedState]).
Proof.
  intros Hloop Hpos Hmers. unfold loadState. rewrite Hloop, Hmers.
  by destruct (Z.gtb_spec resume 0) as [_ | ?]; [|lia].
Qed.

(** *** [clearState] *)

(** As long as no file has the empty name, the existence test is the lookup
    of the name. *)
Lemma remove_if_exists_files stuck file printed (st : files * list string) :
  st.1 !! EmptyString = None -> stuck file = false ->
  (remove_if_exists stuck file printed st).1 = delete file st.1.
Proof.
  intros Hempty Hstuck. destruct st as [fs log]. cbn [fst] in Hempty.
  unfold remove_if_exists, open_in. rewrite Hstuck.
  destruct (String.eqb_spec file EmptyString) as [-> | _].
  - rewrite bool_decide_eq_false_2 by (by intros [? ?]).
    cbn [fst]. symmetry. by apply delete_id.
  - destruct (decide (is_Some (fs !! file))) as [Hs | Hn].
    + by rewrite bool_decide_eq_true_2.
    + rewrite bool_decide_eq_false_2 by done. cbn [fst]. symmetry. apply delete_id.
      by apply eq_None_not_Some.
Qed.

Lemma remove_if_exists_absent stuck file printed (st : files * list string) :
  st.1 !! EmptyString = None -> stuck file = false ->
  (remove_if_exists stuck file printed st).1 !! EmptyString = None.
Proof.
  intros Hempty Hstuck. rewrite remove_if_exists_files by done.
  apply lookup_delete_None. by right.
Qed.

Lemma clearState_files bm (fs : files) :
  fs !! EmptyString = None ->
  (clearState bm (fun _ => false) fs).1
  = delete (loop2Filename_ bm) (delete (qFilename_ bm) (delete (hqFilename_ bm)
      (delete (exponentFilename_ bm) (delete (loopFilename_ bm)
         (delete (mersFilename_ bm) fs))))).
Proof.
  intros Hempty. unfold clearState. cbv zeta.
  set (stuck := fun _ : string => false).
  set (st1 := remove_if_exists stuck (mersFilename_ bm) (mersFilename_ bm) (fs, [])).
  set (st2 := remove_if_exists stuck (loopFilename_ bm) (loopFilename_ bm) st1).
  set (st3 := remove_if_exists stuck (exponentFilename_ bm) (exponentFilename_ bm) st2).
  set (st4 := remove_if_exists stuck (hqFilename_ bm) (qFilename_ bm) st3).
  set (st5 := remove_if_exists stuck (qFilename_ bm) (qFilename_ bm) st4).
  assert (st1.1 !! EmptyString = None) as H1 by (by apply remove_if_exists_absent).
  assert (st2.1 !! EmptyString = None) as H2 by (by apply remove_if_exists_absent).
  assert (st3.1 !! EmptyString = None) as H3 by (by apply remove_if_exists_absent).
  assert (st4.1 !! EmptyString = None) as H4 by (by apply remove_if_exists_absent).
  assert (st5.1 !! EmptyString = None) as H5 by (by apply remove_if_exists_absent).
  rewrite remove_if_exists_files by done. subst st5.
  rewrite remove_if_exists_files by done. subst st4.
  rewrite remove_if_exists_files by done. subst st3.
  rewrite remove_if_exists_files by done. subst st2.
  rewrite remove_if_exists_files by done. subst st1.
  by rewrite remove_if_exists_files by done.
Qed.

Lemma clearState_lookup bm (fs : files) file :
  fs !! EmptyString = None ->
  (clearState bm (fun _ => false) fs).1 !! file
  = if bool_decide (file ∈ [mersFilename_ bm; loopFilename_ bm; exponentFilename_ bm;
                            hqFilename_ bm; qFilename_ bm; loop2Filename_ bm])
    then None else fs !! file.
Proof.
  intros Hempty. rewrite clearState_files, !lookup_delete by done.
  case_bool_decide as Hfile.
  - repeat case_decide; try done.
    exfalso. repeat (apply elem_of_cons in Hfile as [-> | Hfile]; [done|]).
    by apply elem_of_nil in Hfile.
  - repeat case_decide; try done; subst file; exfalso; apply Hfile;
      repeat first [apply list_elem_of_here | apply list_elem_of_further].
Qed.

(** *** Stage 2 *)

Lemma append_nonempty (p s : string) : s <> EmptyString -> p +:+ s <> EmptyString.
Proof. by destruct p, s. Qed.

(** With [b2 > 0] the constructor gives the three stage-2 files names that
    are not empty and differ. *)
Lemma new_stage2_names vectorSize savePath exponent mode b1 b2 :
  0 < b2 ->
  let bm := new vectorSize savePath exponent mode b1 b2 in
  String.eqb (hqFilename_ bm) EmptyString = false
  /\ String.eqb (qFilename_ bm) EmptyString = false
  /\ String.eqb (loop2Filename_ bm) EmptyString = false
  /\ hqFilename_ bm <> qFilename_ bm
  /\ hqFilename_ bm <> loop2Filename_ bm
  /\ qFilename_ bm <> loop2Filename_ bm.
Proof.
  intros Hb2. cbn [new hqFilename_ qFilename_ loop2Filename_].
  destruct (Z.gtb_spec b2 0) as [_ | ?]; [|lia].
  repeat split; try (apply String.eqb_neq, append_nonempty; discriminate);
    intros H; by repeat apply append_inj_prefix in H.
Qed.

Lemma tmp_buffer_length n : length (tmp_buffer (8 * Z.of_nat n)) = (8 * n)%nat.
Proof.
  unfold tmp_buffer. rewrite length_replicate.
  replace (8 * Z.of_nat n / 8) with (Z.of_nat n) by (Z.div_mod_to_equations; lia). lia.
Qed.

Lemma enqueue_read_whole (buf tmp : list byte) n :
  length buf = (8 * n)%nat -> length tmp = (8 * n)%nat ->
  enqueue_read buf (8 * Z.of_nat n) tmp = Ok buf.
Proof.
  intros Hbuf Htmp. unfold enqueue_read.
  destruct tmp as [|b tmp].
  { destruct buf; [done | simpl in *; lia]. }
  cbn [null_data orb].
  destruct (Z.ltb_spec (Z.of_nat (length buf)) (8 * Z.of_nat n)); [lia|].
  destruct (Z.ltb_spec (Z.of_nat (length (b :: tmp))) (8 * Z.of_nat n)); [lia|].
  rewrite take_ge, drop_ge by lia. by rewrite app_nil_r.
Qed.

Lemma enqueue_write_whole (buf tmp : list byte) n :
  length buf = (8 * n)%nat -> length tmp = (8 * n)%nat ->
  enqueue_write buf (8 * Z.of_nat n) tmp = Ok tmp.
Proof.
  intros Hbuf Htmp. unfold enqueue_write.
  destruct tmp as [|b tmp].
  { destruct buf; [done | simpl in *; lia]. }
  cbn [null_data orb].
  destruct (Z.ltb_spec (Z.of_nat (length buf)) (8 * Z.of_nat n)); [lia|].
  destruct (Z.ltb_spec (Z.of_nat (length (b :: tmp))) (8 * Z.of_nat n)); [lia|].
  rewrite take_ge, drop_ge by lia. by rewrite app_nil_r.
Qed.

Lemma write_from_whole (fs : files) file (tmp : list byte) n :
  String.eqb file EmptyString = false -> length tmp = (8 * n)%nat ->
  write_from (fun _ => NoFault) fs file (8 * Z.of_nat n) tmp = Ok (<[file := tmp]> fs).
Proof.
  intros Hname Htmp. unfold write_from. rewrite Hname.
  destruct (Z.ltb_spec (Z.of_nat (length tmp)) (8 * Z.of_nat n)); [lia|].
  cbn [write_file fst]. by rewrite take_ge by lia.
Qed.

(** A file of at most [bytes] bytes replaces the front of [tmp]. *)
Lemma stream_read_front (content tmp : list byte) n :
  (length content <= 8 * n)%nat -> length tmp = (8 * n)%nat ->
  stream_read content (8 * Z.of_nat n) tmp = Ok (content ++ drop (length content) tmp).
Proof.
  intros Hc Htmp. unfold stream_read. rewrite take_ge by lia.
  by destruct (Nat.ltb_spec (length tmp) (length content)); [lia|].
Qed.

Lemma extract_uint64_overflow n :
  2 ^ 64 <= n -> extract_uint64 (list_byte_of_string (to_string n)) = None.
Proof.
  intros Hn. unfold to_string.
  pose proof (to_uint_not_Nil (Z.to_N n)) as Hnil.
  rewrite string_of_uint_nonnil by done.
  destruct (digits_head _ Hnil) as (b & rest & Hbytes & Hsp & Hminus & Hplus).
  pose proof (read_digits_uint (N.to_uint (Z.to_N n)) false) as Hread.
  unfold extract_uint64. rewrite Hbytes in *. cbn [skip_space]. rewrite Hsp, Hminus, Hplus.
  rewrite Hread. destruct (N.to_uint (Z.to_N n)) eqn:Hd; [done|..];
    rewrite <- Hd; change (Pos.of_uint ?d) with (N.of_uint d);
    rewrite DecimalN.Unsigned.of_to, Z2N.id by lia;
    (destruct (Z.ltb_spec n (2 ^ 64)); [lia | done]).
Qed.

End BackupMore.

(** X16: what [saveState] writes without a fault, [loadState] reads back:
    with a device buffer and a vector [x] of [vectorSize_] words, the
    restarted run gets the saved words and resumes at [iter + 1], for every
    iteration below [2^64 - 1]. *)
Theorem saveState_then_loadState vectorSize savePath exponent mode b1 b2
    (fs : Backup.files) (device x : list Z) (iter : Z) (E_ptr : option Z) :
  let bm := Backup.new vectorSize savePath exponent mode b1 b2 in
  Forall (fun w => 0 <= w < 2 ^ 64) device ->
  length device = Z.to_nat vectorSize -> length x = Z.to_nat vectorSize ->
  0 <= iter < 2 ^ 64 - 1 ->
  Backup.loadState bm (Backup.saveState bm (fun _ => NoFault) fs device iter E_ptr).1 x
  = Ok (device, iter + 1,
        [Backup.LookingForLoop; Backup.Resuming (iter + 1); Backup.LoadedState]).
Proof.
  intros bm Hdev Hlen Hx Hiter.
  destruct (saveState_files vectorSize savePath exponent mode b1 b2 fs device iter E_ptr)
    as (Hmers & Hloop & _). fold bm in Hmers, Hloop.
  rewrite u64_small in Hloop by lia.
  erewrite loadState_resume;
    [ | unfold Backup.read_loop; rewrite Hloop; apply extract_uint64_to_string; lia
      | lia | exact Hmers ].
  rewrite read_buffer_exact by done.
  assert (Backup.read_into (Backup.bytes_of_u64s device) x = device) as ->; [|done].
  unfold Backup.read_into. rewrite !bytes_of_u64s_length, Hx, <- Hlen.
  rewrite take_ge by (rewrite bytes_of_u64s_length; lia).
  rewrite bytes_of_u64s_length.
  rewrite drop_ge by (rewrite bytes_of_u64s_length; lia).
  rewrite app_nil_r. by apply u64s_of_bytes_of_u64s.
Qed.

(** Witness for X16: two words saved at iteration 41. *)
Lemma saveState_then_loadState_witness :
  Backup.loadState (Backup.new 2 "ckpt" 127 "prp" 0 0)
    (Backup.saveState (Backup.new 2 "ckpt" 127 "prp" 0 0) (fun _ => NoFault) ∅
       [5; 6] 41 None).1 [0; 0]
  = Ok ([5; 6], 41 + 1,
        [Backup.LookingForLoop; Backup.Resuming (41 + 1); Backup.LoadedState]).
Proof.
  apply (saveState_then_loadState 2 "ckpt" 127 "prp" 0 0 ∅ [5; 6] [0; 0] 41 None);
    [repeat constructor; lia | reflexivity | reflexivity | lia].
Defined.

(** X17: a [.mers] file that holds fewer words than [x] is not refused:
    [loadState] overwrites the front of [x] with the words of the file, keeps
    the rest of [x] as the caller passed it, and resumes at the stored
    index. *)
Theorem loadState_short_mers (bm : Backup.manager) (fs : Backup.files)
    (x saved : list Z) (resume : Z) :
  Backup.read_loop bm fs = Some resume -> 0 < resume ->
  fs !! Backup.mersFilename_ bm = Some (Backup.bytes_of_u64s saved) ->
  Forall (fun w => 0 <= w < 2 ^ 64) saved -> Forall (fun w => 0 <= w < 2 ^ 64) x ->
  (length saved <= length x)%nat ->
  Backup.loadState bm fs x
  = Ok (saved ++ drop (length saved) x, resume,
        [Backup.LookingForLoop; Backup.Resuming resume; Backup.LoadedState]).
Proof.
  intros Hloop Hpos Hmers Hsaved Hx Hlen.
  rewrite (loadState_resume bm fs x resume _ Hloop Hpos Hmers).
  by rewrite read_into_prefix.
Qed.

(** Witness for X17: one word on file for a vector of three. *)
Lemma loadState_short_mers_witness :
  Backup.loadState (Backup.new 3 "ckpt" 127 "prp" 0 0)
    (<["ckpt/127prp.loop"%string := list_byte_of_string "9"]>
       {["ckpt/127prp.mers"%string := Backup.bytes_of_u64s [5]]}) [1; 2; 3]
  = Ok ([5] ++ drop (length [5]) [1; 2; 3], 9,
        [Backup.LookingForLoop; Backup.Resuming 9; Backup.LoadedState]).
Proof.
  apply (loadState_short_mers (Backup.new 3 "ckpt" 127 "prp" 0 0) _ [1; 2; 3] [5] 9);
    [vm_compute; reflexivity | lia | vm_compute; reflexivity
    | repeat constructor; lia | repeat constructor; lia | simpl; lia].
Defined.

(** X18: [loadExponent] after a [saveState] without a fault returns the
    number behind [E_ptr] (of either sign) when the mode is "pm1" and the
    pointer is not null; in every other case [saveState] leaves the exponent
    file alone and [loadExponent] returns what it returned before. *)
Theorem saveState_then_loadExponent vectorSize savePath exponent mode b1 b2
    (fs : Backup.files) (device : list Z) (iter : Z) (E_ptr : option Z) :
  let bm := Backup.new vectorSize savePath exponent mode b1 b2 in
  Backup.loadExponent bm (Backup.saveState bm (fun _ => NoFault) fs device iter E_ptr).1
  = match E_ptr with
    | Some v => if String.eqb mode "pm1" then v else Backup.loadExponent bm fs
    | None => Backup.loadExponent bm fs
    end.
Proof.
  intros bm.
  destruct (saveState_files vectorSize savePath exponent mode b1 b2 fs device iter E_ptr)
    as (_ & _ & Hexp & _). fold bm in Hexp.
  unfold Backup.loadExponent. rewrite Hexp.
  destruct E_ptr as [v|]; [|done]. destruct (String.eqb mode "pm1"); [|done].
  by rewrite extract_mpz_string_of_int.
Qed.

(** X19: when no removal fails (and no file has the empty name),
    [clearState] leaves none of the six files of the manager and does not
    touch any other file. *)
Theorem clearState_removes (bm : Backup.manager) (fs : Backup.files) :
  fs !! EmptyString = None ->
  let after := (Backup.clearState bm (fun _ => false) fs).1 in
  (forall file,
     file ∈ [Backup.mersFilename_ bm; Backup.loopFilename_ bm; Backup.exponentFilename_ bm;
             Backup.hqFilename_ bm; Backup.qFilename_ bm; Backup.loop2Filename_ bm] ->
     after !! file = None)
  /\ (forall file,
        file ∉ [Backup.mersFilename_ bm; Backup.loopFilename_ bm;
                Backup.exponentFilename_ bm; Backup.hqFilename_ bm;
                Backup.qFilename_ bm; Backup.loop2Filename_ bm] ->
        after !! file = fs !! file).
Proof.
  intros Hempty. cbv zeta. split; intros file Hfile; rewrite clearState_lookup by done.
  - by rewrite bool_decide_eq_true_2.
  - by rewrite bool_decide_eq_false_2.
Qed.

(** Witness for X19: the three files of a PRP run and one file of another
    program. *)
Lemma clearState_removes_witness :
  let bm := Backup.new 2 "ckpt" 127 "prp" 0 0 in
  let fs : Backup.files :=
    <["ckpt/127prp.loop"%string := list_byte_of_string "9"]>
      (<["ckpt/127prp.mers"%string := Backup.bytes_of_u64s [5; 6]]>
         {["notes.txt"%string := list_byte_of_string "keep"]}) in
  let after := (Backup.clearState bm (fun _ => false) fs).1 in
  (forall file,
     file ∈ [Backup.mersFilename_ bm; Backup.loopFilename_ bm; Backup.exponentFilename_ bm;
             Backup.hqFilename_ bm; Backup.qFilename_ bm; Backup.loop2Filename_ bm] ->
     after !! file = None)
  /\ (forall file,
        file ∉ [Backup.mersFilename_ bm; Backup.loopFilename_ bm;
                Backup.exponentFilename_ bm; Backup.hqFilename_ bm;
                Backup.qFilename_ bm; Backup.loop2Filename_ bm] ->
        after !! file = fs !! file).
Proof.
  apply (clearState_removes (Backup.new 2 "ckpt" 127 "prp" 0 0)
           (<["ckpt/127prp.loop"%string := list_byte_of_string "9"]>
              (<["ckpt/127prp.mers"%string := Backup.bytes_of_u64s [5; 6]]>
                 {["notes.txt"%string := list_byte_of_string "keep"]}))).
  vm_compute. reflexivity.
Defined.

(** X20: after [clearState] (no removal failing, no file with the empty
    name) a restart finds nothing:
    [loadState] starts from the fresh state with index 0, [loadExponent]
    returns 0, and [loadStatePM1S2] returns 0 and leaves both device buffers
    alone. *)
Theorem clearState_then_restart (bm : Backup.manager) (fs : Backup.files)
    (hqBuf qBuf : list byte) (x : list Z) (bytes : Z) :
  let after := (Backup.clearState bm (fun _ => false) fs).1 in
  fs !! EmptyString = None -> x <> [] ->
  Backup.loadState bm after x
  = Ok (Backup.fresh (if String.eqb (Backup.mode_ bm) "prp" then 3 else 4) x, 0,
        [Backup.LookingForLoop; Backup.FreshState])
  /\ Backup.loadExponent bm after = 0
  /\ Backup.loadStatePM1S2 bm after hqBuf qBuf bytes = Ok (0, hqBuf, qBuf).
Proof.
  intros after Hempty Hx. subst after. split; [|split].
  - apply loadState_fresh; [exact Hx|]. left. unfold Backup.read_loop.
    rewrite clearState_lookup, bool_decide_eq_true_2; [done| |done].
    repeat first [apply list_elem_of_here | apply list_elem_of_further].
  - unfold Backup.loadExponent.
    rewrite clearState_lookup, bool_decide_eq_true_2; [done| |done].
    repeat first [apply list_elem_of_here | apply list_elem_of_further].
  - unfold Backup.loadStatePM1S2, Backup.open_in.
    destruct (String.eqb _ _); [done|].
    rewrite clearState_lookup, bool_decide_eq_true_2; [done| |done].
    repeat first [apply list_elem_of_here | apply list_elem_of_further].
Qed.

(** Witness for X20: a P-1 run with a loop file holding 9. *)
Lemma clearState_then_restart_witness :
  let bm := Backup.new 2 "ckpt" 127 "pm1" 1000 0 in
  let after := (Backup.clearState bm (fun _ => false)
                  {["ckpt/127pm11000.loop"%string := list_byte_of_string "9"]}).1 in
  Backup.loadState bm after [7; 7]
  = Ok (Backup.fresh (if String.eqb (Backup.mode_ bm) "prp" then 3 else 4) [7; 7], 0,
        [Backup.LookingForLoop; Backup.FreshState])
  /\ Backup.loadExponent bm after = 0
  /\ Backup.loadStatePM1S2 bm after [] [] 0 = Ok (0, [], []).
Proof.
  apply (clearState_then_restart (Backup.new 2 "ckpt" 127 "pm1" 1000 0)
           {["ckpt/127pm11000.loop"%string := list_byte_of_string "9"]} [] [] [7; 7] 0);
    [vm_compute; reflexivity | done].
Defined.

(** X21: stage 2 round trip: with [b2 > 0], buffers of [bytes = 8 n] bytes
    and no fault, [saveStatePM1S2] at index [idx < 2^64 - 1] followed by
    [loadStatePM1S2] returns [idx + 1] and puts the saved contents of both
    device buffers back. *)
Theorem saveStatePM1S2_then_loadStatePM1S2 vectorSize savePath exponent mode b1 b2
    (fs : Backup.files) (hqBuf qBuf hqDev qDev : list byte) (idx : Z) (n : nat) :
  let bm := Backup.new vectorSize savePath exponent mode b1 b2 in
  0 < b2 -> 0 <= idx < 2 ^ 64 - 1 ->
  length hqBuf = (8 * n)%nat -> length qBuf = (8 * n)%nat ->
  length hqDev = (8 * n)%nat -> length qDev = (8 * n)%nat ->
  exists after,
    Backup.saveStatePM1S2 bm (fun _ => NoFault) fs hqBuf qBuf idx (8 * Z.of_nat n)
    = Ok after
    /\ Backup.loadStatePM1S2 bm after hqDev qDev (8 * Z.of_nat n)
       = Ok (idx + 1, hqBuf, qBuf).
Proof.
  intros bm Hb2 Hidx Hhq Hq Hhq0 Hq0.
  destruct (new_stage2_names vectorSize savePath exponent mode b1 b2 Hb2)
    as (Nhq & Nq & Nl & Hhq_q & Hhq_l & Hq_l). fold bm in Nhq, Nq, Nl, Hhq_q, Hhq_l, Hq_l.
  pose proof (tmp_buffer_length n) as Htmp.
  eexists. split.
  - unfold Backup.saveStatePM1S2. cbv zeta.
    rewrite enqueue_read_whole by done. cbn [mbind outcome_bind].
    rewrite write_from_whole by done. cbn [mbind outcome_bind].
    rewrite enqueue_read_whole by done. cbn [mbind outcome_bind].
    rewrite write_from_whole by done. cbn [mbind outcome_bind].
    rewrite Nl. cbn [Backup.write_file fst]. reflexivity.
  - unfold Backup.loadStatePM1S2, Backup.restore, Backup.open_in. rewrite Nhq, Nq, Nl.
    assert (Backup.loop2Filename_ bm <> Backup.hqFilename_ bm
            /\ Backup.loop2Filename_ bm <> Backup.qFilename_ bm
            /\ Backup.qFilename_ bm <> Backup.hqFilename_ bm) as (? & ? & ?)
      by (repeat split; congruence).
    rewrite lookup_insert_eq, u64_small, extract_resume_to_string by lia.
    destruct (Z.gtb_spec (idx + 1) 0) as [_ | ?]; [|lia]. cbn [andb].
    rewrite (lookup_insert_ne _ _ (Backup.hqFilename_ bm)) by done.
    rewrite (lookup_insert_ne _ _ (Backup.hqFilename_ bm)) by done.
    rewrite lookup_insert_eq.
    rewrite (lookup_insert_ne _ _ (Backup.qFilename_ bm)) by done.
    rewrite lookup_insert_eq.
    rewrite stream_read_front by lia. cbn [mbind outcome_bind].
    rewrite Hhq, drop_ge, app_nil_r by lia.
    rewrite enqueue_write_whole by done. cbn [mbind outcome_bind].
    rewrite stream_read_front by lia. cbn [mbind outcome_bind].
    rewrite Hq, drop_ge, app_nil_r by lia.
    by rewrite enqueue_write_whole by done.
Qed.

(** Witness for X21: buffers of 8 bytes saved at index 6. *)
Lemma saveStatePM1S2_then_loadStatePM1S2_witness :
  exists after,
    Backup.saveStatePM1S2 (Backup.new 2 "ckpt" 127 "pm1" 1000 20000) (fun _ => NoFault) ∅
      (replicate 8 Byte.x01) (replicate 8 Byte.x02) 6 (8 * Z.of_nat 1)
    = Ok after
    /\ Backup.loadStatePM1S2 (Backup.new 2 "ckpt" 127 "pm1" 1000 20000) after
         (replicate 8 Byte.x00) (replicate 8 Byte.x00) (8 * Z.of_nat 1)
       = Ok (6 + 1, replicate 8 Byte.x01, replicate 8 Byte.x02).
Proof.
  apply (saveStatePM1S2_then_loadStatePM1S2 2 "ckpt" 127 "pm1" 1000 20000 ∅
           (replicate 8 Byte.x01) (replicate 8 Byte.x02)
           (replicate 8 Byte.x00) (replicate 8 Byte.x00) 6 1);
    [lia | lia | reflexivity..].
Defined.

(** X22: [loadStatePM1S2] reads both files through one host buffer and
    does not clear it in between: when the [.q] file holds fewer than [bytes]
    bytes, the q device buffer receives the bytes of the file followed by the
    bytes of the [.hq] file at the same positions. *)
Theorem loadStatePM1S2_short_q (bm : Backup.manager) (fs : Backup.files)
    (hqDev qDev hq q content : list byte) (resume : Z) (n : nat) :
  Backup.open_in fs (Backup.loop2Filename_ bm) = Some content ->
  Backup.extract_resume (Some content) = (true, resume) -> 0 < resume ->
  Backup.open_in fs (Backup.hqFilename_ bm) = Some hq ->
  Backup.open_in fs (Backup.qFilename_ bm) = Some q ->
  length hq = (8 * n)%nat -> (length q <= 8 * n)%nat ->
  length hqDev = (8 * n)%nat -> length qDev = (8 * n)%nat ->
  Backup.loadStatePM1S2 bm fs hqDev qDev (8 * Z.of_nat n)
  = Ok (resume, hq, q ++ drop (length q) hq).
Proof.
  intros Hloop Hres Hpos Hhq Hq Lhq Lq Lhd Lqd.
  pose proof (tmp_buffer_length n) as Htmp.
  unfold Backup.loadStatePM1S2, Backup.restore. rewrite Hloop, Hres, Hhq, Hq.
  destruct (Z.gtb_spec resume 0) as [_ | ?]; [|lia]. cbn [andb].
  rewrite stream_read_front by lia. cbn [mbind outcome_bind].
  rewrite Lhq, drop_ge, app_nil_r by lia.
  rewrite enqueue_write_whole by done. cbn [mbind outcome_bind].
  rewrite stream_read_front by lia. cbn [mbind outcome_bind].
  rewrite enqueue_write_whole; [done | done |].
  rewrite length_app, length_drop. lia.
Qed.

(** Witness for X22: 8 bytes of [.hq], 3 bytes of [.q]. *)
Lemma loadStatePM1S2_short_q_witness :
  Backup.loadStatePM1S2 (Backup.new 2 "ckpt" 127 "pm1" 1000 20000)
    (<["ckpt/127pm11000_20000.loop2"%string := list_byte_of_string "7"]>
       (<["ckpt/127pm11000_20000.hq"%string := replicate 8 Byte.x01]>
          {["ckpt/127pm11000_20000.q"%string := replicate 3 Byte.x02]}))
    (replicate 8 Byte.x00) (replicate 8 Byte.x00) (8 * Z.of_nat 1)
  = Ok (7, replicate 8 Byte.x01,
        replicate 3 Byte.x02 ++ drop (length (replicate 3 Byte.x02)) (replicate 8 Byte.x01)).
Proof.
  apply (loadStatePM1S2_short_q (Backup.new 2 "ckpt" 127 "pm1" 1000 20000) _
           (replicate 8 Byte.x00) (replicate 8 Byte.x00)
           (replicate 8 Byte.x01) (replicate 3 Byte.x02) (list_byte_of_string "7") 7 1);
    [vm_compute; reflexivity | vm_compute; reflexivity | lia
    | vm_compute; reflexivity | vm_compute; reflexivity
    | reflexivity | simpl; lia | reflexivity | reflexivity].
Defined.

(** X23: a stored index that does not fit 64 bits: [loadStatePM1S2] restores
    nothing and returns [2^64 - 1] (the value a failed extraction leaves, which
    it does not reset), whereas [loadState] on the same text starts from the
    fresh state and returns 0. *)
Theorem loadStatePM1S2_overflowing_index (bm : Backup.manager) (fs : Backup.files)
    (hqBuf qBuf : list byte) (x : list Z) (bytes n : Z) :
  2 ^ 64 <= n ->
  (Backup.open_in fs (Backup.loop2Filename_ bm)
   = Some (list_byte_of_string (Backup.to_string n)) ->
   Backup.loadStatePM1S2 bm fs hqBuf qBuf bytes = Ok (2 ^ 64 - 1, hqBuf, qBuf))
  /\ (fs !! Backup.loopFilename_ bm = Some (list_byte_of_string (Backup.to_string n)) ->
      x <> [] ->
      Backup.loadState bm fs x
      = Ok (Backup.fresh (if String.eqb (Backup.mode_ bm) "prp" then 3 else 4) x, 0,
            [Backup.LookingForLoop; Backup.FreshState])).
Proof.
  intros Hn. split.
  - intros Hloop. unfold Backup.loadStatePM1S2.
    by rewrite Hloop, extract_resume_overflow.
  - intros Hloop Hx. apply loadState_fresh; [exact Hx|]. left.
    unfold Backup.read_loop. rewrite Hloop. by apply extract_uint64_overflow.
Qed.

(** Witness for X23: the text of [2^64] in both loop files. *)
Lemma loadStatePM1S2_overflowing_index_witness :
  let bm := Backup.new 2 "ckpt" 127 "pm1" 1000 20000 in
  let fs : Backup.files :=
    <["ckpt/127pm11000_20000.loop2"%string := list_byte_of_string (Backup.to_string (2 ^ 64))]>
      {["ckpt/127pm11000.loop"%string := list_byte_of_string (Backup.to_string (2 ^ 64))]} in
  (Backup.open_in fs (Backup.loop2Filename_ bm)
   = Some (list_byte_of_string (Backup.to_string (2 ^ 64))) ->
   Backup.loadStatePM1S2 bm fs [] [] 0 = Ok (2 ^ 64 - 1, [], []))
  /\ (fs !! Backup.loopFilename_ bm = Some (list_byte_of_string (Backup.to_string (2 ^ 64))) ->
      [1; 2] <> [] ->
      Backup.loadState bm fs [1; 2]
      = Ok (Backup.fresh (if String.eqb (Backup.mode_ bm) "prp" then 3 else 4) [1; 2], 0,
            [Backup.LookingForLoop; Backup.FreshState])).
Proof.
  apply (loadStatePM1S2_overflowing_index (Backup.new 2 "ckpt" 127 "pm1" 1000 20000) _
           [] [] [1; 2] 0 (2 ^ 64)).
  lia.
Defined.

(** ** Checkpoint schedule: the points are distinct *)

Section ScheduleDistinct.
Import Schedule.

(** Points that are pairwise more than [r] apart. *)
Let apart (r : Z) (pts : list Z) : Prop :=
  NoDup pts /\ forall p q, p ∈ pts -> q ∈ pts -> p <> q -> r < Z.abs (p - q).

Lemma push_level_apart s r pts :
  0 <= r -> r < s ->
  Forall (fun p => 0 <= p /\ p + s < 2 ^ 32) pts ->
  apart (s + r) pts -> apart r (push_level s pts).
Proof.
  intros Hr Hs Hfit [Hnd Hfar].
  assert (Hmap : map (fun p => u32 (p + s)) pts = map (fun p => p + s) pts).
  { apply map_ext_in. intros p Hp%list_elem_of_In.
    rewrite Forall_forall in Hfit. specialize (Hfit _ Hp). simpl in Hfit.
    apply u32_small. lia. }
  unfold push_level. rewrite Hmap. split.
  - apply NoDup_app. split; [exact Hnd|]. split.
    + intros p Hp (q & -> & Hq)%list_elem_of_fmap.
      destruct (Z.eq_dec (q + s) q) as [? | Hne]; [lia|].
      specialize (Hfar _ _ Hp Hq Hne). lia.
    + apply NoDup_fmap_2; [intros a b; lia | exact Hnd].
  - intros p q Hp Hq Hne.
    apply elem_of_app in Hp as [Hp | (p' & -> & Hp)%list_elem_of_fmap];
      apply elem_of_app in Hq as [Hq | (q' & -> & Hq)%list_elem_of_fmap].
    + specialize (Hfar _ _ Hp Hq Hne). lia.
    + destruct (Z.eq_dec p q') as [-> | Hne']; [lia|].
      specialize (Hfar _ _ Hp Hq Hne'). lia.
    + destruct (Z.eq_dec p' q) as [-> | Hne']; [lia|].
      specialize (Hfar _ _ Hp Hq Hne'). lia.
    + assert (p' <> q') as Hne' by lia.
      specialize (Hfar _ _ Hp Hq Hne'). lia.
Qed.

(** When every span exceeds the sum of the spans after it, [grow] keeps the
    points distinct. *)
Lemma grow_NoDup n : forall s pts,
  0 <= s < 2 ^ 31 ->
  sumZ (spans_from n s) <= 2 * s - 1 \/ n = O ->
  Forall (fun p => 0 <= p /\ p + sumZ (spans_from n s) < 2 ^ 32) pts ->
  apart (sumZ (spans_from n s)) pts ->
  NoDup (grow n s pts).
Proof.
  induction n as [|n IH]; intros s pts Hs Hsum Hfit Hap; [by destruct Hap|].
  destruct Hsum as [Hsum | ?]; [|done].
  cbn [grow]. cbn [spans_from sumZ] in Hsum, Hfit, Hap.
  destruct (next_span_small s Hs) as (_ & Hr & Hhalf).
  pose proof (sum_spans_nonneg n _ Hr) as Hnn.
  assert (Hmap : map (fun p => u32 (p + s)) pts = map (fun p => p + s) pts).
  { apply map_ext_in. intros p Hp%list_elem_of_In.
    rewrite Forall_forall in Hfit. specialize (Hfit _ Hp). simpl in Hfit.
    apply u32_small. lia. }
  apply IH; [exact Hr | | |].
  - destruct n as [|n]; [by right | left].
    cbn [spans_from sumZ] in *. 
    destruct (next_span_small _ Hr) as (_ & Hr' & _).
    pose proof (sum_spans_nonneg n _ Hr'). lia.
  - unfold push_level. rewrite Hmap. apply Forall_app. split.
    + eapply Forall_impl; [exact Hfit|]. simpl. intros p ?. lia.
    + apply Forall_forall. intros v (p & -> & Hp)%list_elem_of_fmap.
      rewrite Forall_forall in Hfit. specialize (Hfit _ Hp). simpl in Hfit. lia.
  - apply push_level_apart; [lia | lia | | exact Hap].
    eapply Forall_impl; [exact Hfit|]. simpl. intros p ?. lia.
Qed.

End ScheduleDistinct.

Lemma sorted_points_NoDup (E power : Z) :
  0 <= E < 2 ^ 32 - 1 -> E mod 2 = 1 ->
  Schedule.sumZ (Schedule.spans E power) < E ->
  NoDup (Schedule.sorted_points E power).
Proof.
  intros HE Hodd Hsum.
  pose proof (first_span_range E ltac:(lia)) as Hs0.
  pose proof (first_span_odd E HE Hodd) as H2.
  unfold Schedule.spans in Hsum.
  pose proof (sum_spans_nonneg (Z.to_nat power) _ Hs0) as Hnn.
  unfold Schedule.sorted_points. rewrite merge_sort_Permutation.
  destruct (grow_spec (Z.to_nat power) (Schedule.first_span E) [0] Hs0)
    as (added & Hg & Hin).
  { apply Forall_singleton. lia. }
  pose proof (grow_NoDup (Z.to_nat power) (Schedule.first_span E) [0] Hs0) as Hgrow.
  rewrite Hg in Hgrow |- *. cbn [app Schedule.set_front] in *.
  apply NoDup_cons. split.
  - intros (p & ->%list_elem_of_singleton & Hh)%Hin.
    apply hit_bounds in Hh; [lia | exact Hs0].
  - eapply NoDup_cons_1_2, Hgrow; [left; lia | apply Forall_singleton; lia |].
    split; [apply NoDup_singleton|].
    intros p q ->%list_elem_of_singleton ->%list_elem_of_singleton. done.
Qed.

(** X24: for an odd exponent below [2^32 - 1] whose spans sum to less than
    [E], the array the constructor leaves (guard element included) has no
    value twice: the [2^power] checkpoints are pairwise distinct. *)
Theorem sorted_points_distinct (E power : Z) :
  0 <= E < 2 ^ 32 - 1 -> E mod 2 = 1 ->
  Schedule.sumZ (Schedule.spans E power) < E ->
  NoDup (Schedule.ProofSet E power).
Proof.
  intros HE Hodd Hsum. unfold Schedule.ProofSet. rewrite Hodd. cbn [Z.eqb negb].
  pose proof (first_span_range E ltac:(lia)) as Hs0.
  apply NoDup_app. split; [by apply sorted_points_NoDup|].
  split; [|apply NoDup_singleton].
  intros v Hv ->%list_elem_of_singleton.
  pose proof (sorted_points_spec E power ltac:(lia) ltac:(lia)) as Hspec.
  apply Hspec in Hv as [Hv | Hh]; [unfold UINT32_MAX in Hv; lia|].
  unfold Schedule.spans in Hsum.
  apply hit_bounds in Hh; [unfold UINT32_MAX in Hh; lia | exact Hs0].
Qed.

(** Witness for X24: exponent 521 with power 3. *)
Lemma sorted_points_distinct_witness : NoDup (Schedule.ProofSet 521 3).
Proof.
  apply (sorted_points_distinct 521 3); [lia | reflexivity | vm_compute; reflexivity].
Defined.

(** ** Checkpoint schedule: where the schedule property holds *)

Lemma sorted_strict (l : list Z) :
  StronglySorted Z.le l -> NoDup l -> Sorted Z.lt l.
Proof.
  induction 1 as [|a l Hsorted IH Hall]; intros Hnd; [constructor|].
  apply NoDup_cons in Hnd as [Hnotin Hnd].
  constructor; [by apply IH|].
  destruct l as [|b l]; constructor.
  apply Forall_cons in Hall as [Hab _].
  assert (a <> b) by (intros ->; apply Hnotin; left). lia.
Qed.

(** For every odd exponent [E] below [2^32 - 1] and every power in [[2, 12]]
    whose spans [s_0 = (E+1)/2, s_(i+1) = (s_i+1)/2] sum to less than [E],
    the constructor leaves [2^power] points before the guard element, in
    strictly ascending order with largest element [E], and
    [isInPoints E power k] is true exactly when [k] is in the array, for
    every [k] in [[0, E]]. *)
Lemma schedule_correct (E power : Z) :
  0 <= E < 2 ^ 32 - 1 -> E mod 2 = 1 -> 2 <= power <= 12 ->
  Schedule.sumZ (Schedule.spans E power) < E ->
  Schedule.schedule_ok E power.
Proof.
  intros HE Hodd Hpow Hsum.
  assert (HE' : 0 <= E < 2 ^ 32) by lia.
  assert (Hsum' : Schedule.sumZ (Schedule.spans E power) <= E) by lia.
  exists (Schedule.sorted_points E power).
  assert (Hbody : Schedule.ProofSet E power
                  = Schedule.sorted_points E power ++ [UINT32_MAX]).
  { unfold Schedule.ProofSet. rewrite Hodd. reflexivity. }
  split; [exact Hbody|]. split; [|split; [|split]].
  - apply sorted_points_length. lia.
  - apply sorted_strict; [|by apply sorted_points_NoDup].
    apply StronglySorted_merge_sort; [intros x y z; lia | intros x y; lia].
  - by apply sorted_points_last.
  - intros k Hk.
    rewrite isInPoints_spec, Hbody, elem_of_app, list_elem_of_singleton by done.
    rewrite (sorted_points_spec E power HE' Hsum'). split; [by left|].
    intros [Hin | ->]; [exact Hin | left; unfold UINT32_MAX in *; lia].
Qed.

(** The schedule of exponent 521 with power 3. *)
Lemma schedule_correct_witness : Schedule.schedule_ok 521 3.
Proof.
  apply (schedule_correct 521 3); [lia | reflexivity | lia | vm_compute; reflexivity].
Defined.

(** ** Proof builder: every checkpoint is loaded *)

Lemma shiftl_1_u32 x : 0 <= x < 32 -> u32 (Z.shiftl 1 x) = 2 ^ x.
Proof.
  intros Hx. rewrite Z.shiftl_1_l. apply u32_small.
  split; [apply Z.pow_nonneg; lia | apply Z.pow_lt_mono_r; lia].
Qed.

(** Every positive number below [2^n] is an odd number times a power of two
    below [2^n]. *)
Lemma odd_part (n : nat) : forall m,
  1 <= m < 2 ^ Z.of_nat n ->
  exists t i, 0 <= t < Z.of_nat n /\ 0 <= i < 2 ^ (Z.of_nat n - 1 - t)
              /\ m = 2 ^ t * (i * 2 + 1).
Proof.
  induction n as [|n IH]; intros m Hm; [simpl in Hm; lia|].
  rewrite Nat2Z.inj_succ, Z.pow_succ_r in Hm by lia.
  destruct (Z.odd m) eqn:Hodd.
  - exists 0, (m / 2). pose proof (Zmod_odd m) as Hmod. rewrite Hodd in Hmod.
    replace (Z.of_nat (S n) - 1 - 0) with (Z.of_nat n) by lia.
    split; [lia|]. split; [Z.div_mod_to_equations; lia|].
    rewrite Z.pow_0_r. Z.div_mod_to_equations. lia.
  - assert (m mod 2 = 0) as Heven.
    { rewrite Zmod_odd, Hodd. reflexivity. }
    destruct (IH (m / 2)) as (t & i & Ht & Hi & Heq).
    { Z.div_mod_to_equations. lia. }
    exists (t + 1), i.
    replace (Z.of_nat (S n) - 1 - (t + 1)) with (Z.of_nat n - 1 - t) by lia.
    split; [lia|]. split; [exact Hi|].
    rewrite Z.pow_add_r, Z.pow_1_r by lia.
    rewrite (Z.div_mod m 2) by lia. rewrite Heven, Heq. lia.
Qed.

Section BuilderLoads.
Import Builder.

Variable hashWords_chain : Z -> digest -> list Z -> digest.

(** A loop over the buffers that completes has completed each of its
    turns. *)
Lemma level_loop_turn n : forall ps (dir : Store.directory) p s i hashes st st' (d : nat),
  level_loop n ps dir p s i hashes st = Ok st' ->
  (d < n)%nat -> 0 <= i -> i + Z.of_nat n <= 2 ^ 32 ->
  exists st1 st2, level_body ps dir p s (i + Z.of_nat d) hashes st1 = Ok st2.
Proof.
  induction n as [|n IH]; intros ps dir p s i hashes st st' d Hrun Hd Hi Hfit; [lia|].
  cbn [level_loop] in Hrun. apply bind_Ok in Hrun as (st1 & Hbody & Hrest).
  destruct d as [|d].
  - exists st, st1. by rewrite Z.add_0_r.
  - rewrite u32_small in Hrest by lia.
    destruct (IH _ _ _ _ _ _ _ _ d Hrest ltac:(lia) ltac:(lia) ltac:(lia)) as (a & b & Hab).
    exists a, b. by replace (i + Z.of_nat (S d)) with (i + 1 + Z.of_nat d) by lia.
Qed.

(** A turn that reaches a checkpoint has loaded it. *)
Lemma level_body_loads ps (dir : Store.directory) p s i hashes st st' j k :
  level_body ps dir p s i hashes st = Ok st' ->
  u32 (s * (i * 2 + 1) - 1) = Z.of_nat j ->
  Store.points ps !! j = Some k -> k <= Store.E ps ->
  Store.shouldCheckpoint ps k = true ->
  exists w, Store.load ps dir k = Ok w.
Proof.
  destruct st as [pool bufIndex]. unfold level_body. cbv zeta.
  intros Hrun Hci Hj Hk Hck. rewrite Hci in Hrun.
  pose proof (lookup_lt_Some _ _ _ Hj) as Hlt.
  destruct (Z.geb_spec (Z.of_nat j) (Z.of_nat (length (Store.points ps)))) as [? | _]; [lia|].
  unfold at_index in Hrun. rewrite Nat2Z.id, Hj in Hrun. cbn [mbind outcome_bind] in Hrun.
  destruct (Z.gtb_spec k (Store.E ps)) as [? | _]; [lia|]. rewrite Hck in Hrun.
  cbn [negb orb] in Hrun. apply bind_Ok in Hrun as (w & Hload & _). by exists w.
Qed.

(** A level that completes has run its loop over the buffers to the end. *)
Lemma level_runs_loop ps (dir : Store.directory) p st st' :
  0 <= p < 32 -> 0 <= Store.power ps - p - 1 < 32 ->
  level hashWords_chain ps dir p st = Ok st' ->
  exists hashes st1 st2,
    level_loop (Z.to_nat (2 ^ p)) ps dir p (2 ^ (Store.power ps - p - 1)) 0 hashes st1
    = Ok st2.
Proof.
  intros Hp Hs. destruct st as [[[mids hashes] hash] pool]. unfold level. cbv zeta.
  rewrite (u32_small (Store.power ps - p - 1)) by lia.
  rewrite !shiftl_1_u32 by lia.
  intros (pool1 & _ & Hrest)%bind_Ok.
  apply bind_Ok in Hrest as ([pool2 bufIndex] & Hloop & _).
  by exists hashes, (pool1, 0), (pool2, bufIndex).
Qed.

(** A run over the levels that completes has completed each level. *)
Lemma levels_turn n : forall ps (dir : Store.directory) p st st' (d : nat),
  levels hashWords_chain n ps dir p st = Ok st' ->
  (d < n)%nat -> 0 <= p -> p + Z.of_nat n <= 2 ^ 32 ->
  exists st1 st2, level hashWords_chain ps dir (p + Z.of_nat d) st1 = Ok st2.
Proof.
  induction n as [|n IH]; intros ps dir p st st' d Hrun Hd Hp Hfit; [lia|].
  cbn [levels] in Hrun. apply bind_Ok in Hrun as (st1 & Hlevel & Hrest).
  destruct d as [|d].
  - exists st, st1. by rewrite Z.add_0_r.
  - rewrite u32_small in Hrest by lia.
    destruct (IH _ _ _ _ _ d Hrest ltac:(lia) ltac:(lia) ltac:(lia)) as (a & b & Hab).
    exists a, b. by replace (p + Z.of_nat (S d)) with (p + 1 + Z.of_nat d) by lia.
Qed.

End BuilderLoads.

(** X25: for an odd exponent whose spans sum to at most [E] and a power
    below 32, [computeProof] returns a proof only if [load] succeeds on every
    checkpoint iteration: each snapshot file is present and passes its CRC
    check. *)
Theorem computeProof_loads_every_checkpoint
    (hashWords : Z -> list Z -> Builder.digest)
    (hashWords_chain : Z -> Builder.digest -> list Z -> Builder.digest)
    (E power : Z) (dir : Store.directory) (pf : Builder.Proof) :
  0 <= E < 2 ^ 32 -> E mod 2 = 1 -> 0 <= power < 32 ->
  Schedule.sumZ (Schedule.spans E power) <= E ->
  Builder.computeProof hashWords hashWords_chain (Store.new E power) dir = Ok pf ->
  forall k, Store.shouldCheckpoint (Store.new E power) k = true ->
    exists words, Store.load (Store.new E power) dir k = Ok words.
Proof.
  intros HE Hodd Hpow Hsum Hrun k Hck.
  unfold Builder.computeProof in Hrun. apply bind_Ok in Hrun as (B & HB & Hrun).
  cbv zeta in Hrun. apply bind_Ok in Hrun as (st & Hlevels & _).
  destruct (Z.eq_dec k E) as [-> | HkE]; [by exists B|].
  (* the position of [k] in the array *)
  pose proof (sorted_points_spec E power HE Hsum) as Hspec.
  assert (k ∈ Schedule.sorted_points E power) as Hin.
  { apply Hspec. by apply isInPoints_spec. }
  apply list_elem_of_lookup in Hin as [j Hj].
  pose proof (lookup_lt_Some _ _ _ Hj) as Hjlen.
  pose proof (sorted_points_length E power ltac:(lia)) as Hlen.
  pose proof (sorted_points_last E power HE Hsum) as Hlast.
  rewrite last_lookup in Hlast.
  assert (Z.of_nat j + 1 < 2 ^ power) as Hjm.
  { destruct (Z.eq_dec (Z.of_nat j + 1) (2 ^ power)) as [Heq | ?]; [|lia].
    replace (pred (length (Schedule.sorted_points E power))) with j in Hlast by lia.
    congruence. }
  assert (k <= E) as HkleE.
  { pose proof Hck as Hck'. unfold Store.shouldCheckpoint in Hck'.
    cbn [Store.new Store.E Store.power] in Hck'.
    apply isInPoints_spec in Hck'; [|done..]. destruct Hck' as [? | Hh]; [lia|].
    apply hit_bounds in Hh; [|by apply first_span_range].
    unfold Schedule.spans in Hsum. lia. }
  assert (Store.points (Store.new E power) !! j = Some k) as Hpoint.
  { cbn [Store.new Store.points]. unfold Schedule.ProofSet. rewrite Hodd.
    cbn [Z.eqb negb]. by rewrite lookup_app_l. }
  (* the level and the turn that fetch it *)
  destruct (odd_part (Z.to_nat power) (Z.of_nat j + 1)) as (t & i & Ht & Hi & Hm).
  { rewrite Z2Nat.id by lia. lia. }
  rewrite Z2Nat.id in Ht, Hi by lia.
  assert (0 < 2 ^ t) as Htpos by (apply Z.pow_pos_nonneg; lia).
  assert (2 ^ (power - 1 - t) <= 2 ^ 31) as Hbuf by (apply Z.pow_le_mono_r; lia).
  change (Store.power (Store.new E power)) with power in Hlevels.
  destruct (levels_turn hashWords_chain _ _ _ _ _ _ (Z.to_nat (power - 1 - t)) Hlevels)
    as (sa & sb & Hlevel); [lia | lia | lia |].
  rewrite Z.add_0_l, Z2Nat.id in Hlevel by lia.
  apply level_runs_loop in Hlevel as (hashes & s1 & s2 & Hloop);
    [| lia | cbn [Store.new Store.power]; lia].
  replace (Store.power (Store.new E power) - (power - 1 - t) - 1) with t in Hloop
    by (cbn [Store.new Store.power]; lia).
  destruct (level_loop_turn _ _ _ _ _ _ _ _ _ (Z.to_nat i) Hloop) as (sc & sd & Hbody);
    [lia | lia | lia |].
  rewrite Z.add_0_l, Z2Nat.id in Hbody by lia.
  eapply level_body_loads; [exact Hbody | | exact Hpoint | exact HkleE | exact Hck].
  assert (2 ^ power <= 2 ^ 31) by (apply Z.pow_le_mono_r; lia).
  rewrite <- Hm. rewrite u32_small by lia. lia.
Qed.

(** Witness for X25: the zero snapshots of exponent 127 and power 2. *)
Lemma computeProof_loads_every_checkpoint_witness :
  exists words, Store.load (Store.new 127 2) Builder.zero_snapshots 96 = Ok words.
Proof.
  apply (computeProof_loads_every_checkpoint
           (fun _ _ => (0, 0, 0, 0)) (fun _ _ _ => (0, 0, 0, 0)) 127 2
           Builder.zero_snapshots
           {| Builder.E := 127; Builder.B := [0; 0; 0; 0];
              Builder.middles := [[0; 0; 0; 0]; [0; 0; 0; 0]] |});
    [lia | reflexivity | lia | vm_compute; discriminate | vm_compute; reflexivity
    | vm_compute; reflexivity].
Defined.

(** ** Proof builder: the loops stay inside their vectors *)




Section BuilderBounds.
Import Builder.








End BuilderBounds.



(** ** Backup manager: invariants of [loadState] and the file names *)

Section BackupNames.
Import Backup.

Lemma append_assoc (a b c : string) : (a +:+ b) +:+ c = a +:+ (b +:+ c).
Proof.
  induction a as [|ch a IH]; [done|].
  change (String ch ((a +:+ b) +:+ c) = String ch (a +:+ (b +:+ c))). by rewrite IH.
Qed.

Lemma to_string_nonpos z : (z >? 0) = false -> to_string z = "0"%string.
Proof. by destruct z. Qed.

Lemma u64s_of_bytes_length n : forall bs,
  length bs = (8 * n)%nat -> length (u64s_of_bytes bs) = n.
Proof.
  induction n as [|n IH]; intros bs Hlen.
  - by destruct bs.
  - destruct bs as [|b0 [|b1 [|b2 [|b3 [|b4 [|b5 [|b6 [|b7 rest]]]]]]]];
      simpl in Hlen; try lia.
    cbn [u64s_of_bytes length]. by rewrite IH by lia.
Qed.

Lemma read_into_length content x : length (read_into content x) = length x.
Proof.
  unfold read_into. apply u64s_of_bytes_length.
  rewrite length_app, length_drop, length_take, bytes_of_u64s_length. lia.
Qed.

Lemma read_digits_nonneg bs : forall acc seen v,
  0 <= acc -> read_digits bs acc seen = Some v -> 0 <= v.
Proof.
  induction bs as [|b bs IH]; intros acc seen v Hacc; cbn [read_digits].
  - destruct seen; [by intros [= <-] | done].
  - unfold digit_of. pose proof (byte_val_range b).
    destruct ((48 <=? byte_val b) && (byte_val b <=? 57)) eqn:Hd.
    + apply IH. lia.
    + destruct seen; [by intros [= <-] | done].
Qed.

Lemma extract_uint64_range bs v : extract_uint64 bs = Some v -> 0 <= v < 2 ^ 64.
Proof.
  unfold extract_uint64.
  assert (Hgen : forall (negative : bool) rest,
    match read_digits rest 0 false with
    | Some w => if w <? 2 ^ 64 then Some (if negative then u64 (- w) else w) else None
    | None => None
    end = Some v -> 0 <= v < 2 ^ 64).
  { intros negative rest. destruct (read_digits rest 0 false) as [w|] eqn:Hr; [|done].
    apply read_digits_nonneg in Hr; [|lia].
    destruct (Z.ltb_spec w (2 ^ 64)); [|done]. intros [= <-].
    destruct negative; [apply Z.mod_pos_bound; lia | lia]. }
  destruct (skip_space bs) as [|b rest]; [apply (Hgen false [])|].
  destruct (byte_val b =? 45); [apply (Hgen true)|].
  destruct (byte_val b =? 43); apply (Hgen false).
Qed.

End BackupNames.

(** X27: whenever [loadState] returns, the vector has the size it had, the
    index is a 64-bit value, and the index is 0 only for the fresh state (the
    seed in word 0, zero elsewhere). *)
Theorem loadState_invariants (bm : Backup.manager) (fs : Backup.files)
    (x x' : list Z) (resume : Z) (log : list Backup.event) :
  Backup.loadState bm fs x = Ok (x', resume, log) ->
  length x' = length x
  /\ 0 <= resume < 2 ^ 64
  /\ (resume = 0 ->
      x' = Backup.fresh (if String.eqb (Backup.mode_ bm) "prp" then 3 else 4) x).
Proof.
  unfold Backup.loadState.
  assert (Hfresh : Backup.fresh_start bm x = Ok (x', resume, log) ->
    length x' = length x /\ 0 <= resume < 2 ^ 64
    /\ (resume = 0 ->
        x' = Backup.fresh (if String.eqb (Backup.mode_ bm) "prp" then 3 else 4) x)).
  { unfold Backup.fresh_start. destruct x as [|w x]; [done|]. intros [= <- <- <-].
    split; [simpl; by rewrite length_replicate|]. split; [lia|].
    intros _. unfold Backup.fresh. simpl. by rewrite Nat.sub_0_r. }
  unfold Backup.read_loop.
  destruct (fs !! Backup.loopFilename_ bm) as [content|]; [|exact Hfresh].
  destruct (Backup.extract_uint64 content) as [r|] eqn:Hr; [|exact Hfresh].
  apply extract_uint64_range in Hr.
  destruct (Z.gtb_spec r 0) as [Hpos | _]; [|exact Hfresh].
  destruct (fs !! Backup.mersFilename_ bm) as [mers|]; intros [= <- <- <-].
  - split; [apply read_into_length|]. split; [lia | lia].
  - split; [done|]. split; [lia | lia].
Qed.

(** Witness for X27: the state saved at iteration 41. *)
Lemma loadState_invariants_witness :
  length [5; 6] = length [0; 0]
  /\ 0 <= 41 + 1 < 2 ^ 64
  /\ (41 + 1 = 0 ->
      [5; 6] = Backup.fresh
                 (if String.eqb (Backup.mode_ (Backup.new 2 "ckpt" 127 "prp" 0 0)) "prp"
                  then 3 else 4) [0; 0]).
Proof.
  apply (loadState_invariants (Backup.new 2 "ckpt" 127 "prp" 0 0)
           (Backup.saveState (Backup.new 2 "ckpt" 127 "prp" 0 0) (fun _ => NoFault) ∅
              [5; 6] 41 None).1 [0; 0] [5; 6] (41 + 1)
           [Backup.LookingForLoop; Backup.Resuming (41 + 1); Backup.LoadedState]).
  vm_compute. reflexivity.
Defined.

(** X28: with [b2 > 0] the constructor gives the six files of the manager
    six different names, whatever the path, exponent, mode and bounds are:
    no save can overwrite the file of another. *)
Theorem new_filenames_all_distinct vectorSize savePath exponent mode b1 b2 :
  0 < b2 ->
  let bm := Backup.new vectorSize savePath exponent mode b1 b2 in
  NoDup [Backup.mersFilename_ bm; Backup.loopFilename_ bm; Backup.exponentFilename_ bm;
         Backup.hqFilename_ bm; Backup.qFilename_ bm; Backup.loop2Filename_ bm].
Proof.
  intros Hb2. cbn [Backup.new Backup.mersFilename_ Backup.loopFilename_
    Backup.exponentFilename_ Backup.hqFilename_ Backup.qFilename_ Backup.loop2Filename_].
  destruct (Z.gtb_spec b2 0) as [_ | ?]; [|lia].
  repeat (apply NoDup_cons; split); try apply NoDup_nil_2.
  all: rewrite ?not_elem_of_cons; repeat split; try apply not_elem_of_nil.
  all: intros Heq; repeat apply append_inj_prefix in Heq; try discriminate Heq.
  all: destruct (b1 >? 0) eqn:Hb1; [|rewrite (to_string_nonpos b1 Hb1) in Heq];
    rewrite !append_assoc in Heq; repeat apply append_inj_prefix in Heq;
    discriminate Heq.
Qed.

(** Witness for X28: a P-1 run with both bounds. *)
Lemma new_filenames_all_distinct_witness :
  let bm := Backup.new 2 "ckpt" 127 "pm1" 1000 20000 in
  NoDup [Backup.mersFilename_ bm; Backup.loopFilename_ bm; Backup.exponentFilename_ bm;
         Backup.hqFilename_ bm; Backup.qFilename_ bm; Backup.loop2Filename_ bm].
Proof. apply (new_filenames_all_distinct 2 "ckpt" 127 "pm1" 1000 20000). lia. Defined.

(** ** Backup manager: stage 2 when something is off *)

Lemma write_from_open_fails fault (fs : Backup.files) file bytes (tmp : list byte) :
  fault file = OpenFails -> Backup.write_from fault fs file bytes tmp = Ok fs.
Proof. intros Hf. unfold Backup.write_from. rewrite Hf. by destruct (String.eqb _ _). Qed.

Lemma write_from_no_fault fault (fs : Backup.files) file (tmp : list byte) n :
  String.eqb file EmptyString = false -> fault file = NoFault ->
  length tmp = (8 * n)%nat ->
  Backup.write_from fault fs file (8 * Z.of_nat n) tmp = Ok (<[file := tmp]> fs).
Proof.
  intros Hname Hf Htmp. unfold Backup.write_from, Backup.write_file. rewrite Hname, Hf.
  destruct (Z.ltb_spec (Z.of_nat (length tmp)) (8 * Z.of_nat n)); [lia|].
  cbn [fst]. by rewrite take_ge by lia.
Qed.

(** X29: [saveStatePM1S2] reports nothing and commits what it can: when the
    [.hq] file cannot be opened, that file stays as it was while the [.q] file
    and the index in the [.loop2] file are still written, so the three files
    no longer belong to one state. *)
Theorem saveStatePM1S2_partial vectorSize savePath exponent mode b1 b2
    (fault : string -> write_fault) (fs : Backup.files) (hqBuf qBuf : list byte)
    (idx : Z) (n : nat) :
  let bm := Backup.new vectorSize savePath exponent mode b1 b2 in
  0 < b2 -> length hqBuf = (8 * n)%nat -> length qBuf = (8 * n)%nat ->
  fault (Backup.hqFilename_ bm) = OpenFails ->
  fault (Backup.qFilename_ bm) = NoFault -> fault (Backup.loop2Filename_ bm) = NoFault ->
  exists after,
    Backup.saveStatePM1S2 bm fault fs hqBuf qBuf idx (8 * Z.of_nat n) = Ok after
    /\ after !! Backup.hqFilename_ bm = fs !! Backup.hqFilename_ bm
    /\ after !! Backup.qFilename_ bm = Some qBuf
    /\ after !! Backup.loop2Filename_ bm
       = Some (list_byte_of_string (Backup.to_string (u64 (idx + 1)))).
Proof.
  intros bm Hb2 Hhq Hq Fhq Fq Fl.
  destruct (new_stage2_names vectorSize savePath exponent mode b1 b2 Hb2)
    as (Nhq & Nq & Nl & Hhq_q & Hhq_l & Hq_l). fold bm in Nhq, Nq, Nl, Hhq_q, Hhq_l, Hq_l.
  pose proof (tmp_buffer_length n) as Htmp.
  assert (Backup.loop2Filename_ bm <> Backup.hqFilename_ bm
          /\ Backup.loop2Filename_ bm <> Backup.qFilename_ bm
          /\ Backup.qFilename_ bm <> Backup.hqFilename_ bm) as (? & ? & ?)
    by (repeat split; congruence).
  eexists. split.
  - unfold Backup.saveStatePM1S2. cbv zeta.
    rewrite enqueue_read_whole by done. cbn [mbind outcome_bind].
    rewrite write_from_open_fails by done. cbn [mbind outcome_bind].
    rewrite enqueue_read_whole by done. cbn [mbind outcome_bind].
    rewrite (write_from_no_fault fault _ _ _ n) by done. cbn [mbind outcome_bind].
    unfold Backup.write_file. rewrite Nl, Fl. reflexivity.
  - cbn [fst]. split; [|split].
    + by rewrite !lookup_insert_ne by done.
    + by rewrite lookup_insert_ne, lookup_insert_eq by done.
    + by rewrite lookup_insert_eq.
Qed.

(** Witness for X29: buffers of 8 bytes, the [.hq] file held by an older save. *)
Lemma saveStatePM1S2_partial_witness :
  let bm := Backup.new 2 "ckpt" 127 "pm1" 1000 20000 in
  let fault := fun file : string =>
                 if String.eqb file "ckpt/127pm11000_20000.hq" then OpenFails else NoFault in
  let fs : Backup.files := {["ckpt/127pm11000_20000.hq"%string := replicate 8 Byte.x09]} in
  exists after,
    Backup.saveStatePM1S2 bm fault fs (replicate 8 Byte.x01) (replicate 8 Byte.x02) 6
      (8 * Z.of_nat 1) = Ok after
    /\ after !! Backup.hqFilename_ bm = fs !! Backup.hqFilename_ bm
    /\ after !! Backup.qFilename_ bm = Some (replicate 8 Byte.x02)
    /\ after !! Backup.loop2Filename_ bm
       = Some (list_byte_of_string (Backup.to_string (u64 (6 + 1)))).
Proof.
  apply (saveStatePM1S2_partial 2 "ckpt" 127 "pm1" 1000 20000
           (fun file : string =>
              if String.eqb file "ckpt/127pm11000_20000.hq" then OpenFails else NoFault)
           {["ckpt/127pm11000_20000.hq"%string := replicate 8 Byte.x09]}
           (replicate 8 Byte.x01) (replicate 8 Byte.x02) 6 1);
    [lia | reflexivity..].
Defined.

(** X30: the host vector of [saveStatePM1S2] has [bytes / 8] words, so a
    byte count of 8 or more that is not a multiple of 8 (with a device buffer
    at least that large) makes the first read from the device write past the
    end of the vector. *)
Theorem saveStatePM1S2_unaligned (bm : Backup.manager) (fault : string -> write_fault)
    (fs : Backup.files) (hqBuf qBuf : list byte) (idx bytes : Z) :
  8 <= bytes -> bytes mod 8 <> 0 -> bytes <= Z.of_nat (length hqBuf) ->
  Backup.saveStatePM1S2 bm fault fs hqBuf qBuf idx bytes = Undefined.
Proof.
  intros Hbytes Hmod Hbuf. unfold Backup.saveStatePM1S2, Backup.enqueue_read. cbv zeta.
  assert (Hwords : exists k, Z.to_nat (8 * (bytes / 8)) = S k).
  { exists (Nat.pred (Z.to_nat (8 * (bytes / 8)))).
    assert (8 <= 8 * (bytes / 8)) by (Z.div_mod_to_equations; lia). lia. }
  destruct Hwords as [k Hk].
  assert (Hnull : Backup.null_data (Backup.tmp_buffer bytes) = false).
  { unfold Backup.tmp_buffer. by rewrite Hk. }
  rewrite Hnull. cbn [orb].
  destruct (Z.ltb_spec (Z.of_nat (length hqBuf)) bytes) as [? | _]; [lia|].
  unfold Backup.tmp_buffer. rewrite length_replicate.
  destruct (Z.ltb_spec (Z.of_nat (Z.to_nat (8 * (bytes / 8)))) bytes) as [_ | Hge];
    [done|].
  exfalso. Z.div_mod_to_equations. lia.
Qed.

(** Witness for X30: 12 bytes. *)
Lemma saveStatePM1S2_unaligned_witness :
  Backup.saveStatePM1S2 (Backup.new 2 "ckpt" 127 "pm1" 1000 20000) (fun _ => NoFault) ∅
    (replicate 12 Byte.x01) (replicate 12 Byte.x02) 6 12 = Undefined.
Proof.
  apply (saveStatePM1S2_unaligned (Backup.new 2 "ckpt" 127 "pm1" 1000 20000)
           (fun _ => NoFault) ∅ (replicate 12 Byte.x01) (replicate 12 Byte.x02) 6 12);
    [lia | vm_compute; discriminate | simpl; lia].
Defined.

(** Below 8 bytes the host vector has no word and its [data()] is null: the
    reads from the device are refused, and when no file opens (the stage-2
    names are empty for [b2 = 0]) the call returns. *)
Example saveStatePM1S2_no_word :
  Backup.saveStatePM1S2 (Backup.new 2 "ckpt" 127 "pm1" 1000 0) (fun _ => NoFault) ∅
    (replicate 12 Byte.x01) (replicate 12 Byte.x02) 6 4 = Ok ∅.
Proof. vm_compute. reflexivity. Qed.
